(** * The compiled-script runtime of scratch-vm ([src/compiler/execute.js])

    A shallow embedding of the functions that compiled scripts call at run
    time, and the properties of them that the specification states.

    The file has two parts.  Part I holds the definitions: the JavaScript
    substrate the source relies on (IEEE-754 doubles, strings, the scalar
    values and their coercions), then the functions of [execute.js], each
    translated from its source text, then the generators ([waitThreads],
    [waitPromise], [executeInCompatibilityLayer]) as resumable state
    machines.  Part II holds the theorems. *)

From Stdlib Require Import ZArith Bool List String Ascii DecimalString Lia.
From Stdlib Require Import Floats.SpecFloat.
Import ListNotations.

Local Open Scope Z_scope.

(* ===================================================================== *)
(** * Part I. Definitions                                                  *)
(* ===================================================================== *)

(** ** JavaScript numbers

    A JavaScript Number is an IEEE-754 binary64 value.  A finite non-zero
    number [Fin neg m e] stands for [(-1)^neg * m * 2^e].  Every arithmetic
    operation is the exact operation on rationals followed by one rounding
    to the nearest double, ties to even ([round_ratio]), which is how
    IEEE-754 defines them. *)

Module Num.

Inductive number : Type :=
| NaN
| Inf (neg : bool)
| Zero (neg : bool)
| Fin (neg : bool) (m : positive) (e : Z).

Definition is_nan (x : number) : bool :=
  match x with NaN => true | _ => false end.

Definition is_zero (x : number) : bool :=
  match x with Zero _ => true | _ => false end.

Definition is_finite (x : number) : bool :=
  match x with Zero _ | Fin _ _ _ => true | _ => false end.

(** The sign bit; [NaN] has none that JavaScript can observe. *)
Definition sign_bit (x : number) : bool :=
  match x with
  | NaN => false
  | Inf s | Zero s | Fin s _ _ => s
  end.

(** A double in the format: at most 53 bits of mantissa, exponent between
    the subnormal one and the largest one. *)
Definition wf (x : number) : bool :=
  match x with
  | Fin _ m e => (Zpos m <? 2 ^ 53) && (-1074 <=? e) && (e <=? 971)
  | _ => true
  end.

(** [floor (log2 (p / q))]. *)
Definition floor_log2_ratio (p q : positive) : Z :=
  let l := Z.log2 (Zpos p) - Z.log2 (Zpos q) in
  if Zpos p * 2 ^ Z.max 0 (- l) <? Zpos q * 2 ^ Z.max 0 l then l - 1 else l.

(** The exponent of the binary64 grid around [p / q]: 53 significant bits,
    never below the subnormal exponent. *)
Definition grid_exponent (p q : positive) : Z :=
  Z.max (floor_log2_ratio p q - 52) (-1074).

(** [p / q] in units of [2^e], rounded to the nearest integer, ties to
    even. *)
Definition nearest_even (p q : positive) (e : Z) : Z :=
  let num := Zpos p * 2 ^ Z.max 0 (- e) in
  let den := Zpos q * 2 ^ Z.max 0 e in
  let m0 := num / den in
  match 2 * (num mod den) ?= den with
  | Lt => m0
  | Gt => m0 + 1
  | Eq => if Z.even m0 then m0 else m0 + 1
  end.

(** The double nearest to [(-1)^neg * p / q]. *)
Definition round_ratio (neg : bool) (p q : positive) : number :=
  let e := grid_exponent p q in
  let m := nearest_even p q e in
  let m' := if m =? 2 ^ 53 then 2 ^ 52 else m in
  let e' := if m =? 2 ^ 53 then e + 1 else e in
  if 971 <? e' then Inf neg
  else match m' with
       | Zpos k => Fin neg k e'
       | _ => Zero neg
       end.

(** The double nearest to [(-1)^neg * m * 2^e]. *)
Definition round_dyadic (neg : bool) (m : positive) (e : Z) : number :=
  match e with
  | Zneg k => round_ratio neg m (2 ^ k)%positive
  | Z0 => round_ratio neg m 1
  | Zpos k => round_ratio neg (m * 2 ^ k)%positive 1
  end.

Definition of_Z (z : Z) : number :=
  match z with
  | Z0 => Zero false
  | Zpos p => round_ratio false p 1
  | Zneg p => round_ratio true p 1
  end.

(** Unary minus. *)
Definition opp (x : number) : number :=
  match x with
  | NaN => NaN
  | Inf s => Inf (negb s)
  | Zero s => Zero (negb s)
  | Fin s m e => Fin (negb s) m e
  end.

(** The signed mantissa of [m * 2^e] in units of [2^e0], for [e0 <= e]. *)
Definition aligned (neg : bool) (m : positive) (e e0 : Z) : Z :=
  let v := Zpos m * 2 ^ (e - e0) in if neg then - v else v.

(** Comparison of the values; [None] when an operand is [NaN]. *)
Definition compare (x y : number) : option comparison :=
  match x, y with
  | NaN, _ | _, NaN => None
  | Inf sx, Inf sy =>
      Some (if Bool.eqb sx sy then Eq else if sx then Lt else Gt)
  | Inf sx, _ => Some (if sx then Lt else Gt)
  | _, Inf sy => Some (if sy then Gt else Lt)
  | Zero _, Zero _ => Some Eq
  | Zero _, Fin sy _ _ => Some (if sy then Gt else Lt)
  | Fin sx _ _, Zero _ => Some (if sx then Lt else Gt)
  | Fin sx mx ex, Fin sy my ey =>
      let e0 := Z.min ex ey in
      Some (aligned sx mx ex e0 ?= aligned sy my ey e0)
  end.

(** [x === y] on numbers. *)
Definition eqb (x y : number) : bool :=
  match compare x y with Some Eq => true | _ => false end.

(** [x < y]. *)
Definition ltb (x y : number) : bool :=
  match compare x y with Some Lt => true | _ => false end.

(** [x > y]. *)
Definition gtb (x y : number) : bool :=
  match compare x y with Some Gt => true | _ => false end.

(** [x + y]. *)
Definition add (x y : number) : number :=
  match x, y with
  | NaN, _ | _, NaN => NaN
  | Inf sx, Inf sy => if Bool.eqb sx sy then Inf sx else NaN
  | Inf sx, _ => Inf sx
  | _, Inf sy => Inf sy
  | Zero sx, Zero sy => Zero (sx && sy)
  | Zero _, Fin _ _ _ => y
  | Fin _ _ _, Zero _ => x
  | Fin sx mx ex, Fin sy my ey =>
      let e0 := Z.min ex ey in
      match aligned sx mx ex e0 + aligned sy my ey e0 with
      | Z0 => Zero false
      | Zpos s => round_dyadic false s e0
      | Zneg s => round_dyadic true s e0
      end
  end.

(** [x * y]. *)
Definition mul (x y : number) : number :=
  match x, y with
  | NaN, _ | _, NaN => NaN
  | Inf _, Zero _ | Zero _, Inf _ => NaN
  | Inf sx, Inf sy | Inf sx, Fin sy _ _ | Fin sx _ _, Inf sy => Inf (xorb sx sy)
  | Zero sx, Zero sy | Zero sx, Fin sy _ _ | Fin sx _ _, Zero sy =>
      Zero (xorb sx sy)
  | Fin sx mx ex, Fin sy my ey => round_dyadic (xorb sx sy) (mx * my) (ex + ey)
  end.

(** [x / y]. *)
Definition div (x y : number) : number :=
  match x, y with
  | NaN, _ | _, NaN => NaN
  | Inf _, Inf _ | Zero _, Zero _ => NaN
  | Inf sx, Zero sy | Inf sx, Fin sy _ _ | Fin sx _ _, Zero sy =>
      Inf (xorb sx sy)
  | Zero sx, Inf sy | Zero sx, Fin sy _ _ | Fin sx _ _, Inf sy =>
      Zero (xorb sx sy)
  | Fin sx mx ex, Fin sy my ey =>
      match ex - ey with
      | Z0 => round_ratio (xorb sx sy) mx my
      | Zpos k => round_ratio (xorb sx sy) (mx * 2 ^ k) my
      | Zneg k => round_ratio (xorb sx sy) mx (my * 2 ^ k)
      end
  end.

(** [x % y]: the remainder of the truncating division, with the sign of the
    dividend.  It is always representable, so the rounding is exact. *)
Definition rem (x y : number) : number :=
  match x, y with
  | NaN, _ | _, NaN => NaN
  | Inf _, _ => NaN
  | _, Zero _ => NaN
  | Zero _, _ => x
  | Fin _ _ _, Inf _ => x
  | Fin sx mx ex, Fin _ my ey =>
      let e0 := Z.min ex ey in
      match (Zpos mx * 2 ^ (ex - e0)) mod (Zpos my * 2 ^ (ey - e0)) with
      | Zpos r => round_dyadic sx r e0
      | _ => Zero sx
      end
  end.

(** ToInt32: truncate toward zero, wrap modulo [2^32] into
    [-2^31 .. 2^31 - 1].  [NaN], zeros and infinities give 0. *)
Definition truncate (x : number) : Z :=
  match x with
  | Fin s m e =>
      let a := match e with
               | Zneg k => Zpos m / 2 ^ Zpos k
               | _ => Zpos m * 2 ^ e
               end in
      if s then - a else a
  | _ => 0
  end.

Definition wrap32 (z : Z) : Z :=
  let u := z mod 2 ^ 32 in
  if 2 ^ 31 <=? u then u - 2 ^ 32 else u.

Definition toInt32 (x : number) : Z := wrap32 (truncate x).

(** ToBoolean on numbers: false for zeros and [NaN]. *)
Definition truthy (x : number) : bool :=
  match x with
  | NaN | Zero _ => false
  | _ => true
  end.

(** What [Math.random()] may return: a double [x] with [0 <= x < 1]. *)
Definition in_unit_interval (x : number) : bool :=
  wf x && negb (ltb x (Zero false)) && ltb x (of_Z 1).

(** The view of a number in the Standard Library's IEEE-754
    specification, used to cross-check the arithmetic above. *)
Definition to_spec_float (x : number) : spec_float :=
  match x with
  | NaN => S754_nan
  | Inf s => S754_infinity s
  | Zero s => S754_zero s
  | Fin s m e => S754_finite s m e
  end.

End Num.

(** ** JavaScript strings

    Strings are sequences of code units; the model covers the code units
    below 256 (one [ascii] each, read as Latin-1).  [trim], [toLowerCase],
    the conversion of a string to a number and of a number to a string
    follow ECMA-262 on that range. *)

Module Str.

Local Open Scope string_scope.
Local Open Scope Z_scope.

Definition code (c : ascii) : Z := Z.of_N (N_of_ascii c).

Definition char_of (z : Z) : ascii := ascii_of_N (Z.to_N z).

(** WhiteSpace and LineTerminator code units: TAB, LF, VT, FF, CR, SP and
    NBSP. *)
Definition is_space (c : ascii) : bool :=
  let n := code c in
  ((9 <=? n) && (n <=? 13)) || (n =? 32) || (n =? 160).

Fixpoint trim_start (s : string) : string :=
  match s with
  | String c s' => if is_space c then trim_start s' else s
  | EmptyString => EmptyString
  end.

Fixpoint trim_end (s : string) : string :=
  match s with
  | String c s' =>
      match trim_end s' with
      | EmptyString => if is_space c then EmptyString else String c EmptyString
      | t => String c t
      end
  | EmptyString => EmptyString
  end.

(** [s.trim()]. *)
Definition trim (s : string) : string := trim_end (trim_start s).

Definition lower_char (c : ascii) : ascii :=
  let n := code c in
  if ((65 <=? n) && (n <=? 90))
     || ((192 <=? n) && (n <=? 222) && negb (n =? 215))
  then char_of (n + 32) else c.

(** [s.toLowerCase()]. *)
Fixpoint toLowerCase (s : string) : string :=
  match s with
  | String c s' => String (lower_char c) (toLowerCase s')
  | EmptyString => EmptyString
  end.

(** *** StringToNumber *)

Definition digit_value (radix : Z) (c : ascii) : option Z :=
  let n := code c in
  let d := if (48 <=? n) && (n <=? 57) then n - 48
           else if (97 <=? n) && (n <=? 102) then n - 87
           else if (65 <=? n) && (n <=? 70) then n - 55
           else radix in
  if d <? radix then Some d else None.

(** The longest prefix of digits in [radix]: its value on top of [acc], the
    number of digits read on top of [cnt], and the rest of the string. *)
Fixpoint read_digits (radix : Z) (s : string) (acc cnt : Z) : Z * Z * string :=
  match s with
  | String c s' =>
      match digit_value radix c with
      | Some d => read_digits radix s' (acc * radix + d) (cnt + 1)
      | None => (acc, cnt, s)
      end
  | EmptyString => (acc, cnt, s)
  end.

(** A sign, if any, and the rest. *)
Definition read_sign (s : string) : bool * string :=
  match s with
  | String "-" s' => (true, s')
  | String "+" s' => (false, s')
  | _ => (false, s)
  end.

(** ExponentPart, optional: [Some 0] when absent, [None] when it is
    malformed or followed by anything. *)
Definition read_exponent (s : string) : option Z :=
  match s with
  | EmptyString => Some 0
  | String c s' =>
      if (code c =? 101) || (code c =? 69) then
        let '(neg, s'') := read_sign s' in
        match read_digits 10 s'' 0 0 with
        | (v, cnt, EmptyString) =>
            if 0 <? cnt then Some (if neg then - v else v) else None
        | _ => None
        end
      else None
  end.

(** The double nearest to [(-1)^neg * m * 10^e]. *)
Definition decimal_to_number (neg : bool) (m e : Z) : Num.number :=
  match m with
  | Zpos p =>
      match e with
      | Z0 => Num.round_ratio neg p 1
      | Zpos k => Num.round_ratio neg (p * 10 ^ k) 1
      | Zneg k => Num.round_ratio neg p (10 ^ k)
      end
  | _ => Num.Zero neg
  end.

(** StrUnsignedDecimalLiteral other than [Infinity]: digits, an optional
    fraction, an optional exponent; at least one digit. *)
Definition read_unsigned_decimal (neg : bool) (s : string) : Num.number :=
  let '(int_part, int_cnt, rest) := read_digits 10 s 0 0 in
  let '(mant, frac_cnt, rest') :=
    match rest with
    | String "." r => read_digits 10 r int_part 0
    | _ => (int_part, 0, rest)
    end in
  if 0 <? int_cnt + frac_cnt then
    match read_exponent rest' with
    | Some ex => decimal_to_number neg mant (ex - frac_cnt)
    | None => Num.NaN
    end
  else Num.NaN.

Definition read_radix (radix : Z) (s : string) : Num.number :=
  match read_digits radix s 0 0 with
  | (v, cnt, EmptyString) => if 0 <? cnt then Num.of_Z v else Num.NaN
  | _ => Num.NaN
  end.

(** StringToNumber: the empty or blank string is [+0]; otherwise a signed
    decimal literal, a signed [Infinity], or an unsigned literal in base
    16, 8 or 2; anything else is [NaN]. *)
Definition to_number (s : string) : Num.number :=
  match trim s with
  | EmptyString => Num.Zero false
  | String "0" (String "x" r) | String "0" (String "X" r) => read_radix 16 r
  | String "0" (String "o" r) | String "0" (String "O" r) => read_radix 8 r
  | String "0" (String "b" r) | String "0" (String "B" r) => read_radix 2 r
  | t =>
      let '(neg, u) := read_sign t in
      if String.eqb u "Infinity" then Num.Inf neg
      else read_unsigned_decimal neg u
  end.

(** *** Number::toString, radix 10 *)

Definition digits_of_pos (p : positive) : string :=
  DecimalString.NilEmpty.string_of_uint (Pos.to_uint p).

Fixpoint zeros (n : nat) : string :=
  match n with
  | O => EmptyString
  | S n' => String "0" (zeros n')
  end.

(** [floor (log10 (p / q))], from the binary logarithm and one
    correction either way. *)
Definition floor_log10_ratio (p q : positive) : Z :=
  let est := (Num.floor_log2_ratio p q * 1233) / 4096 in
  let below (n : Z) := (* p / q < 10 ^ n *)
    Zpos p * 10 ^ Z.max 0 (- n) <? Zpos q * 10 ^ Z.max 0 n in
  if below est then est - 1
  else if below (est + 1) then est
  else est + 1.

(** The [k]-digit decimals next to [p / q]: [p / q] in units of
    [10 ^ (n - k)] is between [lo] and [lo + 1]; [closer] tells which one
    is nearer. *)
Definition scaled (p q : positive) (n k : Z) : Z * comparison :=
  let num := Zpos p * 10 ^ Z.max 0 (k - n) in
  let den := Zpos q * 10 ^ Z.max 0 (n - k) in
  (num / den, 2 * (num mod den) ?= den).

(** Does [s * 10 ^ (n - k)] convert back to the number [x]? *)
Definition round_trips (x : Num.number) (s n k : Z) : bool :=
  Num.eqb (decimal_to_number false s (n - k)) x.

(** The shortest digit string: the least [k] and an [s] of [k] digits such
    that [s * 10 ^ (n - k)] converts back to [x]; the nearest such [s] when
    there are two.  [k] runs from [k0] for [fuel] steps; 17 digits always
    suffice. *)
Fixpoint shortest (x : Num.number) (p q : positive) (n k : Z) (fuel : nat)
  : Z * Z :=
  let '(lo, closer) := scaled p q n k in
  let hi := lo + 1 in
  let ok_lo := round_trips x lo n k in
  let ok_hi := round_trips x hi n k in
  let pick_hi :=
    match closer with
    | Lt => negb ok_lo
    | Gt => ok_hi
    | Eq => if Z.even lo then negb ok_lo else ok_hi
    end in
  match fuel with
  | O => (if pick_hi then hi else lo, k)
  | S fuel' =>
      if ok_lo || ok_hi
      then (if pick_hi then hi else lo, k)
      else shortest x p q n (k + 1) fuel'
  end.

Definition exponent_suffix (e : Z) : string :=
  match e with
  | Zneg a => "e-" ++ digits_of_pos a
  | Zpos a => "e+" ++ digits_of_pos a
  | Z0 => "e+0"
  end.

(** The text of the positive number with digits [ds] and decimal point
    after the [n]-th digit. *)
Definition layout (ds : string) (n : Z) : string :=
  let k := Z.of_nat (String.length ds) in
  if (k <=? n) && (n <=? 21) then ds ++ zeros (Z.to_nat (n - k))
  else if (0 <? n) && (n <=? 21) then
    substring 0 (Z.to_nat n) ds ++ "." ++
    substring (Z.to_nat n) (Z.to_nat (k - n)) ds
  else if (-6 <? n) && (n <=? 0) then "0." ++ zeros (Z.to_nat (- n)) ++ ds
  else if k =? 1 then ds ++ exponent_suffix (n - 1)
  else substring 0 1 ds ++ "." ++ substring 1 (Z.to_nat (k - 1)) ds
       ++ exponent_suffix (n - 1).

Definition positive_to_string (x : Num.number) (m : positive) (e : Z)
  : string :=
  let p := match e with Zpos a => (m * 2 ^ a)%positive | _ => m end in
  let q := match e with Zneg a => (2 ^ a)%positive | _ => 1%positive end in
  let n := floor_log10_ratio p q + 1 in
  let '(s, k) := shortest x p q n 1 16 in
  (* a candidate that came out as 10^k is the digit 1 one place higher *)
  if s =? 10 ^ k then layout "1" (n + 1)
  else layout (digits_of_pos (Z.to_pos s)) n.

Definition of_number (x : Num.number) : string :=
  match x with
  | Num.NaN => "NaN"
  | Num.Inf false => "Infinity"
  | Num.Inf true => "-Infinity"
  | Num.Zero _ => "0"
  | Num.Fin false m e => positive_to_string x m e
  | Num.Fin true m e => "-" ++ positive_to_string (Num.Fin false m e) m e
  end.

End Str.

(** ** Scalar values and their coercions

    The values a compiled script handles: Scratch values are numbers,
    strings and booleans; [null] and [undefined] are there because the
    source tests for them. *)

Module Val.

Local Open Scope string_scope.
Local Open Scope Z_scope.

Inductive value : Type :=
| VUndefined
| VNull
| VBool (b : bool)
| VNumber (n : Num.number)
| VString (s : string).

Inductive type_name : Type :=
| TUndefined | TObject | TBoolean | TNumber | TString.

(** [typeof v]; [typeof null] is ['object']. *)
Definition typeof (v : value) : type_name :=
  match v with
  | VUndefined => TUndefined
  | VNull => TObject
  | VBool _ => TBoolean
  | VNumber _ => TNumber
  | VString _ => TString
  end.

Definition is_number (v : value) : bool :=
  match typeof v with TNumber => true | _ => false end.

(** [+v]. *)
Definition toNumber (v : value) : Num.number :=
  match v with
  | VUndefined => Num.NaN
  | VNull => Num.Zero false
  | VBool true => Num.of_Z 1
  | VBool false => Num.Zero false
  | VNumber n => n
  | VString s => Str.to_number s
  end.

(** ['' + v]. *)
Definition toString (v : value) : string :=
  match v with
  | VUndefined => "undefined"
  | VNull => "null"
  | VBool true => "true"
  | VBool false => "false"
  | VNumber n => Str.of_number n
  | VString s => s
  end.

(** [a === b]. *)
Definition strict_equal (a b : value) : bool :=
  match a, b with
  | VUndefined, VUndefined => true
  | VNull, VNull => true
  | VBool x, VBool y => Bool.eqb x y
  | VNumber x, VNumber y => Num.eqb x y
  | VString x, VString y => String.eqb x y
  | _, _ => false
  end.

(** [a.indexOf(item)]: the offset of the first element strictly equal to
    [item], from offset [i] on; [-1] when there is none. *)
Fixpoint indexOf_from (a : list value) (item : value) (i : Z) : Z :=
  match a with
  | [] => -1
  | x :: a' => if strict_equal x item then i else indexOf_from a' item (i + 1)
  end.

Definition indexOf (a : list value) (item : value) : Z := indexOf_from a item 0.

(** [a.length]. *)
Definition length (a : list value) : Z := Z.of_nat (List.length a).

(** [a[i]]: [undefined] outside the array. *)
Definition get (a : list value) (i : Z) : value :=
  if (0 <=? i) && (i <? length a) then nth (Z.to_nat i) a VUndefined
  else VUndefined.

Fixpoint replace_nth (a : list value) (n : nat) (v : value) : list value :=
  match a, n with
  | [], _ => []
  | _ :: a', O => v :: a'
  | x :: a', S n' => x :: replace_nth a' n' v
  end.

(** [a[i] = v], as far as the elements go: inside the array the element is
    replaced; past the end the array grows, the gap reading [undefined]; a
    negative [i] names a property that is no element. *)
Definition set (a : list value) (i : Z) (v : value) : list value :=
  if i <? 0 then a
  else if i <? length a then replace_nth a (Z.to_nat i) v
  else a ++ repeat VUndefined (Z.to_nat (i - length a)) ++ [v].

(** The offset [splice] starts from: a negative start counts from the end,
    and the result is clamped to the array. *)
Definition splice_start (a : list value) (start : Z) : nat :=
  Z.to_nat (if start <? 0 then Z.max (length a + start) 0
            else Z.min start (length a)).

(** [a.splice(start, 0, v)]. *)
Definition splice_insert (a : list value) (start : Z) (v : value)
  : list value :=
  let k := splice_start a start in
  firstn k a ++ v :: skipn k a.

(** [a.splice(start, 1)]. *)
Definition splice_delete (a : list value) (start : Z) : list value :=
  let k := splice_start a start in
  firstn k a ++ skipn (S k) a.

End Val.

(** ** The value functions of [execute.js] *)

Module Exec.

Import Val.
Local Open Scope string_scope.
Local Open Scope Z_scope.

(** [isWhiteSpace], lines 200-202. *)
Definition isWhiteSpace (val : value) : bool :=
  match val with
  | VNull => true
  | VString s => String.length (Str.trim s) =? 0
  | _ => false
  end%nat.

(** [compareEqual], lines 210-224.  The two [let]-bound numbers are
    reassigned by the [if]/[else if]; the pair below is their value after
    it. *)
Definition compareEqual (v1 v2 : value) : bool :=
  let n1 := toNumber v1 in
  let n2 := toNumber v2 in
  let '(n1, n2) :=
    if Num.eqb n1 (Num.Zero false) && isWhiteSpace v1 then (Num.NaN, n2)
    else if Num.eqb n2 (Num.Zero false) && isWhiteSpace v2 then (n1, Num.NaN)
    else (n1, n2) in
  if Num.is_nan n1 || Num.is_nan n2 then
    let s1 := Str.toLowerCase (toString v1) in
    let s2 := Str.toLowerCase (toString v2) in
    String.eqb s1 s2
  else Num.eqb n1 n2.

(** The comparison as the specification words it: each operand is coerced
    to a number, an operand that coerces to zero but is blank -- a string
    of white space only, the empty one included, or [null] -- counts as
    not-a-number, and the comparison is on lower-cased strings as soon as
    one side is not a number.  These definitions follow the words and do
    not go through [isWhiteSpace]. *)
Fixpoint whitespace_only (s : string) : bool :=
  match s with
  | EmptyString => true
  | String c s' => Str.is_space c && whitespace_only s'
  end.

Definition blank (v : value) : bool :=
  match v with
  | VNull => true
  | VString s => whitespace_only s
  | _ => false
  end.

Definition numeric_form (v : value) : Num.number :=
  let n := toNumber v in
  if Num.eqb n (Num.Zero false) && blank v then Num.NaN else n.

Definition compareEqual_spec (a b : value) : bool :=
  if Num.is_nan (numeric_form a) || Num.is_nan (numeric_form b)
  then String.eqb (Str.toLowerCase (toString a)) (Str.toLowerCase (toString b))
  else Num.eqb (numeric_form a) (numeric_form b).

(** [listIndex], lines 367-387.  [length] is an array length (or one more),
    an integer that a double holds exactly, as is every value of [index]
    after [index | 0]: the comparisons and subtractions on them are exact
    and are written on [Z].  [rnd] is what [Math.random()] returns if it is
    called: a number with [0 <= rnd < 1]. *)
Definition listIndex (index : value) (length : Z) (rnd : Num.number) : Z :=
  let numeric (index : Num.number) :=
    let index := Num.toInt32 index in
    if (index <? 1) || (index >? length) then -1 else index - 1 in
  if negb (is_number index) then
    if strict_equal index (VString "last") then
      if length >? 0 then length - 1 else -1
    else if strict_equal index (VString "random")
            || strict_equal index (VString "*") then
      if length >? 0 then Num.toInt32 (Num.mul rnd (Num.of_Z length)) else -1
    else
      let n := toNumber index in
      numeric (if Num.truthy n then n else Num.Zero false)
  else numeric (toNumber index).

(** The words of the specification about [listIndex]: an index is symbolic
    when it is one of the three names, and any other index is coerced to a
    number, what is not numeric becoming 0. *)
Definition is_symbolic (index : value) : bool :=
  strict_equal index (VString "last")
  || strict_equal index (VString "random")
  || strict_equal index (VString "*").

Definition index_number (index : value) : Num.number :=
  let n := toNumber index in
  if is_number index then n
  else if Num.truthy n then n else Num.Zero false.

(** What the last lines of [listIndex] make of a 32-bit integer. *)
Definition in_bounds (i length : Z) : Z :=
  if (1 <=? i) && (i <=? length) then i - 1 else -1.

(** [mod], lines 518-522 ([mod] is a reserved word here). *)
Definition mod_ (n modulus : Num.number) : Num.number :=
  let result := Num.rem n modulus in
  if Num.ltb (Num.div result modulus) (Num.Zero false)
  then Num.add result modulus
  else result.

(** ** List operations *)

(** A list variable: the array of its items, the flag that says whether
    the monitor showing it is up to date, and the other properties of the
    object, which the functions below never name. *)
Record variable : Type := mkVariable {
  value_ : list value;
  _monitorUpToDate : bool;
  properties : list (string * value)
}.

Definition set_value (l : variable) (a : list value) : variable :=
  mkVariable a (_monitorUpToDate l) (properties l).

Definition set_monitorUpToDate (l : variable) (b : bool) : variable :=
  mkVariable (value_ l) b (properties l).

(** [listGet], lines 395-401; its argument is the array itself. *)
Definition listGet (list : list value) (idx : value) (rnd : Num.number)
  : value :=
  let index := listIndex idx (length list) rnd in
  if index =? -1 then VString ""
  else get list index.

(** [listReplace], lines 409-416. *)
Definition listReplace (list : variable) (idx value : value)
  (rnd : Num.number) : variable :=
  let index := listIndex idx (length (value_ list)) rnd in
  if index =? -1 then list
  else
    let list := set_value list (set (value_ list) index value) in
    set_monitorUpToDate list false.

(** [listInsert], lines 424-431. *)
Definition listInsert (list : variable) (idx value : value)
  (rnd : Num.number) : variable :=
  let index := listIndex idx (length (value_ list) + 1) rnd in
  if index =? -1 then list
  else
    let list := set_value list (splice_insert (value_ list) index value) in
    set_monitorUpToDate list false.

(** [listDelete], lines 438-449. *)
Definition listDelete (list : variable) (idx : value) (rnd : Num.number)
  : variable :=
  if strict_equal idx (VString "all") then set_value list []
  else
    let index := listIndex idx (length (value_ list)) rnd in
    if index =? -1 then list
    else
      let list := set_value list (splice_delete (value_ list) index) in
      set_monitorUpToDate list false.

(** The [for] loops of [listContains] and [listIndexOf]: the offset of the
    first element that [compareEqual]s [item], from offset [i] on. *)
Fixpoint find_equal (a : list value) (item : value) (i : Z) : option Z :=
  match a with
  | [] => None
  | x :: a' =>
      if compareEqual x item then Some i else find_equal a' item (i + 1)
  end.

(** [listContains], lines 457-468. *)
Definition listContains (list : variable) (item : value) : bool :=
  if negb (indexOf (value_ list) item =? -1) then true
  else
    match find_equal (value_ list) item 0 with
    | Some _ => true
    | None => false
    end.

(** [listIndexOf], lines 476-483. *)
Definition listIndexOf (list : variable) (item : value) : Z :=
  match find_equal (value_ list) item 0 with
  | Some i => i + 1
  | None => 0
  end.

End Exec.

(** ** Threads and generators

    A generator function of [execute.js] is modelled as a resumable state
    machine: a control point for the place it starts from and one for each
    [yield], and a function that runs it from a control point to the next
    [yield] or to its [return].  Between two resumptions the scheduler and
    the other threads run, so every resumption takes the state of the
    world as it finds it. *)

Module Thread.

(** Modelled from the spec: the [Thread.STATUS_*] constants of
    [engine/thread], which is not among the sources.  The literal [3] that
    [waitThreads] stores is [STATUS_YIELD_TICK], as the comment on that
    line says. *)
Inductive status : Type :=
| STATUS_RUNNING
| STATUS_PROMISE_WAIT
| STATUS_YIELD
| STATUS_YIELD_TICK
| STATUS_DONE.

Definition status_eqb (a b : status) : bool :=
  match a, b with
  | STATUS_RUNNING, STATUS_RUNNING
  | STATUS_PROMISE_WAIT, STATUS_PROMISE_WAIT
  | STATUS_YIELD, STATUS_YIELD
  | STATUS_YIELD_TICK, STATUS_YIELD_TICK
  | STATUS_DONE, STATUS_DONE => true
  | _, _ => false
  end.

(** What one call of [generator.next()] ends with. *)
Inductive outcome (R : Type) : Type :=
| Suspended          (* the generator reached a [yield] *)
| Returned (r : R).  (* the generator returned [r] *)

Arguments Suspended {R}.
Arguments Returned {R} r.

End Thread.

(** *** [waitThreads], lines 51-81 *)

Module WaitThreads.

Import Thread.

(** Threads are objects compared by identity: a thread is named by its
    address. *)
Definition thread_ref := nat.

(** The part of the runtime that [waitThreads] reads and writes:
    [runtime.threads], the scheduler's active set, and the [status] field
    of every thread object. *)
Record runtime : Type := mkRuntime {
  threads : list thread_ref;
  status_of : thread_ref -> status
}.

Definition set_status (rt : runtime) (t : thread_ref) (s : status) : runtime :=
  mkRuntime (threads rt)
            (fun u => if Nat.eqb u t then s else status_of rt u).

(** [runtime.threads.indexOf(t) !== -1]. *)
Fixpoint is_active (active : list thread_ref) (t : thread_ref) : bool :=
  match active with
  | [] => false
  | u :: rest => if Nat.eqb u t then true else is_active rest t
  end.

Section Generator.

(** [runtime.isWaitingThread], a method of the runtime, which is not among
    the sources. *)
Variable isWaitingThread : runtime -> thread_ref -> bool.

(** The first [for] loop: is any of [threads] in [runtime.threads]? *)
Fixpoint anyRunning (rt : runtime) (ts : list thread_ref) : bool :=
  match ts with
  | [] => false
  | t :: ts' => if is_active (threads rt) t then true else anyRunning rt ts'
  end.

(** The second [for] loop: is every one of [threads] waiting? *)
Fixpoint allWaiting (rt : runtime) (ts : list thread_ref) : bool :=
  match ts with
  | [] => true
  | t :: ts' => if negb (isWaitingThread rt t) then false else allWaiting rt ts'
  end.

(** One call of [next()].  The generator has one [yield], at the end of the
    body of [while (true)], and keeps nothing but [threads] across it, so
    the first call and every later one run the body of the loop from its
    top.  [thread] is the current thread. *)
Definition resume (thread : thread_ref) (ts : list thread_ref) (rt : runtime)
  : runtime * outcome unit :=
  if negb (anyRunning rt ts) then (rt, Returned tt)
  else
    let rt := if allWaiting rt ts
              then set_status rt thread STATUS_YIELD_TICK
              else rt in
    (rt, Suspended).

(** The generator driven to its end: [worlds] are the states of the runtime
    that the successive calls of [next()] find.  The result is the number
    of calls that ended at the [yield], and whether the generator returned
    (on the call after those) or the calls ran out. *)
Fixpoint drive (thread : thread_ref) (ts : list thread_ref)
  (worlds : list runtime) : nat * bool :=
  match worlds with
  | [] => (O, false)
  | rt :: rest =>
      match snd (resume thread ts rt) with
      | Returned _ => (O, true)
      | Suspended =>
          let '(n, done) := drive thread ts rest in (S n, done)
      end
  end.

End Generator.

End WaitThreads.

(** *** [waitPromise], lines 88-109 *)

Module WaitPromise.

Import Val Thread.
Local Open Scope string_scope.

(** How a promise ends. *)
Inductive settlement : Type :=
| Fulfilled (v : value)
| Rejected (error : value).

(** What the generator and the two promise handlers share: the captured
    thread's [status], the variable [returnValue] that the handlers close
    over, and the log. *)
Record state : Type := mkState {
  status_ : status;
  returnValue : value;
  warnings : list (string * value)
}.

(** [value => { returnValue = value; _thread.status = STATUS_RUNNING; }] *)
Definition on_fulfilled (v : value) (st : state) : state :=
  mkState STATUS_RUNNING v (warnings st).

(** [error => { _thread.status = STATUS_RUNNING; log.warn(..., error); }] *)
Definition on_rejected (error : value) (st : state) : state :=
  mkState STATUS_RUNNING (returnValue st)
          (warnings st ++ [("Promise rejected in compiled script:", error)]).

(** [p.then(f)]: [f] runs when [p] is fulfilled, and the new promise is
    fulfilled with what [f] returns; a rejection passes through. *)
Definition then_ (p : settlement) (f : value -> state -> state) (st : state)
  : state * settlement :=
  match p with
  | Fulfilled v => (f v st, Fulfilled VUndefined)
  | Rejected e => (st, Rejected e)
  end.

(** [p.catch(g)]: [g] runs when [p] is rejected, and the new promise is
    fulfilled with what [g] returns; a fulfilment passes through. *)
Definition catch_ (p : settlement) (g : value -> state -> state) (st : state)
  : state * settlement :=
  match p with
  | Fulfilled v => (st, Fulfilled v)
  | Rejected e => (g e st, Fulfilled VUndefined)
  end.

(** The first call of [next()]: [returnValue] is [undefined], the handlers
    are attached, the status becomes [STATUS_PROMISE_WAIT], and the
    generator yields. *)
Definition start (st : state) : state * outcome value :=
  (mkState STATUS_PROMISE_WAIT VUndefined (warnings st), Suspended).

(** The promise settles: the handlers of [promise.then(...).catch(...)]
    run.  The second component is how the promise at the end of the chain
    settles. *)
Definition settle (p : settlement) (st : state) : state * settlement :=
  let '(st, p') := then_ p on_fulfilled st in
  catch_ p' on_rejected st.

(** The call of [next()] after the [yield]: [return returnValue]. *)
Definition resume (st : state) : state * outcome value :=
  (st, Returned (returnValue st)).

End WaitPromise.

(** *** [isStuck] and [executeInCompatibilityLayer], lines 26-34 and 117-166 *)

Module Compat.

Import Val Thread.
Local Open Scope Z_scope.

(** What a primitive returns: a value, or a promise. *)
Inductive result : Type :=
| Value (v : value)
| Promise (p : nat).

Section Bridge.

(** The world outside the generator: whatever the primitive, the stack
    frame and the sequencer's timer read and write. *)
Variable World : Type.

(** [thread.stackFrames[...].reuse(warpMode)], a method of the stack frame,
    which is not among the sources. *)
Variable reuse : bool -> World -> World.

(** [sequencer.timer.timeElapsed()], in milliseconds. *)
Variable timeElapsed : World -> Num.number.

(** The current thread as far as the bridge reads and writes it: its
    [status], with the variable and the log that a [waitPromise] in flight
    shares with its handlers; its [warp] depth; the counter of [isStuck];
    and the world. *)
Record env : Type := mkEnv {
  shared : WaitPromise.state;
  warp : Z;
  stuckCounter : Z;
  world : World
}.

Definition status_ (e : env) : status := WaitPromise.status_ (shared e).

(** [blockFunction(inputs, compatibilityLayerBlockUtility)]: the primitive
    reads and writes the thread and the world, and asks for a suspension by
    setting the thread's status before it returns. *)
Variable blockFunction : env -> result * env.

Definition set_status (e : env) (s : status) : env :=
  mkEnv (WaitPromise.mkState s (WaitPromise.returnValue (shared e))
                             (WaitPromise.warnings (shared e)))
        (warp e) (stuckCounter e) (world e).

(** A piece of [waitPromise] run on the state it shares with the bridge. *)
Definition on_shared {A : Type}
  (f : WaitPromise.state -> WaitPromise.state * A) (e : env) : env * A :=
  let '(sh, a) := f (shared e) in
  (mkEnv sh (warp e) (stuckCounter e) (world e), a).

(** [isStuck], lines 26-34. *)
Definition isStuck (e : env) : bool * env :=
  let c := stuckCounter e + 1 in
  if c =? 10
  then (Num.gtb (timeElapsed (world e)) (Num.of_Z 500),
        mkEnv (shared e) (warp e) 0 (world e))
  else (false, mkEnv (shared e) (warp e) c (world e)).

(** The control points of [executeInCompatibilityLayer]. *)
Inductive point : Type :=
| Entry                      (* line 118: the generator has not run yet *)
| LoopTest (returnValue : value)
                             (* line 143: the test of the [while] *)
| Reinvoke                   (* line 156: after the [if]/[else] of the body *)
| InWaitPromise              (* in [yield* waitPromise(...)], at its [yield] *)
| Finished.

(** What the piece of the generator between two control points ends
    with. *)
Inductive event : Type :=
| Continue                   (* it runs on *)
| Suspend                    (* [yield] *)
| Return (v : value)         (* [return v] *)
| Halt.                      (* the generator had returned before *)

Definition event_of (o : outcome value) : event :=
  match o with
  | Suspended => Suspend
  | Returned v => Return v
  end.

(** [executeBlock()] and the test of its result, lines 137-141 and
    156-160: a promise goes to [yield* waitPromise(returnValue)]. *)
Definition executeBlock (e : env) : point * env * event :=
  match blockFunction e with
  | (Promise _, e') =>
      let '(e'', o) := on_shared WaitPromise.start e' in
      (InWaitPromise, e'', event_of o)
  | (Value v, e') => (LoopTest v, e', Continue)
  end.

(** From one control point to the next. *)
Definition step (pt : point) (e : env) : point * env * event :=
  match pt with
  | Entry =>
      let e := mkEnv (shared e) (warp e) (stuckCounter e)
                     (reuse (warp e >? 0) (world e)) in
      executeBlock e
  | LoopTest returnValue =>
      match status_ e with
      | STATUS_YIELD =>
          let e := set_status e STATUS_RUNNING in
          if warp e =? 0 then (Reinvoke, e, Suspend)
          else
            let '(stuck, e) := isStuck e in
            if stuck then (Reinvoke, e, Suspend)
            else (Reinvoke, e, Continue)
      | STATUS_YIELD_TICK => (Reinvoke, e, Suspend)
      | _ => (Finished, e, Return returnValue)
      end
  | Reinvoke => executeBlock e
  | InWaitPromise =>
      let '(e', o) := on_shared WaitPromise.resume e in
      (Finished, e', event_of o)
  | Finished => (Finished, e, Halt)
  end.

(** One call of [next()]: the steps up to the next [yield] or [return].
    Inside a warp region a primitive that keeps yielding keeps the loop
    running, so the steps are counted; [None] when [fuel] steps reach
    neither. *)
Fixpoint next (fuel : nat) (pt : point) (e : env)
  : option (point * env * outcome value) :=
  match fuel with
  | O => None
  | S fuel' =>
      match step pt e with
      | (pt', e', Continue) => next fuel' pt' e'
      | (pt', e', Suspend) => Some (pt', e', Suspended)
      | (pt', e', Return v) => Some (pt', e', Returned v)
      | (pt', e', Halt) => Some (pt', e', Returned VUndefined)
      end
  end.

End Bridge.

End Compat.

(** ** The other value functions of [execute.js] *)

Module More.

Import Val Exec.
Local Open Scope string_scope.
Local Open Scope Z_scope.

(** [x - y]: the sum of [x] and the opposite of [y]. *)
Definition sub (x y : Num.number) : Num.number := Num.add x (Num.opp y).

(** [Math.floor(x)]: the largest integer not above [x]; zeros, infinities
    and [NaN] are returned as they are, and so is every double without a
    fractional part. *)
Definition floor (x : Num.number) : Num.number :=
  match x with
  | Num.Fin s m (Zneg k) =>
      let q := Zpos m / 2 ^ Zpos k in
      let r := Zpos m mod 2 ^ Zpos k in
      if s then Num.of_Z (- (if r =? 0 then q else q + 1))
      else Num.of_Z q
  | _ => x
  end.

(** [a < b] on strings: the order of the code units, a proper prefix
    coming first. *)
Fixpoint string_ltb (a b : string) : bool :=
  match a, b with
  | _, EmptyString => false
  | EmptyString, String _ _ => true
  | String x a', String y b' =>
      if Str.code x <? Str.code y then true
      else if Str.code y <? Str.code x then false
      else string_ltb a' b'
  end.

(** [toBoolean], lines 181-192. *)
Definition toBoolean (value : value) : bool :=
  match value with
  | VBool b => b
  | VString s =>
      if String.eqb s "" || String.eqb s "0"
         || String.eqb (Str.toLowerCase s) "false"
      then false else true
  | VNumber n => Num.truthy n
  | VUndefined | VNull => false
  end.

(** [compareGreaterThan], lines 232-246; [a > b] on strings and on numbers
    is [b < a]. *)
Definition compareGreaterThan (v1 v2 : value) : bool :=
  let n1 := toNumber v1 in
  let n2 := toNumber v2 in
  let '(n1, n2) :=
    if Num.eqb n1 (Num.Zero false) && isWhiteSpace v1 then (Num.NaN, n2)
    else if Num.eqb n2 (Num.Zero false) && isWhiteSpace v2 then (n1, Num.NaN)
    else (n1, n2) in
  if Num.is_nan n1 || Num.is_nan n2 then
    let s1 := Str.toLowerCase (toString v1) in
    let s2 := Str.toLowerCase (toString v2) in
    string_ltb s2 s1
  else Num.ltb n2 n1.

(** [compareLessThan], lines 254-268. *)
Definition compareLessThan (v1 v2 : value) : bool :=
  let n1 := toNumber v1 in
  let n2 := toNumber v2 in
  let '(n1, n2) :=
    if Num.eqb n1 (Num.Zero false) && isWhiteSpace v1 then (Num.NaN, n2)
    else if Num.eqb n2 (Num.Zero false) && isWhiteSpace v2 then (n1, Num.NaN)
    else (n1, n2) in
  if Num.is_nan n1 || Num.is_nan n2 then
    let s1 := Str.toLowerCase (toString v1) in
    let s2 := Str.toLowerCase (toString v2) in
    string_ltb s1 s2
  else Num.ltb n1 n2.

(** [randomInt], lines 276-278; [rnd] is what [Math.random()] returns. *)
Definition randomInt (low high rnd : Num.number) : Num.number :=
  Num.add low
    (floor (Num.mul rnd (sub (Num.add high (Num.of_Z 1)) low))).

(** [randomFloat], lines 286-288. *)
Definition randomFloat (low high rnd : Num.number) : Num.number :=
  Num.add (Num.mul rnd (sub high low)) low.

(** [a.join(sep)]: [undefined] and [null] items give the empty string,
    the others their string form. *)
Definition join_item (v : value) : string :=
  match v with
  | VUndefined | VNull => ""
  | _ => toString v
  end.

Fixpoint join (sep : string) (a : list value) : string :=
  match a with
  | [] => ""
  | [x] => join_item x
  | x :: rest => join_item x ++ sep ++ join sep rest
  end.

(** The [for] loop of [listContents]: the first item whose string form is
    not one code unit long decides for the separator. *)
Fixpoint contents_from (items all : list value) : string :=
  match items with
  | [] => join "" all
  | listItem :: rest =>
      if negb (Z.of_nat (String.length (toString listItem)) =? 1)
      then join " " all
      else contents_from rest all
  end.

(** [listContents], lines 490-500. *)
Definition listContents (list : variable) : string :=
  contents_from (value_ list) (value_ list).

(** The one-character strings of a string, as list items. *)
Fixpoint letters (s : string) : list value :=
  match s with
  | EmptyString => []
  | String c s' => VString (String c EmptyString) :: letters s'
  end.

End More.

(** ** Runs of the compatibility layer *)

Module Runs.

Import Val Thread Compat.
Local Open Scope Z_scope.

Section Bridge.

Variable World : Type.
Variable reuse : bool -> World -> World.
Variable timeElapsed : World -> Num.number.
Variable blockFunction : env World -> result * env World.

(** [n] calls of [isStuck] in a row: how many of them reported stuck, and
    the state after the last one. *)
Fixpoint isStuck_times (n : nat) (e : env World) : nat * env World :=
  match n with
  | O => (O, e)
  | S n' =>
      let '(stuck, e') := isStuck World timeElapsed e in
      let '(k, e'') := isStuck_times n' e' in
      ((if stuck then S k else k), e'')
  end.

(** A primitive inside a warp region that neither leaves the region, nor
    asks for a tick, nor returns a promise. *)
Definition stays_in_warp : Prop :=
  forall e : env World,
    warp World e <> 0 ->
    warp World (snd (blockFunction e)) <> 0
    /\ status_ World (snd (blockFunction e)) <> STATUS_YIELD_TICK
    /\ (exists v, fst (blockFunction e) = Value v).

(** A primitive that yields for ever.  The counter of [isStuck] is a
    variable of the module, out of the primitive's reach. *)
Definition always_yields : Prop :=
  forall e : env World,
    warp World (snd (blockFunction e)) = warp World e
    /\ stuckCounter World (snd (blockFunction e)) = stuckCounter World e
    /\ status_ World (snd (blockFunction e)) = STATUS_YIELD
    /\ (exists v, fst (blockFunction e) = Value v).

(** A primitive that comes to an end: [remaining] says how many more times
    it will ask to be invoked again, by setting the status to
    [STATUS_YIELD] or [STATUS_YIELD_TICK], before it leaves the status
    alone; it returns no promise and keeps the warp depth. *)
Definition finishes_after (remaining : World -> nat) : Prop :=
  (forall b w, remaining (reuse b w) = remaining w)
  /\ forall e : env World,
       warp World (snd (blockFunction e)) = warp World e
       /\ (exists v, fst (blockFunction e) = Value v)
       /\ match remaining (world World e) with
          | O => status_ World (snd (blockFunction e)) = status_ World e
          | S n => remaining (world World (snd (blockFunction e))) = n
                   /\ (status_ World (snd (blockFunction e)) = STATUS_YIELD
                       \/ status_ World (snd (blockFunction e))
                          = STATUS_YIELD_TICK)
          end.

(** Modelled from the spec: the caller of the stepper, which is not among
    the sources, sets a status [STATUS_YIELD] or [STATUS_YIELD_TICK] back
    to [STATUS_RUNNING] when it resumes the thread. *)
Definition on_resume (e : env World) : env World :=
  match status_ World e with
  | STATUS_YIELD | STATUS_YIELD_TICK => set_status World e STATUS_RUNNING
  | _ => e
  end.

(** What the caller of the generator does with one answer of [next()]:
    [again] is the rest of the run, taken after a [yield], on the thread
    as the caller resumes it. *)
Definition after_next
  (again : point -> env World -> nat * option value)
  (r : option (point * env World * outcome value)) : nat * option value :=
  match r with
  | None => (O, None)
  | Some (pt, e, Suspended) =>
      let '(n, v) := again pt (on_resume e) in (S n, v)
  | Some (_, _, Returned v) => (O, Some v)
  end.

(** The generator driven by up to [calls] calls of [next()], each with
    [fuel] steps, the thread being resumed as by [on_resume] after every
    [yield]: how many of the calls ended at a [yield], and the value
    returned, if the generator returned. *)
Fixpoint run (calls fuel : nat) (pt : point) (e : env World)
  : nat * option value :=
  match calls with
  | O => (O, None)
  | S calls' =>
      after_next (run calls' fuel)
                 (next World reuse timeElapsed blockFunction fuel pt e)
  end.

End Bridge.

End Runs.

(** ** Notions used in the proofs *)

Module NumSpec.

Import Num.

(** The double of sign [s] and integer magnitude [a], in the form the
    format gives it: 53 bits of mantissa.  Meant for [0 < a < 2^53]. *)
Definition canon (s : bool) (a : Z) : number :=
  Fin s (Z.to_pos (a * 2 ^ (52 - Z.log2 a))) (Z.log2 a - 52).

(** [2 ^ k <= p / q]. *)
Definition ge_pow2 (p q : positive) (k : Z) : Prop :=
  Zpos q * 2 ^ Z.max 0 k <= Zpos p * 2 ^ Z.max 0 (- k).

(** Doubles of every kind, to run the arithmetic of [Num] against the
    Standard Library's specification of IEEE-754 ([SpecFloat]) at binary64:
    zeros, an infinity, [NaN], small integers, 0.1, the double after 1,
    the largest double and a subnormal one. *)
Definition samples : list number := Eval vm_compute in
  [ Zero false; Zero true; Inf true; NaN;
    of_Z 1; of_Z (-3); Str.to_number "0.1";
    Fin false (2 ^ 52 + 1) (-52); Fin false (2 ^ 53 - 1) 971;
    Fin true 3 (-1074) ].

Definition spec_float_eqb (a b : spec_float) : bool :=
  match a, b with
  | S754_nan, S754_nan => true
  | S754_zero s, S754_zero t | S754_infinity s, S754_infinity t => Bool.eqb s t
  | S754_finite s m e, S754_finite t n f =>
      Bool.eqb s t && Pos.eqb m n && Z.eqb e f
  | _, _ => false
  end.

(** Do [f] and [g] agree on every pair of samples? *)
Definition agree (f : number -> number -> number)
  (g : spec_float -> spec_float -> spec_float) : bool :=
  forallb (fun x =>
    forallb (fun y =>
      spec_float_eqb (to_spec_float (f x y))
                     (g (to_spec_float x) (to_spec_float y)))
    samples) samples.

Definition comparison_eqb (a b : option comparison) : bool :=
  match a, b with
  | None, None | Some Eq, Some Eq | Some Lt, Some Lt | Some Gt, Some Gt => true
  | _, _ => false
  end.

Definition agree_compare : bool :=
  forallb (fun x =>
    forallb (fun y =>
      comparison_eqb (compare x y)
                     (SFcompare (to_spec_float x) (to_spec_float y)))
    samples) samples.

End NumSpec.

(* ===================================================================== *)
(** * Part II. Theorems                                                    *)
(* ===================================================================== *)

(** ** Rounding and exact arithmetic on doubles *)

Module NumFacts.

Import Num NumSpec Exec.
Local Open Scope Z_scope.

(** The arithmetic of [Num] computes what the Standard Library's
    specification of binary64 computes, on every pair of [samples]. *)
Example add_agrees_with_SpecFloat : agree add (SFadd 53 1024) = true.
Proof. vm_compute. reflexivity. Qed.

Example mul_agrees_with_SpecFloat : agree mul (SFmul 53 1024) = true.
Proof. vm_compute. reflexivity. Qed.

Example div_agrees_with_SpecFloat : agree div (SFdiv 53 1024) = true.
Proof. vm_compute. reflexivity. Qed.

Example compare_agrees_with_SpecFloat : agree_compare = true.
Proof. vm_compute. reflexivity. Qed.

(** The text of a number and the number of a text, on known cases. *)
Example number_to_text :
  map Str.of_number
      [ of_Z 10000000000; Str.to_number "0.1"; Fin false 1 (-1074);
        Str.to_number "1e21"; Str.to_number "123456789012345680000";
        Str.to_number "0.000001"; Str.to_number "1e-7";
        Str.to_number "-1.5e300"; add (Str.to_number "0.1") (Str.to_number "0.2");
        NaN; Inf true; Zero true ]
  = [ "10000000000"; "0.1"; "5e-324"; "1e+21"; "123456789012345680000";
      "0.000001"; "1e-7"; "-1.5e+300"; "0.30000000000000004";
      "NaN"; "-Infinity"; "0" ]%string.
Proof. vm_compute. reflexivity. Qed.

Example text_to_number :
  map Str.to_number
      [ "5"; " 5.0 "; ""; "   "; "abc"; "-0"; "0x1F"; ".5e1"; "1e";
        "Infinity"; "infinity"; "1e400"; "1e-400"; "1 2" ]%string
  = [ of_Z 5; of_Z 5; Zero false; Zero false; NaN; Zero true; of_Z 31;
      of_Z 5; NaN; Inf false; NaN; Inf false; Zero false; NaN ].
Proof. vm_compute. reflexivity. Qed.

(** The text of a number reads back as that number. *)
Example text_round_trip :
  forallb (fun x => is_nan x || Num.eqb (Str.to_number (Str.of_number x)) x)
          samples = true.
Proof. vm_compute. reflexivity. Qed.

Example remainder_and_int32 :
  rem (Str.to_number "5.5") (of_Z 2) = Str.to_number "1.5"
  /\ rem (of_Z (-7)) (of_Z 3) = of_Z (-1)
  /\ rem (of_Z (-6)) (of_Z 3) = Zero true
  /\ toInt32 (Str.to_number "1e21") = -559939584
  /\ toInt32 (Str.to_number "-1.9") = -1
  /\ toInt32 (of_Z 2147483648) = -2147483648.
Proof. repeat split; vm_compute; reflexivity. Qed.

Lemma pow2_pos (k : Z) : 0 <= k -> 0 < 2 ^ k.
Proof. intros. apply Z.pow_pos_nonneg; lia. Qed.

Lemma pow2_add (a b : Z) : 0 <= a -> 0 <= b -> 2 ^ (a + b) = 2 ^ a * 2 ^ b.
Proof. intros. apply Z.pow_add_r; lia. Qed.

Lemma pow2_le (a b : Z) : 0 <= a <= b -> 2 ^ a <= 2 ^ b.
Proof. intros. apply Z.pow_le_mono_r; lia. Qed.

Lemma pow2_lt (a b : Z) : 0 <= a < b -> 2 ^ a < 2 ^ b.
Proof. intros. apply Z.pow_lt_mono_r; lia. Qed.

Lemma log2_bounds (p : positive) :
  2 ^ Z.log2 (Zpos p) <= Zpos p < 2 ^ (Z.log2 (Zpos p) + 1).
Proof.
  pose proof (Z.log2_spec (Zpos p) ltac:(lia)) as H.
  replace (Z.succ (Z.log2 (Zpos p))) with (Z.log2 (Zpos p) + 1) in H by lia.
  exact H.
Qed.

Lemma log2_lt_53 (p : positive) : Zpos p < 2 ^ 53 -> Z.log2 (Zpos p) <= 52.
Proof.
  intros H. destruct (Z.le_gt_cases (Z.log2 (Zpos p)) 52) as [L | L]; [exact L | ].
  pose proof (log2_bounds p) as [B _].
  pose proof (pow2_le 53 (Z.log2 (Zpos p)) ltac:(lia)). lia.
Qed.

(** Exact division rounds to itself. *)
Lemma nearest_even_exact (p q : positive) (e M : Z) :
  Zpos p * 2 ^ Z.max 0 (- e) = M * (Zpos q * 2 ^ Z.max 0 e) ->
  nearest_even p q e = M.
Proof.
  intros H. unfold nearest_even.
  pose proof (pow2_pos (Z.max 0 e) ltac:(lia)) as D.
  assert (0 < Zpos q * 2 ^ Z.max 0 e) as Dpos by lia.
  rewrite H. set (d := Zpos q * 2 ^ Z.max 0 e) in *.
  rewrite Z.mod_mul, Z.div_mul by lia.
  cbn [Z.mul]. now destruct d.
Qed.

Lemma round_ratio_exact (s : bool) (p q : positive) (M : Z) :
  Zpos p * 2 ^ Z.max 0 (- grid_exponent p q)
  = M * (Zpos q * 2 ^ Z.max 0 (grid_exponent p q)) ->
  0 < M < 2 ^ 53 -> grid_exponent p q <= 971 ->
  round_ratio s p q = Fin s (Z.to_pos M) (grid_exponent p q).
Proof.
  intros H HM He. unfold round_ratio.
  rewrite (nearest_even_exact _ _ _ _ H).
  replace (M =? 2 ^ 53) with false by (symmetry; apply Z.eqb_neq; lia).
  replace (971 <? grid_exponent p q) with false by (symmetry; apply Z.ltb_ge; lia).
  destruct M; try lia. reflexivity.
Qed.

(** The binary logarithm of a dyadic number. *)
Lemma floor_log2_ratio_pow2_den (m k : positive) :
  floor_log2_ratio m (2 ^ k) = Z.log2 (Zpos m) - Zpos k.
Proof.
  unfold floor_log2_ratio.
  rewrite Pos2Z.inj_pow, Z.log2_pow2 by lia.
  set (l := Z.log2 (Zpos m) - Zpos k).
  pose proof (log2_bounds m) as [B _].
  replace (_ <? _) with false; [reflexivity | ].
  symmetry. apply Z.ltb_ge.
  pose proof (Z.log2_nonneg (Zpos m)) as L0.
  destruct (Z.le_gt_cases 0 l).
  - rewrite (Z.max_l 0 (- l)), (Z.max_r 0 l) by lia.
    rewrite <- pow2_add by lia. replace (Zpos k + l) with (Z.log2 (Zpos m)) by lia.
    rewrite Z.pow_0_r. lia.
  - rewrite (Z.max_r 0 (- l)), (Z.max_l 0 l) by lia.
    assert (2 ^ Zpos k = 2 ^ Z.log2 (Zpos m) * 2 ^ (- l)) as ->
        by (rewrite <- pow2_add by lia; f_equal; lia).
    pose proof (pow2_pos (- l) ltac:(lia)). rewrite Z.pow_0_r. nia.
Qed.

Lemma floor_log2_ratio_one (m : positive) :
  floor_log2_ratio m 1 = Z.log2 (Zpos m).
Proof.
  unfold floor_log2_ratio. change (Z.log2 1) with 0. rewrite Z.sub_0_r.
  pose proof (log2_bounds m) as [B _].
  pose proof (Z.log2_nonneg (Zpos m)).
  rewrite (Z.max_l 0 (- _)), (Z.max_r 0 _) by lia.
  replace (_ <? _) with false; [reflexivity | ].
  symmetry. apply Z.ltb_ge. rewrite Z.pow_0_r. lia.
Qed.

Lemma log2_mul_pow2 (m k : positive) :
  Z.log2 (Zpos (m * 2 ^ k)) = Z.log2 (Zpos m) + Zpos k.
Proof.
  rewrite Pos2Z.inj_mul, Pos2Z.inj_pow.
  rewrite Z.log2_mul_pow2 by lia. lia.
Qed.

(** A dyadic number that fits the format rounds to itself. *)
Lemma round_dyadic_exact (s : bool) (m : positive) (e e' : Z) :
  Zpos m < 2 ^ 53 -> -1074 <= e -> Z.log2 (Zpos m) + e <= 1023 ->
  e' = Z.max (Z.log2 (Zpos m) + e - 52) (-1074) ->
  round_dyadic s m e = Fin s (Z.to_pos (Zpos m * 2 ^ (e - e'))) e'.
Proof.
  intros Hm He Ho E.
  pose proof (log2_lt_53 m Hm) as L.
  pose proof (Z.log2_nonneg (Zpos m)) as L0.
  pose proof (log2_bounds m) as [_ Bm].
  assert (e' <= e) as Le by lia.
  assert (0 < Zpos m * 2 ^ (e - e') < 2 ^ 53) as HM.
  { pose proof (pow2_pos (e - e') ltac:(lia)). split; [lia | ].
    apply Z.lt_le_trans with (2 ^ (Z.log2 (Zpos m) + 1) * 2 ^ (e - e')); [nia | ].
    rewrite <- pow2_add by lia. apply pow2_le. lia. }
  unfold round_dyadic. destruct e as [ | k | k].
  - assert (grid_exponent m 1 = e') as G
        by (unfold grid_exponent; rewrite floor_log2_ratio_one; lia).
    rewrite <- G. apply round_ratio_exact; rewrite ?G; try lia.
    rewrite (Z.max_r 0 (- e')), (Z.max_l 0 e') by lia.
    rewrite Z.pow_0_r. replace (0 - e') with (- e') by lia. lia.
  - assert (grid_exponent (m * 2 ^ k) 1 = e') as G
        by (unfold grid_exponent; rewrite floor_log2_ratio_one, log2_mul_pow2; lia).
    rewrite <- G. apply round_ratio_exact; rewrite ?G; try lia.
    rewrite Pos2Z.inj_mul, Pos2Z.inj_pow.
    destruct (Z.le_gt_cases e' 0).
    + rewrite (Z.max_r 0 (- e')), (Z.max_l 0 e') by lia.
      rewrite Z.pow_0_r, <- Z.mul_assoc, <- pow2_add by lia.
      replace (Zpos k + - e') with (Zpos k - e') by lia. lia.
    + rewrite (Z.max_l 0 (- e')), (Z.max_r 0 e') by lia.
      rewrite Z.pow_0_r.
      replace (Zpos k) with ((Zpos k - e') + e') at 1 by lia.
      rewrite pow2_add by lia. lia.
  - assert (grid_exponent m (2 ^ k) = e') as G
        by (unfold grid_exponent; rewrite floor_log2_ratio_pow2_den; lia).
    rewrite <- G. apply round_ratio_exact; rewrite ?G; try lia.
    rewrite Pos2Z.inj_pow.
    rewrite (Z.max_r 0 (- e')), (Z.max_l 0 e') by lia.
    rewrite Z.pow_0_r.
    replace (- e') with ((Zneg k - e') + Zpos k) by lia.
    rewrite pow2_add by lia. lia.
Qed.

(** *** Doubles that hold integers *)

Lemma log2_lt_53' (a : Z) : 0 < a < 2 ^ 53 -> 0 <= Z.log2 a <= 52.
Proof.
  intros H. destruct a as [ | p | p]; try lia.
  split; [apply Z.log2_nonneg | apply log2_lt_53; lia].
Qed.

Lemma canon_mantissa (a : Z) :
  0 < a < 2 ^ 53 ->
  Zpos (Z.to_pos (a * 2 ^ (52 - Z.log2 a))) = a * 2 ^ (52 - Z.log2 a)
  /\ 2 ^ 52 <= a * 2 ^ (52 - Z.log2 a) < 2 ^ 53.
Proof.
  intros Ha. pose proof (log2_lt_53' a Ha) as La.
  pose proof (Z.log2_spec a ltac:(lia)) as [B1 B2].
  pose proof (pow2_pos (52 - Z.log2 a) ltac:(lia)) as P.
  assert (2 ^ 52 = 2 ^ Z.log2 a * 2 ^ (52 - Z.log2 a)) as E1
      by (rewrite <- pow2_add by lia; f_equal; lia).
  assert (2 ^ 53 = 2 ^ Z.succ (Z.log2 a) * 2 ^ (52 - Z.log2 a)) as E2
      by (rewrite <- pow2_add by lia; f_equal; lia).
  split; [rewrite Z2Pos.id; nia | rewrite E1, E2; nia].
Qed.

Lemma round_dyadic_canon (s : bool) (m : positive) (e : Z) (a : Z) :
  0 < a < 2 ^ 53 -> e <= 0 -> Zpos m = a * 2 ^ (- e) ->
  round_dyadic s m e = canon s a.
Proof.
  intros Ha He Hm.
  pose proof (log2_lt_53' a Ha) as La.
  destruct (canon_mantissa a Ha) as [_ CM].
  assert (Z.log2 (Zpos m) = Z.log2 a - e) as Lm
      by (rewrite Hm, Z.log2_mul_pow2 by lia; lia).
  unfold round_dyadic, canon. destruct e as [ | k | k]; try lia.
  - assert (grid_exponent m 1 = Z.log2 a - 52) as G
        by (unfold grid_exponent; rewrite floor_log2_ratio_one; lia).
    rewrite <- G. apply round_ratio_exact; rewrite ?G; try lia.
    rewrite (Z.max_r 0 (- _)), (Z.max_l 0 (Z.log2 a - 52)) by lia.
    rewrite Hm, !Z.pow_0_r.
    replace (- (Z.log2 a - 52)) with (52 - Z.log2 a) by lia. lia.
  - assert (grid_exponent m (2 ^ k) = Z.log2 a - 52) as G
        by (unfold grid_exponent; rewrite floor_log2_ratio_pow2_den; lia).
    rewrite <- G. apply round_ratio_exact; rewrite ?G; try lia.
    rewrite (Z.max_r 0 (- _)), (Z.max_l 0 (Z.log2 a - 52)) by lia.
    rewrite Hm, Pos2Z.inj_pow, Z.pow_0_r.
    replace (- (Z.log2 a - 52)) with (52 - Z.log2 a) by lia.
    change (- Zneg k) with (Zpos k). lia.
Qed.

Lemma of_Z_canon (z : Z) :
  z <> 0 -> Z.abs z < 2 ^ 53 -> of_Z z = canon (z <? 0) (Z.abs z).
Proof.
  intros Hz Hb. destruct z as [ | p | p]; try congruence; cbn [of_Z Z.ltb Z.compare Z.abs].
  - change (round_ratio false p 1) with (round_dyadic false p 0).
    apply round_dyadic_canon; [lia | lia | rewrite Z.pow_0_r; lia].
  - change (round_ratio true p 1) with (round_dyadic true p 0).
    apply round_dyadic_canon; [lia | lia | rewrite Z.pow_0_r; lia].
Qed.

(** Truncation gives the integer back. *)
Lemma truncate_canon (s : bool) (a : Z) :
  0 < a < 2 ^ 53 -> truncate (canon s a) = if s then - a else a.
Proof.
  intros Ha. pose proof (log2_lt_53' a Ha) as La.
  destruct (canon_mantissa a Ha) as [E _].
  unfold canon, truncate. rewrite E.
  assert ((match Z.log2 a - 52 with
           | Zneg k => a * 2 ^ (52 - Z.log2 a) / 2 ^ Zpos k
           | _ => a * 2 ^ (52 - Z.log2 a) * 2 ^ (Z.log2 a - 52)
           end) = a) as ->; [ | reflexivity].
  destruct (Z.log2 a - 52) as [ | k | k] eqn:K; try lia.
  - replace (52 - Z.log2 a) with 0 by lia. rewrite Z.pow_0_r. lia.
  - replace (52 - Z.log2 a) with (Zpos k) by lia.
    apply Z.div_mul. pose proof (pow2_pos (Zpos k)). lia.
Qed.

Lemma truncate_of_Z (z : Z) : Z.abs z < 2 ^ 53 -> truncate (of_Z z) = z.
Proof.
  intros H. destruct (Z.eq_dec z 0) as [-> | N]; [reflexivity | ].
  rewrite of_Z_canon, truncate_canon by lia.
  destruct (z <? 0) eqn:E; [apply Z.ltb_lt in E | apply Z.ltb_ge in E]; lia.
Qed.

Lemma wrap32_small (z : Z) : - 2 ^ 31 <= z < 2 ^ 31 -> wrap32 z = z.
Proof.
  intros H. unfold wrap32.
  destruct (Z.le_gt_cases 0 z).
  - rewrite Z.mod_small by lia.
    replace (2 ^ 31 <=? z) with false by (symmetry; apply Z.leb_gt; lia).
    reflexivity.
  - replace (z mod 2 ^ 32) with (z + 2 ^ 32).
    + replace (2 ^ 31 <=? z + 2 ^ 32) with true by (symmetry; apply Z.leb_le; lia).
      lia.
    + apply Z.mod_unique with (q := -1); lia.
Qed.

Lemma wrap32_range (z : Z) : - 2 ^ 31 <= wrap32 z < 2 ^ 31.
Proof.
  unfold wrap32. pose proof (Z.mod_pos_bound z (2 ^ 32) ltac:(lia)).
  destruct (2 ^ 31 <=? z mod 2 ^ 32) eqn:E;
    [apply Z.leb_le in E | apply Z.leb_gt in E]; lia.
Qed.

Lemma toInt32_of_Z (z : Z) : - 2 ^ 31 <= z < 2 ^ 31 -> toInt32 (of_Z z) = z.
Proof.
  intros H. unfold toInt32. rewrite truncate_of_Z by lia. now apply wrap32_small.
Qed.

(** *** Lower bounds on what is rounded *)

Lemma ge_pow2_mono (p q : positive) (k k' : Z) :
  k' <= k -> ge_pow2 p q k -> ge_pow2 p q k'.
Proof.
  unfold ge_pow2. intros L H.
  pose proof (pow2_le (Z.max 0 k') (Z.max 0 k) ltac:(lia)).
  pose proof (pow2_le (Z.max 0 (- k)) (Z.max 0 (- k')) ltac:(lia)).
  pose proof (pow2_pos (Z.max 0 k') ltac:(lia)).
  pose proof (pow2_pos (Z.max 0 (- k)) ltac:(lia)).
  nia.
Qed.

Lemma floor_log2_ratio_lower (p q : positive) :
  ge_pow2 p q (floor_log2_ratio p q).
Proof.
  unfold ge_pow2, floor_log2_ratio.
  set (l := Z.log2 (Zpos p) - Z.log2 (Zpos q)).
  destruct (_ <? _) eqn:C; [ | now apply Z.ltb_ge in C].
  pose proof (log2_bounds p) as [Bp _]. pose proof (log2_bounds q) as [_ Bq].
  pose proof (Z.log2_nonneg (Zpos p)). pose proof (Z.log2_nonneg (Zpos q)).
  destruct (Z.le_gt_cases 1 l).
  - rewrite (Z.max_r 0 (l - 1)), (Z.max_l 0 (- (l - 1))), Z.pow_0_r by lia.
    apply Z.le_trans with (2 ^ (Z.log2 (Zpos q) + 1) * 2 ^ (l - 1)).
    + pose proof (pow2_pos (l - 1) ltac:(lia)). nia.
    + rewrite <- pow2_add by lia.
      replace (Z.log2 (Zpos q) + 1 + (l - 1)) with (Z.log2 (Zpos p)) by lia. lia.
  - rewrite (Z.max_l 0 (l - 1)), (Z.max_r 0 (- (l - 1))), Z.pow_0_r by lia.
    apply Z.le_trans with (2 ^ Z.log2 (Zpos p) * 2 ^ (- (l - 1))).
    + rewrite <- pow2_add by lia.
      replace (Z.log2 (Zpos p) + - (l - 1)) with (Z.log2 (Zpos q) + 1) by lia. lia.
    + pose proof (pow2_pos (- (l - 1)) ltac:(lia)). nia.
Qed.

Lemma grid_exponent_lower (p q : positive) :
  ge_pow2 p q (-1074) -> ge_pow2 p q (grid_exponent p q).
Proof.
  intros H. unfold grid_exponent.
  destruct (Z.max_spec (floor_log2_ratio p q - 52) (-1074)) as [[_ ->] | [_ ->]].
  - exact H.
  - apply ge_pow2_mono with (floor_log2_ratio p q); [lia | ].
    apply floor_log2_ratio_lower.
Qed.

Lemma nearest_even_lower (p q : positive) (e : Z) :
  let num := Zpos p * 2 ^ Z.max 0 (- e) in
  let den := Zpos q * 2 ^ Z.max 0 e in
  num / den <= nearest_even p q e <= num / den + 1.
Proof.
  intros num den. unfold nearest_even. fold num den.
  destruct (2 * (num mod den) ?= den); [destruct (Z.even _) | | ]; lia.
Qed.

(** What is at least the smallest positive double does not round to
    zero, and no rounding changes the sign. *)
Lemma round_ratio_sign (s : bool) (p q : positive) :
  sign_bit (round_ratio s p q) = s /\ is_nan (round_ratio s p q) = false.
Proof.
  unfold round_ratio. destruct (971 <? _); [now split | ].
  now destruct (if _ =? _ then _ else _).
Qed.

Lemma round_ratio_nonzero (s : bool) (p q : positive) :
  ge_pow2 p q (-1074) -> is_zero (round_ratio s p q) = false.
Proof.
  intros H. apply grid_exponent_lower in H. unfold ge_pow2 in H.
  pose proof (nearest_even_lower p q (grid_exponent p q)) as [L _].
  cbv zeta in L.
  assert (1 <= nearest_even p q (grid_exponent p q)) as N.
  { eapply Z.le_trans; [ | exact L].
    apply Z.div_le_lower_bound; [ | lia].
    pose proof (pow2_pos (Z.max 0 (grid_exponent p q)) ltac:(lia)). lia. }
  unfold round_ratio. destruct (971 <? _); [reflexivity | ].
  destruct (_ =? _); [reflexivity | ].
  destruct (nearest_even p q (grid_exponent p q)); try lia. reflexivity.
Qed.

Lemma ltb_zero_sign (x : number) :
  is_nan x = false -> is_zero x = false ->
  ltb x (Zero false) = sign_bit x.
Proof. destruct x as [ | [ | ] | | [ | ] ]; cbn; intros; congruence. Qed.

(** *** Arithmetic on doubles that hold integers *)

Lemma canon_aligned (s : bool) (a e0 : Z) :
  0 < a < 2 ^ 53 -> e0 <= Z.log2 a - 52 ->
  aligned s (Z.to_pos (a * 2 ^ (52 - Z.log2 a))) (Z.log2 a - 52) e0
  = (if s then - a else a) * 2 ^ (- e0).
Proof.
  intros Ha He. pose proof (log2_lt_53' a Ha) as La.
  destruct (canon_mantissa a Ha) as [E _].
  unfold aligned. rewrite E, <- Z.mul_assoc, <- pow2_add by lia.
  replace (52 - Z.log2 a + (Z.log2 a - 52 - e0)) with (- e0) by lia.
  destruct s; lia.
Qed.

Lemma rem_canon (sa sb : bool) (a b : Z) :
  0 < a < 2 ^ 53 -> 0 < b < 2 ^ 53 ->
  rem (canon sa a) (canon sb b)
  = if a mod b =? 0 then Zero sa else canon sa (a mod b).
Proof.
  intros Ha Hb.
  pose proof (log2_lt_53' a Ha) as La. pose proof (log2_lt_53' b Hb) as Lb.
  unfold canon at 1 2. cbn [rem].
  set (e0 := Z.min (Z.log2 a - 52) (Z.log2 b - 52)).
  pose proof (canon_aligned false a e0 Ha ltac:(lia)) as Aa.
  pose proof (canon_aligned false b e0 Hb ltac:(lia)) as Ab.
  unfold aligned in Aa, Ab. rewrite Aa, Ab.
  pose proof (pow2_pos (- e0) ltac:(lia)) as P.
  rewrite Z.mul_mod_distr_r by lia.
  pose proof (Z.mod_pos_bound a b ltac:(lia)) as [M0 M1].
  destruct (a mod b =? 0) eqn:Z0.
  - apply Z.eqb_eq in Z0. rewrite Z0. reflexivity.
  - apply Z.eqb_neq in Z0.
    assert (a mod b <= a) as M2 by (apply Z.mod_le; lia).
    destruct (a mod b * 2 ^ (- e0)) as [ | r | r] eqn:R; try nia.
    apply round_dyadic_canon; try lia.
Qed.

(** The sign of a quotient of two such doubles is that of the exact
    quotient: the quotient is too large to round to zero. *)
Lemma div_canon_negative (sa sb : bool) (a b : Z) :
  0 < a < 2 ^ 53 -> 0 < b < 2 ^ 53 ->
  ltb (div (canon sa a) (canon sb b)) (Zero false) = xorb sa sb.
Proof.
  intros Ha Hb.
  pose proof (log2_lt_53' a Ha) as La. pose proof (log2_lt_53' b Hb) as Lb.
  destruct (canon_mantissa a Ha) as [Ea Ca].
  destruct (canon_mantissa b Hb) as [Eb Cb].
  unfold canon. cbn [div].
  set (ma := Z.to_pos (a * 2 ^ (52 - Z.log2 a))) in *.
  set (mb := Z.to_pos (b * 2 ^ (52 - Z.log2 b))) in *.
  assert (forall p q, ge_pow2 p q (-1074) ->
            ltb (round_ratio (xorb sa sb) p q) (Zero false) = xorb sa sb) as K.
  { intros p q G. destruct (round_ratio_sign (xorb sa sb) p q) as [S N].
    rewrite ltb_zero_sign; auto using round_ratio_nonzero. }
  assert (2 ^ 53 < 2 ^ 1074) as Big by (apply pow2_lt; lia).
  destruct (Z.log2 a - 52 - (Z.log2 b - 52)) as [ | k | k] eqn:D;
    apply K; unfold ge_pow2;
    rewrite (Z.max_l 0 (-1074)), (Z.max_r 0 (- -1074)), Z.pow_0_r by lia;
    change (- -1074) with 1074.
  - nia.
  - rewrite Pos2Z.inj_mul, Pos2Z.inj_pow.
    pose proof (pow2_pos (Zpos k) ltac:(lia)). nia.
  - rewrite Pos2Z.inj_mul, Pos2Z.inj_pow.
    assert (Zpos k <= 52) by lia.
    pose proof (pow2_le (Zpos k) 52 ltac:(lia)).
    pose proof (pow2_pos (Zpos k) ltac:(lia)).
    assert (2 ^ 52 * 2 ^ 53 * 2 ^ 53 <= 2 ^ 1074)
      by (rewrite <- !pow2_add by lia; apply pow2_le; lia).
    nia.
Qed.

Lemma add_canon (sa sb : bool) (a b : Z) :
  0 < a < 2 ^ 53 -> 0 < b < 2 ^ 53 ->
  let c := (if sa then - a else a) + (if sb then - b else b) in
  Z.abs c < 2 ^ 53 ->
  add (canon sa a) (canon sb b) = of_Z c.
Proof.
  intros Ha Hb c Hc.
  pose proof (log2_lt_53' a Ha) as La. pose proof (log2_lt_53' b Hb) as Lb.
  unfold canon. cbn [add].
  set (e0 := Z.min (Z.log2 a - 52) (Z.log2 b - 52)).
  rewrite (canon_aligned sa a e0 Ha), (canon_aligned sb b e0 Hb) by lia.
  rewrite <- Z.mul_add_distr_r. fold c.
  pose proof (pow2_pos (- e0) ltac:(lia)) as P.
  destruct (Z.eq_dec c 0) as [C0 | C0].
  - rewrite C0. reflexivity.
  - rewrite of_Z_canon by lia.
    destruct (c * 2 ^ (- e0)) as [ | r | r] eqn:R; try nia.
    + replace (c <? 0) with false by (symmetry; apply Z.ltb_ge; nia).
      apply round_dyadic_canon; try lia.
    + replace (c <? 0) with true by (symmetry; apply Z.ltb_lt; nia).
      apply round_dyadic_canon; try lia.
Qed.


Lemma eqb_refl (x : number) : is_nan x = false -> Num.eqb x x = true.
Proof.
  unfold Num.eqb.
  destruct x as [ | s | s | s m e]; cbn; try discriminate; intros _.
  - now rewrite Bool.eqb_reflx.
  - reflexivity.
  - now rewrite Z.compare_refl.
Qed.

(** On integers that a double holds exactly, [mod_] is the floored
    modulo. *)
Lemma mod_of_Z (n m : Z) :
  Z.abs n < 2 ^ 53 -> Z.abs m < 2 ^ 53 -> m <> 0 ->
  (n mod m <> 0 /\ mod_ (of_Z n) (of_Z m) = of_Z (n mod m)) \/
  (n mod m = 0 /\ mod_ (of_Z n) (of_Z m) = Zero (n <? 0)).
Proof.
  intros Hn Hm M0. unfold mod_.
  rewrite (of_Z_canon m) by lia.
  destruct (Z.eq_dec n 0) as [-> | N0].
  - right. split; [apply Z.mod_0_l; lia | reflexivity].
  - rewrite (of_Z_canon n) by lia.
    rewrite rem_canon by lia.
    set (rho := Z.abs n mod Z.abs m).
    pose proof (Z.mod_pos_bound (Z.abs n) (Z.abs m) ltac:(lia)) as B. fold rho in B.
    pose proof (Z.div_mod (Z.abs n) (Z.abs m) ltac:(lia)) as D. fold rho in D.
    set (k := Z.abs n / Z.abs m) in D.
    destruct (rho =? 0) eqn:R0.
    + apply Z.eqb_eq in R0. right. split; [ | reflexivity].
      symmetry. apply Z.mod_unique with (q := Z.sgn n * Z.sgn m * k); nia.
    + apply Z.eqb_neq in R0. left.
      rewrite div_canon_negative by lia.
      destruct (n <? 0) eqn:Sn, (m <? 0) eqn:Sm; cbn [xorb];
        try apply Z.ltb_lt in Sn; try apply Z.ltb_ge in Sn;
        try apply Z.ltb_lt in Sm; try apply Z.ltb_ge in Sm.
      * assert (n mod m = - rho) as E
            by (symmetry; apply Z.mod_unique with (q := k); nia).
        rewrite E. split; [lia | ].
        rewrite of_Z_canon by lia.
        replace (- rho <? 0) with true by (symmetry; apply Z.ltb_lt; lia).
        f_equal. lia.
      * assert (n mod m = m - rho) as E
            by (symmetry; apply Z.mod_unique with (q := - k - 1); nia).
        rewrite E. split; [lia | ].
        rewrite add_canon by lia. f_equal. lia.
      * assert (n mod m = rho + m) as E
            by (symmetry; apply Z.mod_unique with (q := - k - 1); nia).
        rewrite E. split; [lia | ].
        rewrite add_canon by lia. f_equal. lia.
      * assert (n mod m = rho) as E
            by (symmetry; apply Z.mod_unique with (q := k); nia).
        rewrite E. split; [lia | ].
        rewrite of_Z_canon by lia.
        replace (rho <? 0) with false by (symmetry; apply Z.ltb_ge; lia).
        f_equal. lia.
Qed.

(** *** A product below an integer *)

Lemma nearest_even_cases (p q : positive) (e : Z) :
  let num := Zpos p * 2 ^ Z.max 0 (- e) in
  let den := Zpos q * 2 ^ Z.max 0 e in
  nearest_even p q e = num / den \/
  (nearest_even p q e = num / den + 1 /\ den <= 2 * (num mod den)).
Proof.
  intros num den. unfold nearest_even. fold num den.
  destruct (2 * (num mod den) ?= den) eqn:C.
  - apply Z.compare_eq in C. destruct (Z.even _); [now left | right; lia].
  - now left.
  - apply Z.compare_gt_iff in C. right. lia.
Qed.

(** If [p / q <= b * (1 - 2^-53)] for an integer [b] up to [2^31], the
    double nearest to [p / q] is still below [b]. *)
Lemma round_ratio_below (p q : positive) (b : Z) :
  0 < b <= 2 ^ 31 ->
  Zpos p * 2 ^ 53 <= b * (2 ^ 53 - 1) * Zpos q ->
  0 <= truncate (round_ratio false p q) < b.
Proof.
  intros Hb H.
  assert (Zpos p < b * Zpos q) as Hlt by nia.
  pose proof (floor_log2_ratio_lower p q) as FL.
  set (fl := floor_log2_ratio p q) in *.
  assert (fl <= 30) as Hfl.
  { destruct (Z.le_gt_cases fl 30) as [ | G]; [assumption | exfalso].
    apply ge_pow2_mono with (k' := 31) in FL; [ | lia].
    unfold ge_pow2 in FL. cbn in FL. nia. }
  set (e := grid_exponent p q).
  assert (e = Z.max (fl - 52) (-1074)) as He by reflexivity.
  assert (e <= -22) as Hneg by lia.
  pose proof (pow2_pos (- e) ltac:(lia)) as P.
  assert (2 ^ 52 < b * 2 ^ (- e)) as Wide.
  { destruct (Z.max_spec (fl - 52) (-1074)) as [[_ E] | [_ E]]; rewrite E in He.
    - rewrite He. apply Z.lt_le_trans with (2 ^ 1074); [apply pow2_lt; lia | ].
      change (- -1074) with 1074. nia.
    - assert (- e = 52 - fl) as -> by lia.
      destruct (Z.le_gt_cases 0 fl) as [F | F].
      + unfold ge_pow2 in FL.
        rewrite (Z.max_r 0 fl), (Z.max_l 0 (- fl)), Z.pow_0_r in FL by lia.
        assert (2 ^ fl < b) by nia.
        assert (2 ^ 52 = 2 ^ fl * 2 ^ (52 - fl)) as ->
            by (rewrite <- pow2_add by lia; f_equal; lia).
        pose proof (pow2_pos (52 - fl) ltac:(lia)). nia.
      + apply Z.lt_le_trans with (2 ^ (52 - fl)); [apply pow2_lt; lia | ].
        pose proof (pow2_pos (52 - fl) ltac:(lia)). nia. }
  pose proof (nearest_even_cases p q e) as NE.
  pose proof (nearest_even_lower p q e) as [NL _].
  cbv zeta in NE, NL.
  rewrite (Z.max_r 0 (- e)), (Z.max_l 0 e), Z.pow_0_r, Z.mul_1_r in NE, NL by lia.
  set (num := Zpos p * 2 ^ (- e)) in *.
  set (m := nearest_even p q e) in *.
  pose proof (Z.div_mod num (Zpos q) ltac:(lia)) as DM.
  pose proof (Z.mod_pos_bound num (Zpos q) ltac:(lia)) as MB.
  assert (num / Zpos q < b * 2 ^ (- e)) as Q
      by (apply Z.div_lt_upper_bound; [lia | unfold num; nia]).
  assert (0 <= num / Zpos q) as Q0 by (apply Z.div_pos; unfold num; lia).
  assert (0 <= m < b * 2 ^ (- e)) as Hm.
  { split; [lia | ].
    destruct NE as [-> | [-> R]]; [exact Q | ].
    destruct (Z.eq_dec (num / Zpos q + 1) (b * 2 ^ (- e))) as [E | ]; [ | lia].
    exfalso.
    assert (Zpos q * (2 * (b * 2 ^ (- e)) - 1) <= 2 * num) as T by nia.
    assert (2 * num * 2 ^ 53 <= 2 * (b * 2 ^ (- e)) * (2 ^ 53 - 1) * Zpos q) as U
        by (unfold num; nia).
    nia. }
  unfold round_ratio. fold e m.
  destruct (m =? 2 ^ 53) eqn:Carry.
  - apply Z.eqb_eq in Carry.
    replace (971 <? e + 1) with false by (symmetry; apply Z.ltb_ge; lia).
    change (2 ^ 52) with (Zpos (2 ^ 52)). cbn [truncate].
    destruct (e + 1) as [ | k | k] eqn:E1; try lia.
    assert (2 ^ (- e) = 2 * 2 ^ Zpos k) as P2
        by (replace (- e) with (1 + Zpos k) by lia; rewrite pow2_add by lia;
            reflexivity).
    pose proof (pow2_pos (Zpos k) ltac:(lia)).
    split; [apply Z.div_pos; lia | ].
    apply Z.div_lt_upper_bound; [lia | ].
    change (Zpos (2 ^ 52)) with (2 ^ 52). nia.
  - replace (971 <? e) with false by (symmetry; apply Z.ltb_ge; lia).
    destruct m as [ | k | k] eqn:M; cbn [truncate]; try lia.
    destruct e as [ | j | j] eqn:E1; try lia.
    change (- Zneg j) with (Zpos j) in *.
    split; [apply Z.div_pos; lia | ].
    apply Z.div_lt_upper_bound; lia.
Qed.

(** [(Math.random() * length) | 0] is an offset into the list. *)
Lemma random_offset (rnd : number) (len : Z) :
  in_unit_interval rnd = true -> 0 < len < 2 ^ 31 ->
  0 <= toInt32 (mul rnd (of_Z len)) < len.
Proof.
  intros U Hl. unfold in_unit_interval in U.
  apply andb_true_iff in U as [U Lt1]. apply andb_true_iff in U as [W Pos].
  rewrite of_Z_canon by lia.
  replace (len <? 0) with false by (symmetry; apply Z.ltb_ge; lia).
  rewrite Z.abs_eq by lia.
  destruct rnd as [ | s | s | s m e]; try discriminate.
  - destruct s; discriminate.
  - cbn. lia.
  - destruct s; [discriminate | clear Pos].
    assert (0 < len < 2 ^ 53) as Hl' by (split; [lia | ];
      apply Z.lt_trans with (2 ^ 31); [lia | apply pow2_lt; lia]).
    pose proof (log2_lt_53' len Hl') as Ll.
    destruct (canon_mantissa len Hl') as [El Cl].
    cbn [wf] in W. apply andb_true_iff in W as [W _].
    apply andb_true_iff in W as [Wm We].
    apply Z.ltb_lt in Wm. apply Z.leb_le in We.
    (* rnd < 1 *)
    assert (e < 0 /\ Zpos m * 2 ^ 53 <= (2 ^ 53 - 1) * 2 ^ (- e)) as [Eneg Hr].
    { unfold ltb in Lt1. change (of_Z 1) with (Fin false (2 ^ 52) (-52)) in Lt1.
      cbn [compare] in Lt1. unfold aligned in Lt1.
      destruct (_ ?= _) eqn:C; try discriminate. clear Lt1.
      rewrite Z.compare_lt_iff in C. change (Zpos (2 ^ 52)) with (2 ^ 52) in C.
      destruct (Z.le_gt_cases (-52) e) as [G | G].
      - rewrite Z.min_r in C by lia.
        replace (-52 - -52) with 0 in C by lia. rewrite Z.pow_0_r in C.
        replace (e - -52) with (e + 52) in C by lia.
        assert (e < 0) as Eneg.
        { destruct (Z.le_gt_cases 0 e); [ | assumption].
          pose proof (pow2_le 52 (e + 52) ltac:(lia)). nia. }
        split; [assumption | ].
        assert (2 ^ 52 = 2 ^ (- e) * 2 ^ (e + 52)) as E52
            by (rewrite <- pow2_add by lia; f_equal; lia).
        pose proof (pow2_pos (e + 52) ltac:(lia)).
        pose proof (pow2_pos (- e) ltac:(lia)).
        assert (Zpos m < 2 ^ (- e)) by nia.
        pose proof (pow2_le (- e) 53 ltac:(lia)). nia.
      - split; [lia | ].
        pose proof (pow2_le 53 (- e) ltac:(lia)). nia. }
    unfold canon. cbn [mul xorb].
    set (ml := Z.to_pos (len * 2 ^ (52 - Z.log2 len))) in *.
    unfold round_dyadic.
    destruct (e + (Z.log2 len - 52)) as [ | k | k] eqn:K; try lia.
    unfold toInt32.
    assert (0 <= truncate (round_ratio false (m * ml) (2 ^ k)) < len) as T.
    { apply round_ratio_below; [lia | ].
      rewrite Pos2Z.inj_mul, Pos2Z.inj_pow, El.
      assert (2 ^ Zpos k = 2 ^ (- e) * 2 ^ (52 - Z.log2 len)) as ->
          by (rewrite <- pow2_add by lia; f_equal; lia).
      pose proof (pow2_pos (52 - Z.log2 len) ltac:(lia)).
      pose proof (pow2_pos (- e) ltac:(lia)). nia. }
    rewrite wrap32_small; lia.
Qed.

End NumFacts.

(** ** Comparison *)

Module CompareFacts.

Import Val Exec.
Local Open Scope string_scope.
Local Open Scope Z_scope.

Lemma eqb_not_nan (x y : Num.number) :
  Num.eqb x y = true -> Num.is_nan x = false /\ Num.is_nan y = false.
Proof. destruct x, y; cbn; intros H; try discriminate; auto. Qed.

(** *** [isWhiteSpace] against the blank operands of the specification *)

Lemma trim_start_empty (s : string) :
  Str.trim_start s = "" <-> whitespace_only s = true.
Proof.
  induction s as [ | c s IH]; cbn [Str.trim_start whitespace_only].
  - tauto.
  - destruct (Str.is_space c); cbn [andb]; [exact IH | ].
    split; discriminate.
Qed.

Lemma trim_start_head (s : string) :
  Str.trim_start s = ""
  \/ exists c t, Str.trim_start s = String c t /\ Str.is_space c = false.
Proof.
  induction s as [ | c s IH]; cbn [Str.trim_start]; [now left | ].
  destruct (Str.is_space c) eqn:E; [exact IH | right].
  now exists c, s.
Qed.

Lemma trim_end_head (c : ascii) (t : string) :
  Str.is_space c = false -> Str.trim_end (String c t) <> "".
Proof.
  intros E. cbn [Str.trim_end]. rewrite E.
  destruct (Str.trim_end t); discriminate.
Qed.

Lemma trim_empty (s : string) :
  (String.length (Str.trim s) =? 0)%nat = whitespace_only s.
Proof.
  unfold Str.trim.
  destruct (trim_start_head s) as [E | (c & t & E & Sp)].
  - rewrite E. symmetry. now apply trim_start_empty.
  - rewrite E. pose proof (trim_end_head c t Sp) as N.
    destruct (Str.trim_end (String c t)) as [ | c' t'] eqn:T;
      [contradiction | ].
    cbn [String.length Nat.eqb]. symmetry.
    apply Bool.not_true_iff_false. intros W.
    apply trim_start_empty in W. rewrite W in E. discriminate.
Qed.

Lemma whitespace_only_spec (s : string) :
  whitespace_only s = true
  <-> forall c, In c (list_ascii_of_string s) -> Str.is_space c = true.
Proof.
  induction s as [ | c s IH]; cbn [whitespace_only list_ascii_of_string].
  - split; [intros _ c [] | reflexivity].
  - rewrite andb_true_iff, IH. split.
    + intros [H1 H2] x [<- | I]; auto.
    + intros H. split; [apply H; now left | intros x I; apply H; now right].
Qed.

(** [isWhiteSpace] holds of the blank operands, and of no other. *)
Lemma isWhiteSpace_blank (v : value) : isWhiteSpace v = blank v.
Proof. destruct v; try reflexivity. apply trim_empty. Qed.

(** A number is no blank, so the zero test never turns it into [NaN]. *)
Lemma numeric_form_number (n : Num.number) : numeric_form (VNumber n) = n.
Proof. unfold numeric_form. cbn. now rewrite andb_false_r. Qed.

(** The code looks at the blankness of [v2] only when [v1] is not blank;
    that is enough, since a blank [v1] already forces the string branch. *)
Lemma compareEqual_unfold (a b : value) :
  compareEqual a b = compareEqual_spec a b.
Proof.
  unfold compareEqual, compareEqual_spec, numeric_form.
  rewrite <- !isWhiteSpace_blank.
  destruct (Num.eqb (toNumber a) (Num.Zero false) && isWhiteSpace a); cbn.
  - reflexivity.
  - destruct (Num.eqb (toNumber b) (Num.Zero false) && isWhiteSpace b); cbn.
    + now rewrite orb_true_r.
    + reflexivity.
Qed.

Lemma compareEqual_spec_refl (x : value) : compareEqual_spec x x = true.
Proof.
  unfold compareEqual_spec.
  destruct (Num.is_nan (numeric_form x)) eqn:E; cbn.
  - apply String.eqb_refl.
  - now apply NumFacts.eqb_refl.
Qed.

Lemma compareEqual_refl (x : value) : compareEqual x x = true.
Proof. rewrite compareEqual_unfold. apply compareEqual_spec_refl. Qed.

(** [a === b] implies [compareEqual(a, b)]. *)
Lemma strict_equal_compareEqual (a b : value) :
  strict_equal a b = true -> compareEqual a b = true.
Proof.
  destruct a as [ | | x | x | x], b as [ | | y | y | y];
    intros H; cbn in H; try discriminate H.
  - apply compareEqual_refl.
  - apply compareEqual_refl.
  - apply Bool.eqb_prop in H. subst. apply compareEqual_refl.
  - rewrite compareEqual_unfold. unfold compareEqual_spec.
    rewrite !numeric_form_number.
    destruct (eqb_not_nan _ _ H) as [-> ->]. exact H.
  - apply String.eqb_eq in H. subst. apply compareEqual_refl.
Qed.

(** C1. [compareEqual] coerces both operands to numbers, counts an operand
    that coerces to zero but is blank -- [null], or a string all of whose
    characters are white space -- as not-a-number, compares the lower-cased
    string forms when either side is then not-a-number and the numbers
    otherwise; so ["Foo"] equals ["foo"], a blank differs from 0, and
    ["5"] equals ["5.0"].  The operands that [isWhiteSpace] accepts are
    the blank ones and no other: ["0"] is none, and equals ["0.0"] as a
    number, while the empty string and [null] differ from 0. *)
Theorem compareEqual_coerces_then_compares :
  (forall a b : value, compareEqual a b = compareEqual_spec a b) /\
  (forall v : value,
      isWhiteSpace v = true
      <-> v = VNull
          \/ exists s, v = VString s
                       /\ forall c, In c (list_ascii_of_string s) ->
                                    Str.is_space c = true) /\
  compareEqual (VString "Foo") (VString "foo") = true /\
  compareEqual (VString " ") (VNumber (Num.of_Z 0)) = false /\
  compareEqual (VString "5") (VString "5.0") = true /\
  compareEqual (VString "0") (VString "0.0") = true /\
  compareEqual (VString "") (VNumber (Num.of_Z 0)) = false /\
  compareEqual VNull (VNumber (Num.of_Z 0)) = false.
Proof.
  split; [exact compareEqual_unfold | ].
  split; [ | repeat split; vm_compute; reflexivity].
  intros v. rewrite isWhiteSpace_blank.
  destruct v as [ | | b | n | s]; cbn [blank];
    try (split; [discriminate | intros [E | (s' & E & _)]; discriminate]).
  - split; [now left | reflexivity].
  - rewrite whitespace_only_spec. split.
    + intros H. right. now exists s.
    + intros [E | (s' & E & H)]; [discriminate | ].
      now injection E as ->.
Qed.

End CompareFacts.

(** ** List indices *)

Module IndexFacts.

Import Val Exec.
Local Open Scope string_scope.
Local Open Scope Z_scope.

Lemma numeric_in_bounds (i length : Z) :
  (if (i <? 1) || (i >? length) then -1 else i - 1) = in_bounds i length.
Proof.
  unfold in_bounds. rewrite Z.gtb_ltb.
  destruct (Z.ltb_spec i 1), (Z.leb_spec 1 i), (Z.ltb_spec length i),
    (Z.leb_spec i length); cbn; lia.
Qed.

Lemma in_bounds_range (i length : Z) :
  in_bounds i length = -1 \/ 0 <= in_bounds i length < length.
Proof.
  unfold in_bounds.
  destruct (Z.leb_spec 1 i), (Z.leb_spec i length); cbn; lia.
Qed.

(** An index that is none of the three names goes through the coercion
    and [index | 0]. *)
Lemma listIndex_numeric (index : value) (length : Z) (rnd : Num.number) :
  is_symbolic index = false ->
  listIndex index length rnd
  = in_bounds (Num.toInt32 (index_number index)) length.
Proof.
  unfold is_symbolic, listIndex, index_number. intros H.
  apply orb_false_iff in H as [H H3]. apply orb_false_iff in H as [H1 H2].
  rewrite H1, H2, H3. cbn [orb].
  destruct (is_number index); cbn [negb]; apply numeric_in_bounds.
Qed.

Lemma listIndex_last (length : Z) (rnd : Num.number) :
  listIndex (VString "last") length rnd
  = if length >? 0 then length - 1 else -1.
Proof. reflexivity. Qed.

Lemma listIndex_random (index : value) (length : Z) (rnd : Num.number) :
  index = VString "random" \/ index = VString "*" ->
  listIndex index length rnd
  = if length >? 0 then Num.toInt32 (Num.mul rnd (Num.of_Z length)) else -1.
Proof. intros [-> | ->]; reflexivity. Qed.

Lemma is_symbolic_cases (index : value) :
  is_symbolic index = true ->
  index = VString "last" \/ index = VString "random" \/ index = VString "*".
Proof.
  unfold is_symbolic. intros H.
  destruct index as [ | | b | n | s]; try discriminate. cbn in H.
  apply orb_true_iff in H as [H | H]; [apply orb_true_iff in H as [H | H] | ];
    apply String.eqb_eq in H; subst; auto.
Qed.

(** C2, the claim as it stands fails: an index past the int32 range is not
    "truncated and rejected", it wraps.  4294967297 is [2^32 + 1], outside
    [1 .. 5], and resolves to offset 0 of a list of five items. *)
Lemma listIndex_wraps_large_index :
  let index := VNumber (Num.of_Z 4294967297) in
  Num.truncate (index_number index) = 4294967297
  /\ listIndex index 5 (Num.Zero false) = 0.
Proof. split; vm_compute; reflexivity. Qed.

(** The random offset, too, wraps once the length is past the int32 range:
    with [Math.random()] returning 0.75 and [2^32 - 1] items the offset is
    negative. *)
Lemma listIndex_random_wraps_large_length :
  let rnd := Num.Fin false 3 (-2) in
  Num.in_unit_interval rnd = true
  /\ listIndex (VString "random") 4294967295 rnd = -1073741825.
Proof. split; vm_compute; reflexivity. Qed.

(** C2, amended.  [listIndex] returns -1 or an offset into the list, for
    every index and every length (below [2^31] if the index is ["random"]
    or ["*"]); ["last"] is the last offset, or -1 for the empty list;
    ["random"] and ["*"] are some offset into the list, for a length below
    [2^31], or -1 for the empty list; any other index is coerced to a
    number (what is not numeric becomes 0) and then to an int32, which
    truncates toward zero and wraps modulo [2^32], and the result is -1
    unless that int32 lies in [1 .. length]. *)
Theorem listIndex_resolves
  (index : value) (length : Z) (rnd : Num.number) :
  0 <= length -> Num.in_unit_interval rnd = true ->
  (length < 2 ^ 31 \/ ~ (index = VString "random" \/ index = VString "*") ->
   listIndex index length rnd = -1 \/ 0 <= listIndex index length rnd < length)
  /\ (index = VString "last" ->
      listIndex index length rnd = if length =? 0 then -1 else length - 1)
  /\ (index = VString "random" \/ index = VString "*" ->
      if length =? 0 then listIndex index length rnd = -1
      else length < 2 ^ 31 -> 0 <= listIndex index length rnd < length)
  /\ (is_symbolic index = false ->
      let i := Num.toInt32 (index_number index) in
      i = Num.wrap32 (Num.truncate (index_number index))
      /\ - 2 ^ 31 <= i < 2 ^ 31
      /\ (- 2 ^ 31 <= Num.truncate (index_number index) < 2 ^ 31 ->
          i = Num.truncate (index_number index))
      /\ listIndex index length rnd
         = if (1 <=? i) && (i <=? length) then i - 1 else -1)
  /\ listIndex (VString "last") 0 rnd = -1
  /\ listIndex (VString "last") 5 rnd = 4
  /\ listIndex (VNumber (Num.of_Z 0)) 5 rnd = -1
  /\ listIndex (VNumber (Num.of_Z 6)) 5 rnd = -1.
Proof.
  intros Hl Hr.
  assert (index = VString "random" \/ index = VString "*" ->
          if length =? 0 then listIndex index length rnd = -1
          else length < 2 ^ 31 -> 0 <= listIndex index length rnd < length)
    as Random.
  { intros H. rewrite (listIndex_random _ _ _ H).
    destruct (Z.eqb_spec length 0) as [-> | N]; [reflexivity | intros B].
    replace (length >? 0) with true by (symmetry; apply Z.gtb_lt; lia).
    apply NumFacts.random_offset; [assumption | lia]. }
  assert (index = VString "last" ->
          listIndex index length rnd = if length =? 0 then -1 else length - 1)
    as Last.
  { intros ->. rewrite listIndex_last.
    destruct (Z.eqb_spec length 0) as [-> | N]; [reflexivity | ].
    now replace (length >? 0) with true by (symmetry; apply Z.gtb_lt; lia). }
  split; [ | repeat split; try reflexivity; try assumption].
  - intros B. destruct (is_symbolic index) eqn:S.
    + apply is_symbolic_cases in S as [S | S].
      * rewrite (Last S). destruct (Z.eqb_spec length 0); lia.
      * specialize (Random S). destruct B as [B | B]; [ | contradiction].
        destruct (Z.eqb_spec length 0); [lia | right; auto].
    + rewrite listIndex_numeric by assumption. apply in_bounds_range.
  - apply NumFacts.wrap32_range.
  - apply NumFacts.wrap32_range.
  - intros R. now apply NumFacts.wrap32_small.
  - now apply listIndex_numeric.
Qed.

Lemma listIndex_resolves_witness :
  (listIndex (VString "2.7") 5 (Num.Fin false 3 (-2)) = -1
   \/ 0 <= listIndex (VString "2.7") 5 (Num.Fin false 3 (-2)) < 5)
  /\ listIndex (VString "2.7") 5 (Num.Fin false 3 (-2)) = 1
  /\ 0 <= listIndex (VString "random") 5 (Num.Fin false 3 (-2)) < 5.
Proof.
  destruct (listIndex_resolves (VString "2.7") 5 (Num.Fin false 3 (-2)))
    as (R & _ & _ & N & _); [lia | reflexivity | ].
  destruct (listIndex_resolves (VString "random") 5 (Num.Fin false 3 (-2)))
    as (_ & _ & D & _); [lia | reflexivity | ].
  split; [apply R; left; reflexivity | split].
  - destruct (N eq_refl) as (_ & _ & _ & E). rewrite E. reflexivity.
  - apply (D (or_introl eq_refl)). reflexivity.
Defined.

End IndexFacts.

(** ** List operations *)

Module ListFacts.

Import Val Exec.
Local Open Scope string_scope.
Local Open Scope Z_scope.

Lemma find_equal_from (a : list value) (item : value) :
  forall i j, find_equal a item i = Some j -> i <= j.
Proof.
  induction a as [ | x a IH]; cbn; intros i j H.
  - discriminate.
  - destruct (compareEqual x item).
    + injection H as <-. lia.
    + apply IH in H. lia.
Qed.

(** The fast path of [listContains]: an element that [indexOf] finds is one
    that the loop finds too. *)
Lemma indexOf_found_find_equal (a : list value) (item : value) :
  forall i k, indexOf_from a item i <> -1 -> find_equal a item k <> None.
Proof.
  induction a as [ | x a IH]; cbn; intros i k H.
  - congruence.
  - destruct (strict_equal x item) eqn:E.
    + rewrite (CompareFacts.strict_equal_compareEqual _ _ E). discriminate.
    + destruct (compareEqual x item); [discriminate | eauto].
Qed.


Lemma get_in_range (a : list value) (i : Z) :
  0 <= i < length a -> nth_error a (Z.to_nat i) = Some (get a i).
Proof.
  intros H. unfold get, length in *.
  replace ((0 <=? i) && (i <? Z.of_nat (List.length a))) with true
    by (symmetry; apply andb_true_iff; split; [apply Z.leb_le | apply Z.ltb_lt]; lia).
  apply nth_error_nth'. lia.
Qed.

(** C9. [listGet] returns the empty string when the index does not
    resolve, and otherwise the element at the resolved offset. *)
Theorem listGet_empty_string_or_element
  (list : list value) (idx : value) (rnd : Num.number) (i : Z) :
  listIndex idx (length list) rnd = i ->
  (i = -1 -> listGet list idx rnd = VString "") /\
  (i <> -1 -> listGet list idx rnd = get list i) /\
  (0 <= i < length list ->
   nth_error list (Z.to_nat i) = Some (listGet list idx rnd)).
Proof.
  intros E. unfold listGet. rewrite E. repeat split.
  - now intros ->.
  - intros H. apply Z.eqb_neq in H. now rewrite H.
  - intros H. replace (i =? -1) with false by (symmetry; apply Z.eqb_neq; lia).
    now apply get_in_range.
Qed.

Lemma listGet_empty_string_or_element_witness :
  listGet [VString "a"; VString "b"] (VNumber (Num.of_Z 7)) Num.NaN = VString ""
  /\ nth_error [VString "a"; VString "b"] 1
     = Some (listGet [VString "a"; VString "b"] (VString "last") Num.NaN).
Proof.
  split.
  - apply (listGet_empty_string_or_element
             [VString "a"; VString "b"] (VNumber (Num.of_Z 7)) Num.NaN (-1));
      reflexivity.
  - apply (listGet_empty_string_or_element
             [VString "a"; VString "b"] (VString "last") Num.NaN 1);
      [reflexivity | cbn; lia].
Defined.

(** With the bound [length + 1], the index [length + 1] resolves to the
    offset [length]: the item goes to the end. *)
Lemma listInsert_appends (list : variable) (v : value) (rnd : Num.number) :
  length (value_ list) + 1 < 2 ^ 31 ->
  listInsert list (VNumber (Num.of_Z (length (value_ list) + 1))) v rnd
  = mkVariable (value_ list ++ [v]) false (properties list).
Proof.
  intros H. unfold listInsert, listIndex. cbn [is_number typeof negb toNumber].
  assert (0 <= length (value_ list)) as L0 by (unfold length; lia).
  rewrite NumFacts.toInt32_of_Z by lia.
  replace (length (value_ list) + 1 <? 1) with false
    by (symmetry; apply Z.ltb_ge; lia).
  rewrite Z.gtb_ltb, Z.ltb_irrefl. cbn [orb].
  replace (length (value_ list) + 1 - 1) with (length (value_ list)) by lia.
  replace (length (value_ list) =? -1) with false
    by (symmetry; apply Z.eqb_neq; lia).
  unfold set_monitorUpToDate, set_value, splice_insert, splice_start; cbn.
  replace (length (value_ list) <? 0) with false
    by (symmetry; apply Z.ltb_ge; lia).
  rewrite Z.min_id. unfold length. rewrite Nat2Z.id, firstn_all, skipn_all.
  reflexivity.
Qed.




(** C8.  The code at the failing input: on a list whose monitor is up to
    date, [listDelete] with ['all'] empties the list and returns with
    [_monitorUpToDate] still [true], where the claim has every mutation,
    this one included, set it to [false] -- as the other path of
    [listDelete] does. *)
Lemma listDelete_all_keeps_flag :
  let list := mkVariable [VNumber (Num.of_Z 1)] true [] in
  value_ (listDelete list (VString "all") Num.NaN) = []
  /\ value_ (listDelete list (VString "all") Num.NaN) <> value_ list
  /\ _monitorUpToDate (listDelete list (VString "all") Num.NaN) = true
  /\ _monitorUpToDate (listDelete list (VString "last") Num.NaN) = false.
Proof. repeat split. discriminate. Qed.

(** What the code does about the flag: every call of [listReplace],
    [listInsert] or [listDelete] whose index resolves sets
    [_monitorUpToDate] to [false], and so does every call that changes the
    list object, ['all'] apart; [listDelete] with ['all'] installs an empty
    array and leaves the flag as it was; no operation touches any other
    property of the list object. *)
Lemma resolved_mutation_marks_stale
  (list : variable) (idx v : value) (rnd : Num.number) :
  (listIndex idx (length (value_ list)) rnd <> -1 ->
   _monitorUpToDate (listReplace list idx v rnd) = false) /\
  (listIndex idx (length (value_ list) + 1) rnd <> -1 ->
   _monitorUpToDate (listInsert list idx v rnd) = false) /\
  (strict_equal idx (VString "all") = false ->
   listIndex idx (length (value_ list)) rnd <> -1 ->
   _monitorUpToDate (listDelete list idx rnd) = false) /\
  (listDelete list (VString "all") rnd
   = mkVariable [] (_monitorUpToDate list) (properties list)) /\
  (listReplace list idx v rnd <> list ->
   _monitorUpToDate (listReplace list idx v rnd) = false) /\
  (listInsert list idx v rnd <> list ->
   _monitorUpToDate (listInsert list idx v rnd) = false) /\
  (strict_equal idx (VString "all") = false ->
   listDelete list idx rnd <> list ->
   _monitorUpToDate (listDelete list idx rnd) = false) /\
  properties (listReplace list idx v rnd) = properties list /\
  properties (listInsert list idx v rnd) = properties list /\
  properties (listDelete list idx rnd) = properties list.
Proof.
  unfold listReplace, listInsert, listDelete.
  repeat split.
  - intros H. apply Z.eqb_neq in H. now rewrite H.
  - intros H. apply Z.eqb_neq in H. now rewrite H.
  - intros -> H. apply Z.eqb_neq in H. now rewrite H.
  - destruct (_ =? -1); [congruence | reflexivity].
  - destruct (_ =? -1); [congruence | reflexivity].
  - intros ->. destruct (_ =? -1); [congruence | reflexivity].
  - now destruct (_ =? -1).
  - now destruct (_ =? -1).
  - destruct (strict_equal _ _); [reflexivity | now destruct (_ =? -1)].
Qed.

End ListFacts.

(** ** Modulo *)

Module ModFacts.

Import Num NumSpec NumFacts Exec.
Local Open Scope Z_scope.

Lemma round_dyadic_sign (s : bool) (m : positive) (e : Z) :
  sign_bit (round_dyadic s m e) = s /\ is_nan (round_dyadic s m e) = false.
Proof. unfold round_dyadic. destruct e; apply round_ratio_sign. Qed.

Lemma wf_Fin (s : bool) (m : positive) (e : Z) :
  wf (Fin s m e) = true -> Zpos m < 2 ^ 53 /\ -1074 <= e <= 971.
Proof.
  cbn. intros H. apply andb_true_iff in H as [H H3].
  apply andb_true_iff in H as [H1 H2].
  apply Z.ltb_lt in H1. apply Z.leb_le in H2. apply Z.leb_le in H3. lia.
Qed.

(** The remainder of two doubles is a double below the divisor, with the
    sign of the dividend. *)
Lemma rem_finite (sx sy : bool) (mx my : positive) (ex ey : Z) :
  wf (Fin sx mx ex) = true -> wf (Fin sy my ey) = true ->
  rem (Fin sx mx ex) (Fin sy my ey) = Zero sx \/
  exists (mr : positive) (er : Z),
    rem (Fin sx mx ex) (Fin sy my ey) = Fin sx mr er /\
    er <= ey /\ Zpos mr < Zpos my * 2 ^ (ey - er).
Proof.
  intros Wx Wy. apply wf_Fin in Wx as [Mx Ex]. apply wf_Fin in Wy as [My Ey].
  cbn [rem]. set (e0 := Z.min ex ey).
  set (n := Zpos mx * 2 ^ (ex - e0)). set (d := Zpos my * 2 ^ (ey - e0)).
  pose proof (pow2_pos (ex - e0) ltac:(lia)) as Px.
  pose proof (pow2_pos (ey - e0) ltac:(lia)) as Py.
  pose proof (Z.mod_pos_bound n d ltac:(lia)) as [R0 R1].
  assert (n mod d <= n) as R2 by (apply Z.mod_le; lia).
  destruct (n mod d) as [ | r | r] eqn:R; [now left | | lia]. right.
  assert (Zpos r < 2 ^ 53) as Rb.
  { destruct (Z.le_gt_cases ex ey).
    - unfold n in R2. replace (ex - e0) with 0 in R2 by lia.
      rewrite Z.pow_0_r in R2. lia.
    - unfold d in R1. replace (ey - e0) with 0 in R1 by lia.
      rewrite Z.pow_0_r in R1. lia. }
  pose proof (log2_lt_53 r Rb) as Lr. pose proof (Z.log2_nonneg (Zpos r)) as L0.
  set (er := Z.max (Z.log2 (Zpos r) + e0 - 52) (-1074)).
  rewrite (round_dyadic_exact sx r e0 er) by lia.
  exists (Z.to_pos (Zpos r * 2 ^ (e0 - er))), er.
  pose proof (pow2_pos (e0 - er) ltac:(lia)) as Pr.
  split; [reflexivity | split; [lia | ]].
  rewrite Z2Pos.id by lia.
  replace (ey - er) with ((ey - e0) + (e0 - er)) by lia.
  rewrite pow2_add by lia. unfold d in R1. nia.
Qed.

(** Adding a double to a larger one of the other sign gives the sign of
    the larger one. *)
Lemma add_opposite_sign (sx sy : bool) (mx my : positive) (ex ey : Z) :
  xorb sx sy = true -> ex <= ey -> Zpos mx < Zpos my * 2 ^ (ey - ex) ->
  sign_bit (add (Fin sx mx ex) (Fin sy my ey)) = sy.
Proof.
  intros X E L. cbn [add]. rewrite Z.min_l by lia. unfold aligned.
  rewrite Z.sub_diag, Z.pow_0_r, Z.mul_1_r.
  destruct sx, sy; try discriminate.
  - destruct (- Zpos mx + Zpos my * 2 ^ (ey - ex)) eqn:S; try lia.
    apply round_dyadic_sign.
  - destruct (Zpos mx + - (Zpos my * 2 ^ (ey - ex))) eqn:S; try lia.
    apply round_dyadic_sign.
Qed.

Lemma div_finite_sign (sx sy : bool) (mx my : positive) (ex ey : Z) :
  sign_bit (div (Fin sx mx ex) (Fin sy my ey)) = xorb sx sy
  /\ is_nan (div (Fin sx mx ex) (Fin sy my ey)) = false.
Proof. cbn [div]. destruct (ex - ey); apply round_ratio_sign. Qed.

Lemma ltb_zero_is_zero (x : number) :
  is_zero x = true -> ltb x (Zero false) = false.
Proof. destruct x; cbn; congruence. Qed.

(** The sign of [mod_] on finite doubles. *)
Lemma mod_sign (n m : number) :
  wf n = true -> wf m = true ->
  is_finite n = true -> is_finite m = true -> is_zero m = false ->
  (is_zero (mod_ n m) = true \/ sign_bit (mod_ n m) = sign_bit m)
  \/ (is_zero (rem n m) = false
      /\ is_zero (div (rem n m) m) = true
      /\ mod_ n m = rem n m).
Proof.
  intros Wn Wm Fn Fm Zm.
  destruct m as [ | sy | sy | sy my ey]; try discriminate.
  destruct n as [ | sx | sx | sx mx ex]; try discriminate.
  - left. left. reflexivity.
  - destruct (rem_finite sx sy mx my ex ey Wn Wm) as [R | (mr & er & R & E & L)];
      unfold mod_; rewrite R.
    + left. left. reflexivity.
    + destruct (div_finite_sign sx sy mr my er ey) as [S N].
      destruct (is_zero (div (Fin sx mr er) (Fin sy my ey))) eqn:Z.
      * right. rewrite (ltb_zero_is_zero _ Z). auto.
      * left. right. rewrite (ltb_zero_sign _ N Z), S.
        destruct (xorb sx sy) eqn:X.
        -- now apply add_opposite_sign.
        -- cbn. now destruct sx, sy.
Qed.

(** C5, the claim as it stands fails: with an infinite modulus the
    remainder is the dividend, the quotient is [-0], which is not below 0,
    and the result keeps the sign of the dividend. *)
Lemma mod_infinite_modulus_keeps_dividend :
  mod_ (of_Z (-1)) (Inf false) = of_Z (-1)
  /\ is_zero (mod_ (of_Z (-1)) (Inf false)) = false
  /\ sign_bit (mod_ (of_Z (-1)) (Inf false)) = true
  /\ sign_bit (Inf false) = false.
Proof. repeat split. Qed.

(** The same happens with finite operands when the quotient underflows:
    [-5e-324 % 1e10] is [-5e-324], and [-5e-324 / 1e10] rounds to [-0]. *)
Lemma mod_underflow_keeps_dividend :
  let n := Fin true 1 (-1074) in
  let m := of_Z 10000000000 in
  wf n = true /\ wf m = true /\ mod_ n m = n
  /\ sign_bit (mod_ n m) = true /\ sign_bit m = false.
Proof. repeat split. Qed.

(** C5, amended.  For finite [n] and finite non-zero [m], [mod(n, m)] is
    zero or has the sign of [m], unless [n % m] is not zero and
    [(n % m) / m] is so small that it rounds to zero, in which case the
    result is [n % m]; and for integers of magnitude below [2^53], which a
    double holds exactly, [mod(n, m)] is the floored modulo, so [mod(-1, 3)]
    is 2, [mod(1, -3)] is -2 and [mod(5, 5)] is 0. *)
Theorem mod_is_floored :
  (forall n m : number,
      wf n = true -> wf m = true ->
      is_finite n = true -> is_finite m = true -> is_zero m = false ->
      (is_zero (mod_ n m) = true \/ sign_bit (mod_ n m) = sign_bit m)
      \/ (is_zero (rem n m) = false
          /\ is_zero (div (rem n m) m) = true
          /\ mod_ n m = rem n m))
  /\ (forall n m : Z,
        Z.abs n < 2 ^ 53 -> Z.abs m < 2 ^ 53 -> m <> 0 ->
        Num.eqb (mod_ (of_Z n) (of_Z m)) (of_Z (n mod m)) = true
        /\ (is_zero (mod_ (of_Z n) (of_Z m)) = true
            \/ sign_bit (mod_ (of_Z n) (of_Z m)) = (m <? 0)))
  /\ mod_ (of_Z (-1)) (of_Z 3) = of_Z 2
  /\ mod_ (of_Z 1) (of_Z (-3)) = of_Z (-2)
  /\ mod_ (of_Z 5) (of_Z 5) = of_Z 0.
Proof.
  split; [exact mod_sign | split; [ | repeat split]].
  intros n m Hn Hm M0.
  destruct (mod_of_Z n m Hn Hm M0) as [[N E] | [N E]]; rewrite E.
  - assert (Z.abs (n mod m) < 2 ^ 53) as B.
    { destruct (Z.lt_ge_cases 0 m).
      - pose proof (Z.mod_pos_bound n m ltac:(lia)). lia.
      - pose proof (Z.mod_neg_bound n m ltac:(lia)). lia. }
    rewrite of_Z_canon by lia. split; [now apply eqb_refl | right].
    cbn [canon sign_bit].
    destruct (Z.lt_ge_cases 0 m).
    + pose proof (Z.mod_pos_bound n m ltac:(lia)).
      destruct (Z.ltb_spec (n mod m) 0), (Z.ltb_spec m 0); lia.
    + pose proof (Z.mod_neg_bound n m ltac:(lia)).
      destruct (Z.ltb_spec (n mod m) 0), (Z.ltb_spec m 0); lia.
  - rewrite N. split; [reflexivity | now left].
Qed.

Lemma mod_is_floored_witness :
  Num.eqb (mod_ (of_Z (-7)) (of_Z 3)) (of_Z 2) = true
  /\ ((is_zero (mod_ (of_Z 11) (Fin true 3 (-1))) = true
       \/ sign_bit (mod_ (of_Z 11) (Fin true 3 (-1))) = true)
      \/ (is_zero (rem (of_Z 11) (Fin true 3 (-1))) = false
          /\ is_zero (div (rem (of_Z 11) (Fin true 3 (-1)))
                          (Fin true 3 (-1))) = true
          /\ mod_ (of_Z 11) (Fin true 3 (-1))
             = rem (of_Z 11) (Fin true 3 (-1)))).
Proof.
  destruct mod_is_floored as (G & I & _).
  split.
  - apply (I (-7) 3); [reflexivity | reflexivity | discriminate].
  - apply (G (of_Z 11) (Fin true 3 (-1))); reflexivity.
Defined.

End ModFacts.

(** ** Suspension primitives *)

Module WaitThreadsFacts.

Import Thread WaitThreads.

Lemma is_active_In (active : list thread_ref) (t : thread_ref) :
  is_active active t = true <-> In t active.
Proof.
  induction active as [ | u rest IH]; cbn.
  - split; [discriminate | tauto].
  - destruct (Nat.eqb_spec u t) as [-> | N].
    + split; auto.
    + rewrite IH. split; [auto | intros [E | H]; [congruence | exact H]].
Qed.

Section Generator.

Variable isWaitingThread : runtime -> thread_ref -> bool.

Local Abbreviation allWaiting := (allWaiting isWaitingThread).
Local Abbreviation resume := (resume isWaitingThread).
Local Abbreviation drive := (drive isWaitingThread).

Lemma anyRunning_spec (rt : runtime) (ts : list thread_ref) :
  anyRunning rt ts = true <-> exists t, In t ts /\ In t (threads rt).
Proof.
  induction ts as [ | t ts IH]; cbn.
  - split; [discriminate | intros (t & [] & _)].
  - destruct (is_active (threads rt) t) eqn:A.
    + apply is_active_In in A. split; [eauto | reflexivity].
    + rewrite IH. split.
      * intros (u & I & H). eauto.
      * intros (u & [-> | I] & H); [ | eauto].
        apply is_active_In in H. congruence.
Qed.

Lemma anyRunning_none (rt : runtime) (ts : list thread_ref) :
  anyRunning rt ts = false <-> forall t, In t ts -> ~ In t (threads rt).
Proof.
  rewrite <- Bool.not_true_iff_false, anyRunning_spec.
  split; [intros H t I A; eauto | intros H (t & I & A); exact (H t I A)].
Qed.

Lemma allWaiting_spec (rt : runtime) (ts : list thread_ref) :
  allWaiting rt ts = true <-> forall t, In t ts -> isWaitingThread rt t = true.
Proof.
  induction ts as [ | t ts IH]; cbn.
  - split; [intros _ t [] | reflexivity].
  - destruct (isWaitingThread rt t) eqn:W; cbn.
    + rewrite IH. split.
      * intros H u [<- | I]; [exact W | now apply H].
      * intros H u I. apply H. now right.
    + split; [discriminate | intros H].
      rewrite <- W. apply H. now left.
Qed.

(** The whole run, when the scan finds an active thread on each of the
    first calls and none on the next one. *)
Lemma drive_returns (thread : thread_ref) (ts : list thread_ref)
  (before : list runtime) (rt : runtime) (after : list runtime) :
  Forall (fun w => anyRunning w ts = true) before ->
  anyRunning rt ts = false ->
  drive thread ts (before ++ rt :: after) = (List.length before, true).
Proof.
  intros B R. induction B as [ | w before W B IH]; cbn.
  - unfold WaitThreads.resume. rewrite R. reflexivity.
  - unfold WaitThreads.resume at 1. rewrite W. cbn. now rewrite IH.
Qed.

Lemma drive_waits (thread : thread_ref) (ts : list thread_ref)
  (worlds : list runtime) :
  Forall (fun w => anyRunning w ts = true) worlds ->
  drive thread ts worlds = (List.length worlds, false).
Proof.
  intros B. induction B as [ | w worlds W B IH]; cbn.
  - reflexivity.
  - unfold WaitThreads.resume at 1. rewrite W. cbn. now rewrite IH.
Qed.

(** What a yield of [waitThreads] leaves behind, read off the runtime. *)
Lemma resume_ticks (thread : thread_ref) (ts : list thread_ref) (rt : runtime) :
  anyRunning rt ts = true -> allWaiting rt ts = true ->
  snd (resume thread ts rt) = Suspended
  /\ status_of (fst (resume thread ts rt)) thread = STATUS_YIELD_TICK
  /\ threads (fst (resume thread ts rt)) = threads rt
  /\ (forall u, u <> thread ->
                status_of (fst (resume thread ts rt)) u = status_of rt u).
Proof.
  intros A W. unfold WaitThreads.resume. rewrite A, W.
  cbn [negb fst snd set_status status_of threads].
  rewrite Nat.eqb_refl. repeat split.
  intros u N. now destruct (Nat.eqb_spec u thread).
Qed.


End Generator.



End WaitThreadsFacts.

Module WaitPromiseFacts.

Import Val Thread WaitPromise.
Local Open Scope string_scope.

(** C6. After [waitPromise] has yielded, a rejection of the promise sets
    the thread's status back to [STATUS_RUNNING], logs one warning and
    leaves [returnValue] [undefined], which is what the next call of
    [next()] returns; the promise at the end of the chain is fulfilled, so
    nothing is thrown anywhere.  A fulfilment sets the status to
    [STATUS_RUNNING] too, logs nothing, and its value is returned. *)
Theorem waitPromise_resumes_running (st : state) (p : settlement) :
  let st1 := fst (start st) in
  let st2 := fst (settle p st1) in
  snd (start st) = Suspended
  /\ status_ st1 = STATUS_PROMISE_WAIT
  /\ status_ st2 = STATUS_RUNNING
  /\ fst (resume st2) = st2
  /\ match p with
     | Rejected error =>
         snd (resume st2) = Returned VUndefined
         /\ warnings st2
            = (warnings st
               ++ [("Promise rejected in compiled script:", error)])%list
         /\ snd (settle p st1) = Fulfilled VUndefined
     | Fulfilled v =>
         snd (resume st2) = Returned v
         /\ warnings st2 = warnings st
     end.
Proof. destruct p; cbn; repeat split. Qed.

End WaitPromiseFacts.

(** ** The compatibility layer *)

Module CompatFacts.

Import Val Thread Compat.
Local Open Scope Z_scope.

Section Bridge.

Variable World : Type.
Variable reuse : bool -> World -> World.
Variable timeElapsed : World -> Num.number.
Variable blockFunction : env World -> result * env World.

Local Abbreviation step := (step World reuse timeElapsed blockFunction).
Local Abbreviation next := (next World reuse timeElapsed blockFunction).
Local Abbreviation isStuck := (isStuck World timeElapsed).
Local Abbreviation env := (env World).

(** [isStuck] looks at the clock on every tenth call only, and reports
    stuck when more than 500 ms have elapsed. *)
Lemma isStuck_spec (e : env) :
  fst (isStuck e) = true
  <-> stuckCounter _ e + 1 = 10
      /\ Num.gtb (timeElapsed (world _ e)) (Num.of_Z 500) = true.
Proof.
  unfold Compat.isStuck.
  destruct (Z.eqb_spec (stuckCounter _ e + 1) 10) as [E | N]; cbn [fst].
  - tauto.
  - split; [discriminate | intros [E _]; contradiction].
Qed.

Lemma isStuck_keeps_thread (e : env) :
  status_ _ (snd (isStuck e)) = status_ _ e
  /\ warp _ (snd (isStuck e)) = warp _ e
  /\ world _ (snd (isStuck e)) = world _ e.
Proof. unfold Compat.isStuck. now destruct (_ =? 10). Qed.

(** C3. At the test of the loop: with status [STATUS_YIELD] the status
    becomes [STATUS_RUNNING] and the generator yields exactly when the
    warp depth is 0 or [isStuck] reports stuck, and otherwise goes on to
    invoke the primitive again; with [STATUS_YIELD_TICK] it yields,
    whatever the warp depth, and invokes the primitive when it is resumed;
    with any other status it returns.  Invoking the primitive leads back
    to the test, unless the result is a promise, which is handed to
    [waitPromise]. *)
Theorem bridge_loop_suspends (returnValue : value) (e : env) :
  (status_ _ e = STATUS_YIELD ->
   let '(pt, e', ev) := step (LoopTest returnValue) e in
   pt = Reinvoke
   /\ status_ _ e' = STATUS_RUNNING
   /\ warp _ e' = warp _ e
   /\ (ev = Suspend
       <-> warp _ e = 0
           \/ (stuckCounter _ e + 1 = 10
               /\ Num.gtb (timeElapsed (world _ e)) (Num.of_Z 500) = true))
   /\ (ev = Continue
       <-> warp _ e <> 0
           /\ ~ (stuckCounter _ e + 1 = 10
               /\ Num.gtb (timeElapsed (world _ e)) (Num.of_Z 500) = true))
   /\ (ev = Continue ->
       forall fuel,
         next (S fuel) (LoopTest returnValue) e = next fuel Reinvoke e'))
  /\ (status_ _ e = STATUS_YIELD_TICK ->
      step (LoopTest returnValue) e = (Reinvoke, e, Suspend)
      /\ forall fuel,
           next (S fuel) (LoopTest returnValue) e
           = Some (Reinvoke, e, Suspended))
  /\ (status_ _ e <> STATUS_YIELD -> status_ _ e <> STATUS_YIELD_TICK ->
      step (LoopTest returnValue) e = (Finished, e, Return returnValue)
      /\ forall fuel,
           next (S fuel) (LoopTest returnValue) e
           = Some (Finished, e, Returned returnValue))
  /\ step Reinvoke e
     = match blockFunction e with
       | (Value v, e') => (LoopTest v, e', Continue)
       | (Promise _, e') =>
           (InWaitPromise, fst (on_shared _ WaitPromise.start e'), Suspend)
       end
  /\ step InWaitPromise e
     = (Finished, e,
        Return (WaitPromise.returnValue (shared _ e))).
Proof.
  split; [ | split; [ | split; [ | split]]].
  - intros S. cbn [Compat.step]. rewrite S.
    destruct (Z.eqb_spec (warp _ (set_status _ e STATUS_RUNNING)) 0) as [W | W];
      cbn in W.
    + repeat split; try (intros; reflexivity || discriminate); auto.
      intros [N _]. contradiction.
    + pose proof (isStuck_spec (set_status _ e STATUS_RUNNING)) as St.
      pose proof (isStuck_keeps_thread (set_status _ e STATUS_RUNNING))
        as (K1 & K2 & K3).
      destruct (isStuck (set_status _ e STATUS_RUNNING)) as [stuck e'] eqn:I.
      cbn [fst snd set_status status_ shared warp world stuckCounter
           WaitPromise.status_] in St, K1, K2, K3.
      destruct stuck.
      * assert (stuckCounter _ e + 1 = 10
               /\ Num.gtb (timeElapsed (world _ e)) (Num.of_Z 500) = true)
          as Y by (now apply St).
        repeat split; try (intros; reflexivity || discriminate); auto.
        intros [_ N]. contradiction.
      * assert (~ (stuckCounter _ e + 1 = 10
               /\ Num.gtb (timeElapsed (world _ e)) (Num.of_Z 500) = true))
          as Y by (intros Y; apply St in Y; discriminate).
        repeat split; try (intros; reflexivity || discriminate); auto.
        -- intros [Z0 | Z0]; contradiction.
        -- intros _ fuel. cbn [Compat.next Compat.step]. rewrite S.
           replace (warp _ (set_status _ e STATUS_RUNNING) =? 0) with false
             by (symmetry; now apply Z.eqb_neq).
           rewrite I. reflexivity.
  - intros S. cbn [Compat.next Compat.step]. rewrite S. now split.
  - intros N1 N2. cbn [Compat.next Compat.step].
    destruct (status_ _ e); try contradiction; now split.
  - cbn [Compat.step]. unfold Compat.executeBlock.
    destruct (blockFunction e) as [[v | p] e']; [reflexivity | ].
    unfold on_shared. cbn. reflexivity.
  - cbn [Compat.step]. unfold on_shared. cbn. now destruct e.
Qed.

End Bridge.

(** The theorem at work: a primitive that always yields, inside a warp
    region, on the tenth call of [isStuck], 501 ms into the tick. *)
Lemma bridge_loop_suspends_witness :
  let blockFunction (e : env unit) :=
    (Value VUndefined, set_status unit e STATUS_YIELD) in
  let e := mkEnv unit (WaitPromise.mkState STATUS_YIELD VUndefined []) 1 9 tt in
  let tick := mkEnv unit (WaitPromise.mkState STATUS_YIELD_TICK VUndefined [])
                1 0 tt in
  let done := mkEnv unit (WaitPromise.mkState STATUS_RUNNING VUndefined [])
                1 0 tt in
  snd (step unit (fun _ w => w) (fun _ => Num.of_Z 501) blockFunction
         (LoopTest VUndefined) e) = Suspend
  /\ step unit (fun _ w => w) (fun _ => Num.of_Z 501) blockFunction
          (LoopTest VUndefined) tick = (Reinvoke, tick, Suspend)
  /\ step unit (fun _ w => w) (fun _ => Num.of_Z 501) blockFunction
          (LoopTest VUndefined) done = (Finished, done, Return VUndefined).
Proof.
  intros blockFunction e tick done.
  split; [ | split].
  - destruct (bridge_loop_suspends unit (fun _ w => w) (fun _ => Num.of_Z 501)
                blockFunction VUndefined e) as (Y & _).
    specialize (Y eq_refl).
    destruct (step unit (fun _ w => w) (fun _ => Num.of_Z 501) blockFunction
                (LoopTest VUndefined) e) as [[pt e'] ev].
    destruct Y as (_ & _ & _ & Y & _). apply Y. right.
    split; reflexivity.
  - destruct (bridge_loop_suspends unit (fun _ w => w) (fun _ => Num.of_Z 501)
                blockFunction VUndefined tick) as (_ & T & _).
    apply T. reflexivity.
  - destruct (bridge_loop_suspends unit (fun _ w => w) (fun _ => Num.of_Z 501)
                blockFunction VUndefined done) as (_ & _ & D & _).
    apply D; discriminate.
Defined.

End CompatFacts.

(** ** The other comparisons, and [toBoolean] *)

Module OrderFacts.

Import Val Exec More.
Local Open Scope string_scope.
Local Open Scope Z_scope.

Lemma code_inj (x y : ascii) : Str.code x = Str.code y -> x = y.
Proof.
  unfold Str.code. intros H. apply N2Z.inj in H.
  rewrite <- (ascii_N_embedding x), <- (ascii_N_embedding y). now rewrite H.
Qed.

(** Strings are totally ordered by [<]. *)
Lemma string_ltb_trichotomy (a : string) :
  forall b,
    (string_ltb a b = true /\ String.eqb a b = false /\ string_ltb b a = false)
    \/ (string_ltb a b = false /\ String.eqb a b = true /\ string_ltb b a = false)
    \/ (string_ltb a b = false /\ String.eqb a b = false /\ string_ltb b a = true).
Proof.
  induction a as [ | x a IH]; intros [ | y b]; cbn; auto.
  destruct (Z.ltb_spec (Str.code x) (Str.code y)) as [L | L],
           (Z.ltb_spec (Str.code y) (Str.code x)) as [G | G]; try lia.
  - left. assert (x <> y) as N by (intros ->; lia).
    apply Ascii.eqb_neq in N. rewrite N. auto.
  - right. right. assert (x <> y) as N by (intros ->; lia).
    apply Ascii.eqb_neq in N. rewrite N. auto.
  - assert (x = y) as -> by (apply code_inj; lia).
    rewrite Ascii.eqb_refl. apply IH.
Qed.

Lemma compare_antisym (x y : Num.number) :
  Num.compare y x
  = match Num.compare x y with
    | Some c => Some (CompOpp c)
    | None => None
    end.
Proof.
  destruct x as [ | sx | sx | sx mx ex], y as [ | sy | sy | sy my ey]; cbn;
    try reflexivity;
    try (destruct sx; reflexivity); try (destruct sy; reflexivity).
  - destruct sx, sy; reflexivity.
  - rewrite (Z.min_comm ey ex). now rewrite Z.compare_antisym.
Qed.

(** Numbers other than [NaN] are totally ordered by [<]. *)
Lemma number_trichotomy (x y : Num.number) :
  Num.is_nan x = false -> Num.is_nan y = false ->
  (Num.ltb x y = true /\ Num.eqb x y = false /\ Num.ltb y x = false)
  \/ (Num.ltb x y = false /\ Num.eqb x y = true /\ Num.ltb y x = false)
  \/ (Num.ltb x y = false /\ Num.eqb x y = false /\ Num.ltb y x = true).
Proof.
  intros Nx Ny. unfold Num.ltb, Num.eqb. rewrite (compare_antisym x y).
  destruct (Num.compare x y) as [[ | | ] | ] eqn:C; cbn; auto.
  destruct x, y; discriminate.
Qed.

(** The three comparisons take the same branch: strings as soon as one
    operand is not numeric. *)
Lemma compareLessThan_unfold (a b : value) :
  compareLessThan a b
  = if Num.is_nan (numeric_form a) || Num.is_nan (numeric_form b)
    then string_ltb (Str.toLowerCase (toString a)) (Str.toLowerCase (toString b))
    else Num.ltb (numeric_form a) (numeric_form b).
Proof.
  unfold compareLessThan, numeric_form.
  rewrite <- !CompareFacts.isWhiteSpace_blank.
  destruct (Num.eqb (toNumber a) (Num.Zero false) && isWhiteSpace a); cbn.
  - reflexivity.
  - destruct (Num.eqb (toNumber b) (Num.Zero false) && isWhiteSpace b); cbn.
    + now rewrite orb_true_r.
    + reflexivity.
Qed.

Lemma compareGreaterThan_unfold (a b : value) :
  compareGreaterThan a b
  = if Num.is_nan (numeric_form a) || Num.is_nan (numeric_form b)
    then string_ltb (Str.toLowerCase (toString b)) (Str.toLowerCase (toString a))
    else Num.ltb (numeric_form b) (numeric_form a).
Proof.
  unfold compareGreaterThan, numeric_form.
  rewrite <- !CompareFacts.isWhiteSpace_blank.
  destruct (Num.eqb (toNumber a) (Num.Zero false) && isWhiteSpace a); cbn.
  - reflexivity.
  - destruct (Num.eqb (toNumber b) (Num.Zero false) && isWhiteSpace b); cbn.
    + now rewrite orb_true_r.
    + reflexivity.
Qed.

(** X1. For every two values exactly one of [compareLessThan],
    [compareEqual] and [compareGreaterThan] holds: the comparisons of
    Scratch are total, [NaN] included. *)
Theorem comparisons_trichotomy (a b : value) :
  (compareLessThan a b = true /\ compareEqual a b = false
   /\ compareGreaterThan a b = false)
  \/ (compareLessThan a b = false /\ compareEqual a b = true
      /\ compareGreaterThan a b = false)
  \/ (compareLessThan a b = false /\ compareEqual a b = false
      /\ compareGreaterThan a b = true).
Proof.
  rewrite compareLessThan_unfold, compareGreaterThan_unfold,
    CompareFacts.compareEqual_unfold.
  unfold compareEqual_spec.
  destruct (Num.is_nan (numeric_form a)) eqn:Na; cbn [orb].
  - apply string_ltb_trichotomy.
  - destruct (Num.is_nan (numeric_form b)) eqn:Nb.
    + apply string_ltb_trichotomy.
    + now apply number_trichotomy.
Qed.

(** X2. [compareGreaterThan(a, b)] is [compareLessThan(b, a)], and
    [compareEqual] is symmetric, although the code treats a blank second
    operand only when the first one is not blank. *)
Theorem comparisons_mirror (a b : value) :
  compareGreaterThan a b = compareLessThan b a
  /\ compareEqual a b = compareEqual b a.
Proof.
  split.
  - rewrite compareLessThan_unfold, compareGreaterThan_unfold.
    now rewrite orb_comm.
  - rewrite !CompareFacts.compareEqual_unfold. unfold compareEqual_spec.
    rewrite (orb_comm (Num.is_nan (numeric_form b))).
    rewrite (String.eqb_sym (Str.toLowerCase (toString b))).
    destruct (_ || _); [reflexivity | ].
    unfold Num.eqb. rewrite (compare_antisym (numeric_form a) (numeric_form b)).
    now destruct (Num.compare (numeric_form a) (numeric_form b)) as [[ | | ] | ].
Qed.

(** Doubles that hold integers compare as the integers do. *)
Lemma compare_of_Z (a b : Z) :
  Z.abs a < 2 ^ 53 -> Z.abs b < 2 ^ 53 ->
  Num.compare (Num.of_Z a) (Num.of_Z b) = Some (a ?= b).
Proof.
  intros Ha Hb.
  destruct (Z.eq_dec a 0) as [-> | Na], (Z.eq_dec b 0) as [-> | Nb].
  - reflexivity.
  - rewrite (NumFacts.of_Z_canon b) by lia.
    destruct b; [congruence | reflexivity | reflexivity].
  - rewrite (NumFacts.of_Z_canon a) by lia.
    destruct a; [congruence | reflexivity | reflexivity].
  - rewrite (NumFacts.of_Z_canon a), (NumFacts.of_Z_canon b) by lia.
    unfold NumSpec.canon. cbn [Num.compare].
    set (e0 := Z.min (Z.log2 (Z.abs a) - 52) (Z.log2 (Z.abs b) - 52)).
    rewrite !NumFacts.canon_aligned by lia.
    pose proof (NumFacts.log2_lt_53' (Z.abs a) ltac:(lia)).
    pose proof (NumFacts.log2_lt_53' (Z.abs b) ltac:(lia)).
    pose proof (NumFacts.pow2_pos (- e0) ltac:(lia)) as P.
    f_equal.
    replace (if a <? 0 then - Z.abs a else Z.abs a) with a
      by (destruct (Z.ltb_spec a 0); lia).
    replace (if b <? 0 then - Z.abs b else Z.abs b) with b
      by (destruct (Z.ltb_spec b 0); lia).
    destruct (Z.compare_spec a b) as [E | L | G].
    + subst. apply Z.compare_refl.
    + apply Z.compare_lt_iff. nia.
    + apply Z.compare_gt_iff. nia.
Qed.

Lemma of_Z_not_nan (z : Z) : Num.is_nan (Num.of_Z z) = false.
Proof. destruct z; cbn [Num.of_Z]; [reflexivity | | ]; apply NumFacts.round_ratio_sign. Qed.

(** X3. On integers that a double holds exactly the comparisons are the
    order of the integers. *)
Theorem comparisons_of_integers (a b : Z) :
  Z.abs a < 2 ^ 53 -> Z.abs b < 2 ^ 53 ->
  compareLessThan (VNumber (Num.of_Z a)) (VNumber (Num.of_Z b)) = (a <? b)
  /\ compareEqual (VNumber (Num.of_Z a)) (VNumber (Num.of_Z b)) = (a =? b)
  /\ compareGreaterThan (VNumber (Num.of_Z a)) (VNumber (Num.of_Z b))
     = (b <? a).
Proof.
  intros Ha Hb.
  rewrite compareLessThan_unfold, compareGreaterThan_unfold,
    CompareFacts.compareEqual_unfold.
  unfold compareEqual_spec. rewrite !CompareFacts.numeric_form_number.
  pose proof (compare_of_Z a b Ha Hb) as C.
  pose proof (compare_of_Z b a Hb Ha) as C'.
  rewrite !of_Z_not_nan.
  cbn [orb]. unfold Num.ltb, Num.eqb. rewrite C, C'.
  rewrite Z.eqb_compare. unfold Z.ltb.
  split; [ | split]; [destruct (a ?= b) | destruct (a ?= b) | destruct (b ?= a)];
    reflexivity.
Qed.

Lemma comparisons_of_integers_witness :
  compareLessThan (VNumber (Num.of_Z (-3))) (VNumber (Num.of_Z 2)) = true
  /\ compareEqual (VNumber (Num.of_Z (-3))) (VNumber (Num.of_Z 2)) = false
  /\ compareGreaterThan (VNumber (Num.of_Z (-3))) (VNumber (Num.of_Z 2))
     = false.
Proof.
  apply (comparisons_of_integers (-3) 2); reflexivity.
Defined.

(** *** [toBoolean] *)

Lemma lower_char_zero (c : ascii) :
  Str.lower_char c = "0"%char <-> c = "0"%char.
Proof.
  destruct c as [[ | ] [ | ] [ | ] [ | ] [ | ] [ | ] [ | ] [ | ]];
    vm_compute; split; intros H; (reflexivity || discriminate H).
Qed.

Lemma lower_char_idem (c : ascii) :
  Str.lower_char (Str.lower_char c) = Str.lower_char c.
Proof.
  destruct c as [[ | ] [ | ] [ | ] [ | ] [ | ] [ | ] [ | ] [ | ]];
    vm_compute; reflexivity.
Qed.

Lemma toLowerCase_idem (s : string) :
  Str.toLowerCase (Str.toLowerCase s) = Str.toLowerCase s.
Proof.
  induction s as [ | c s IH]; cbn; [reflexivity | ].
  now rewrite lower_char_idem, IH.
Qed.

Lemma toLowerCase_empty (s : string) : Str.toLowerCase s = "" <-> s = "".
Proof. destruct s; cbn; split; congruence. Qed.

Lemma toLowerCase_zero (s : string) : Str.toLowerCase s = "0" <-> s = "0".
Proof.
  destruct s as [ | c s]; cbn; [split; discriminate | ].
  split; intros H; injection H as Hc Hs.
  - apply (proj1 (lower_char_zero c)) in Hc.
    apply (proj1 (toLowerCase_empty s)) in Hs.
    rewrite Hc, Hs. reflexivity.
  - rewrite Hc, Hs. reflexivity.
Qed.

(** X4. [toBoolean] does not look at the case of a string: two strings
    that differ in case only convert alike; and it reads the text of a
    boolean back as that boolean. *)
Theorem toBoolean_ignores_case :
  (forall s t : string,
      Str.toLowerCase s = Str.toLowerCase t ->
      toBoolean (VString s) = toBoolean (VString t))
  /\ (forall b : bool, toBoolean (VString (toString (VBool b))) = b).
Proof.
  split; [ | intros [ | ]; reflexivity].
  intros s t E. cbn [toBoolean]. rewrite E.
  assert (String.eqb s "" = String.eqb t "") as ->.
  { destruct (String.eqb_spec s ""), (String.eqb_spec t ""); try reflexivity.
    - subst. symmetry in E. apply (proj1 (toLowerCase_empty t)) in E.
      contradiction.
    - subst. apply (proj1 (toLowerCase_empty s)) in E. contradiction. }
  assert (String.eqb s "0" = String.eqb t "0") as ->.
  { destruct (String.eqb_spec s "0"), (String.eqb_spec t "0"); try reflexivity.
    - subst. symmetry in E. apply (proj1 (toLowerCase_zero t)) in E.
      contradiction.
    - subst. apply (proj1 (toLowerCase_zero s)) in E. contradiction. }
  reflexivity.
Qed.

Lemma toBoolean_ignores_case_witness :
  toBoolean (VString "FaLsE") = toBoolean (VString "false").
Proof.
  destruct toBoolean_ignores_case as [C _]. apply C. reflexivity.
Defined.

End OrderFacts.

(** ** How the list operations compose *)

Module ListRuns.

Import Val Exec More.
Local Open Scope string_scope.
Local Open Scope Z_scope.

(** *** Arrays *)

Lemma nth_insert (a : list value) (v d : value) :
  forall n j : nat,
    (n <= List.length a)%nat ->
    nth j (firstn n a ++ v :: skipn n a) d
    = if (j <? n)%nat then nth j a d
      else if (j =? n)%nat then v else nth (j - 1) a d.
Proof.
  induction a as [ | x a IH]; intros n j L.
  - cbn in L. assert (n = O) as -> by lia. cbn.
    destruct j as [ | [ | j]]; reflexivity.
  - destruct n as [ | n].
    + cbn [firstn skipn app]. destruct j as [ | j]; [reflexivity | ].
      cbn. rewrite ?Nat.sub_0_r. reflexivity.
    + rewrite firstn_cons, skipn_cons. cbn [app].
      destruct j as [ | j]; [reflexivity | ].
      cbn [nth]. rewrite IH by (cbn in L; lia).
      change (S j <? S n)%nat with (j <? n)%nat.
      change (S j =? S n)%nat with (j =? n)%nat.
      destruct (Nat.ltb_spec j n); [reflexivity | ].
      destruct (Nat.eqb_spec j n); [reflexivity | ].
      destruct j as [ | j]; [lia | ].
      cbn. rewrite ?Nat.sub_0_r. reflexivity.
Qed.

Lemma nth_delete (a : list value) (d : value) :
  forall n j : nat,
    nth j (firstn n a ++ skipn (S n) a) d
    = if (j <? n)%nat then nth j a d else nth (S j) a d.
Proof.
  induction a as [ | x a IH]; intros n j.
  - rewrite firstn_nil, skipn_nil. cbn [app].
    destruct (j <? n)%nat; destruct j; reflexivity.
  - destruct n as [ | n].
    + reflexivity.
    + rewrite firstn_cons, (skipn_cons (S n)). cbn [app].
      destruct j as [ | j]; [reflexivity | ].
      cbn [nth]. rewrite (IH n j).
      change (S j <? S n)%nat with (j <? n)%nat. reflexivity.
Qed.

Lemma nth_replace (a : list value) (v d : value) :
  forall n j : nat,
    (n < List.length a)%nat ->
    nth j (replace_nth a n v) d = if (j =? n)%nat then v else nth j a d.
Proof.
  induction a as [ | x a IH]; intros n j L; [cbn in L; lia | ].
  destruct n as [ | n], j as [ | j]; try reflexivity.
  cbn [replace_nth nth]. rewrite IH by (cbn in L; lia). reflexivity.
Qed.

Lemma delete_inserted (a : list value) (v : value) :
  forall k : nat,
    (k <= List.length a)%nat ->
    (firstn k (firstn k a ++ v :: skipn k a)
     ++ skipn (S k) (firstn k a ++ v :: skipn k a))%list = a.
Proof.
  induction a as [ | x a IH]; intros k L.
  - cbn in L. assert (k = O) as -> by lia. reflexivity.
  - destruct k as [ | k]; [reflexivity | ].
    rewrite firstn_cons, skipn_cons. cbn [app].
    rewrite firstn_cons, (skipn_cons (S k)). cbn [app].
    f_equal. apply IH. cbn in L. lia.
Qed.

Lemma length_replace (a : list value) (v : value) :
  forall n, List.length (replace_nth a n v) = List.length a.
Proof.
  induction a as [ | x a IH]; intros [ | n]; cbn; auto.
Qed.

Lemma get_nth (a : list value) (i : Z) :
  0 <= i -> get a i = nth (Z.to_nat i) a VUndefined.
Proof.
  intros H. unfold get, length.
  replace (0 <=? i) with true by (symmetry; apply Z.leb_le; lia). cbn [andb].
  destruct (Z.ltb_spec i (Z.of_nat (List.length a))); [reflexivity | ].
  symmetry. apply nth_overflow. lia.
Qed.

Lemma length_nonneg (a : list value) : 0 <= length a.
Proof. unfold length. lia. Qed.

Lemma splice_start_inside (a : list value) (i : Z) :
  0 <= i <= length a -> splice_start a i = Z.to_nat i.
Proof.
  intros H. unfold splice_start.
  replace (i <? 0) with false by (symmetry; apply Z.ltb_ge; lia).
  now rewrite Z.min_l by lia.
Qed.

Lemma length_splice_insert (a : list value) (i : Z) (v : value) :
  length (splice_insert a i v) = length a + 1.
Proof.
  unfold splice_insert, length.
  pose proof (f_equal (@List.length value)
                (firstn_skipn (splice_start a i) a)) as H.
  rewrite length_app in H. rewrite length_app. cbn [List.length]. lia.
Qed.

Lemma get_splice_insert (a : list value) (i j : Z) (v : value) :
  0 <= i <= length a -> 0 <= j ->
  get (splice_insert a i v) j
  = if j <? i then get a j else if j =? i then v else get a (j - 1).
Proof.
  intros Hi Hj. rewrite get_nth by lia. unfold splice_insert.
  rewrite splice_start_inside by lia.
  rewrite nth_insert by (unfold length in Hi; lia).
  destruct (Nat.ltb_spec (Z.to_nat j) (Z.to_nat i)), (Z.ltb_spec j i); try lia.
  - now rewrite get_nth by lia.
  - destruct (Nat.eqb_spec (Z.to_nat j) (Z.to_nat i)), (Z.eqb_spec j i);
      try lia; [reflexivity | ].
    rewrite get_nth by lia. f_equal. lia.
Qed.

Lemma length_splice_delete (a : list value) (i : Z) :
  0 <= i < length a -> length (splice_delete a i) = length a - 1.
Proof.
  intros Hi. unfold splice_delete. rewrite splice_start_inside by lia.
  unfold length in *. rewrite length_app, length_firstn, length_skipn. lia.
Qed.

Lemma get_splice_delete (a : list value) (i j : Z) :
  0 <= i < length a -> 0 <= j ->
  get (splice_delete a i) j = if j <? i then get a j else get a (j + 1).
Proof.
  intros Hi Hj. rewrite get_nth by lia. unfold splice_delete.
  rewrite splice_start_inside by lia. rewrite nth_delete.
  destruct (Nat.ltb_spec (Z.to_nat j) (Z.to_nat i)), (Z.ltb_spec j i); try lia;
    rewrite get_nth by lia; [reflexivity | ].
  f_equal. lia.
Qed.

Lemma set_inside (a : list value) (i : Z) (v : value) :
  0 <= i < length a ->
  length (set a i v) = length a
  /\ forall j, get (set a i v) j = if j =? i then v else get a j.
Proof.
  intros Hi. unfold set.
  replace (i <? 0) with false by (symmetry; apply Z.ltb_ge; lia).
  replace (i <? length a) with true by (symmetry; apply Z.ltb_lt; lia).
  split; [unfold length; now rewrite length_replace | ].
  intros j. destruct (Z.le_gt_cases 0 j) as [J | J].
  - rewrite !get_nth by lia.
    rewrite nth_replace by (unfold length in Hi; lia).
    destruct (Nat.eqb_spec (Z.to_nat j) (Z.to_nat i)), (Z.eqb_spec j i);
      try lia; reflexivity.
  - unfold get.
    replace (0 <=? j) with false by (symmetry; apply Z.leb_gt; lia).
    replace (j =? i) with false by (symmetry; apply Z.eqb_neq; lia).
    reflexivity.
Qed.

(** *** Indices *)

(** What [listIndex] returns is -1 or an offset below the bound. *)
Lemma listIndex_range (idx : value) (bound : Z) (rnd : Num.number) :
  0 <= bound < 2 ^ 31 -> Num.in_unit_interval rnd = true ->
  listIndex idx bound rnd = -1 \/ 0 <= listIndex idx bound rnd < bound.
Proof.
  intros B R. destruct (is_symbolic idx) eqn:S.
  - apply IndexFacts.is_symbolic_cases in S as [-> | S].
    + rewrite IndexFacts.listIndex_last.
      destruct (Z.gtb_spec bound 0); lia.
    + rewrite (IndexFacts.listIndex_random _ _ _ S).
      destruct (Z.gtb_spec bound 0); [right | now left].
      apply NumFacts.random_offset; [assumption | lia].
  - rewrite IndexFacts.listIndex_numeric by assumption.
    apply IndexFacts.in_bounds_range.
Qed.

(** The selector ['all'] is no index: it never resolves. *)
Lemma all_never_resolves (bound : Z) (rnd : Num.number) :
  listIndex (VString "all") bound rnd = -1.
Proof.
  rewrite IndexFacts.listIndex_numeric by reflexivity.
  unfold in_bounds.
  replace (Num.toInt32 (index_number (VString "all"))) with 0
    by (vm_compute; reflexivity).
  reflexivity.
Qed.

Lemma resolved_is_not_all (idx : value) (bound : Z) (rnd : Num.number) :
  listIndex idx bound rnd <> -1 -> strict_equal idx (VString "all") = false.
Proof.
  intros H. destruct (strict_equal idx (VString "all")) eqn:E; [ | reflexivity].
  destruct idx as [ | | b | n | s]; try discriminate. cbn in E.
  apply String.eqb_eq in E. subst. now rewrite all_never_resolves in H.
Qed.

(** X5. Insert, then look up: when the index resolves, [listInsert] makes
    the list one item longer, [listGet] with the same index (and the same
    random draw) returns the inserted item, the items before it stay where
    they were and the items from it on move one place up. *)
Theorem insert_then_get
  (list : variable) (idx v : value) (rnd : Num.number) (i : Z) :
  length (value_ list) + 1 < 2 ^ 31 -> Num.in_unit_interval rnd = true ->
  listIndex idx (length (value_ list) + 1) rnd = i -> i <> -1 ->
  let list' := listInsert list idx v rnd in
  length (value_ list') = length (value_ list) + 1
  /\ listGet (value_ list') idx rnd = v
  /\ (forall j, 0 <= j < i -> get (value_ list') j = get (value_ list) j)
  /\ (forall j, i <= j < length (value_ list) ->
                get (value_ list') (j + 1) = get (value_ list) j).
Proof.
  intros B R E N list'.
  pose proof (length_nonneg (value_ list)) as L0.
  destruct (listIndex_range idx (length (value_ list) + 1) rnd ltac:(lia) R)
    as [F | Rg]; [congruence | ]. rewrite E in Rg.
  assert (value_ list' = splice_insert (value_ list) i v) as V.
  { unfold list', listInsert. rewrite E.
    now replace (i =? -1) with false by (symmetry; apply Z.eqb_neq; lia). }
  rewrite V, length_splice_insert.
  split; [reflexivity | split; [ | split]].
  - unfold listGet. rewrite length_splice_insert, E.
    replace (i =? -1) with false by (symmetry; apply Z.eqb_neq; lia).
    rewrite get_splice_insert by lia.
    now rewrite Z.ltb_irrefl, Z.eqb_refl.
  - intros j J. rewrite get_splice_insert by lia.
    now replace (j <? i) with true by (symmetry; apply Z.ltb_lt; lia).
  - intros j J. rewrite get_splice_insert by lia.
    replace (j + 1 <? i) with false by (symmetry; apply Z.ltb_ge; lia).
    replace (j + 1 =? i) with false by (symmetry; apply Z.eqb_neq; lia).
    f_equal. lia.
Qed.

Lemma insert_then_get_witness :
  let list := mkVariable [VString "a"; VString "c"] true [] in
  listGet (value_ (listInsert list (VString "2") (VString "b") (Num.Zero false)))
          (VString "2") (Num.Zero false) = VString "b".
Proof.
  intros list.
  destruct (insert_then_get list (VString "2") (VString "b") (Num.Zero false)
              1) as (_ & H & _);
    [reflexivity | reflexivity | vm_compute; reflexivity | discriminate
    | exact H].
Defined.

(** X6. Insert, then delete with the same index: the items are the ones
    the list had before. *)
Theorem insert_then_delete
  (list : variable) (idx v : value) (rnd : Num.number) :
  length (value_ list) + 1 < 2 ^ 31 -> Num.in_unit_interval rnd = true ->
  listIndex idx (length (value_ list) + 1) rnd <> -1 ->
  listDelete (listInsert list idx v rnd) idx rnd
  = mkVariable (value_ list) false (properties list).
Proof.
  intros B R N.
  pose proof (length_nonneg (value_ list)) as L0.
  destruct (listIndex_range idx (length (value_ list) + 1) rnd ltac:(lia) R)
    as [F | Rg]; [congruence | ].
  unfold listDelete. rewrite (resolved_is_not_all _ _ _ N).
  unfold listInsert.
  set (i := listIndex idx (length (value_ list) + 1) rnd) in *.
  replace (i =? -1) with false by (symmetry; apply Z.eqb_neq; lia).
  unfold set_monitorUpToDate, set_value.
  cbn [value_ _monitorUpToDate properties].
  rewrite length_splice_insert. fold i.
  replace (i =? -1) with false by (symmetry; apply Z.eqb_neq; lia).
  f_equal.
  unfold splice_delete, splice_insert.
  rewrite (splice_start_inside (value_ list) i) by lia.
  set (k := Z.to_nat i).
  assert (k <= List.length (value_ list))%nat as K
      by (unfold k, length in *; lia).
  assert (splice_start (firstn k (value_ list) ++ v :: skipn k (value_ list)) i
          = k) as ->.
  { apply splice_start_inside.
    unfold length. rewrite length_app, length_firstn. cbn [List.length].
    rewrite length_skipn. unfold length in Rg. lia. }
  now apply delete_inserted.
Qed.

Lemma insert_then_delete_witness :
  let list := mkVariable [VString "a"; VString "c"] true [] in
  listDelete (listInsert list (VString "last") (VString "b") (Num.Zero false))
             (VString "last") (Num.Zero false)
  = mkVariable [VString "a"; VString "c"] false [].
Proof.
  intros list.
  apply (insert_then_delete list (VString "last") (VString "b") (Num.Zero false));
    [reflexivity | reflexivity | discriminate].
Defined.


(** X7. Replace, then look up: when the index resolves, [listReplace]
    keeps the length, [listGet] with the same index returns the new item,
    and every other item is what it was. *)
Theorem replace_then_get
  (list : variable) (idx v : value) (rnd : Num.number) (i : Z) :
  length (value_ list) < 2 ^ 31 -> Num.in_unit_interval rnd = true ->
  listIndex idx (length (value_ list)) rnd = i -> i <> -1 ->
  let list' := listReplace list idx v rnd in
  length (value_ list') = length (value_ list)
  /\ listGet (value_ list') idx rnd = v
  /\ (forall j, j <> i -> get (value_ list') j = get (value_ list) j).
Proof.
  intros B R E N list'.
  pose proof (length_nonneg (value_ list)) as L0.
  destruct (listIndex_range idx (length (value_ list)) rnd ltac:(lia) R)
    as [F | Rg]; [congruence | ]. rewrite E in Rg.
  assert (value_ list' = set (value_ list) i v) as V.
  { unfold list', listReplace. rewrite E.
    now replace (i =? -1) with false by (symmetry; apply Z.eqb_neq; lia). }
  destruct (set_inside (value_ list) i v Rg) as [Ln G].
  rewrite V, Ln. split; [reflexivity | split].
  - unfold listGet. rewrite Ln, E.
    replace (i =? -1) with false by (symmetry; apply Z.eqb_neq; lia).
    rewrite G. now rewrite Z.eqb_refl.
  - intros j J. rewrite G.
    now replace (j =? i) with false by (symmetry; apply Z.eqb_neq; lia).
Qed.

Lemma replace_then_get_witness :
  let list := mkVariable [VString "a"; VString "b"] true [] in
  listGet (value_ (listReplace list (VString "last") (VString "c")
                                (Num.Zero false)))
          (VString "last") (Num.Zero false) = VString "c".
Proof.
  intros list.
  apply (replace_then_get list (VString "last") (VString "c")
           (Num.Zero false) 1);
    [reflexivity | reflexivity | reflexivity | discriminate].
Defined.

(** X8. When the index resolves, [listDelete] makes the list one item
    shorter: the items before the offset stay and the items after it move
    one place down. *)
Theorem delete_shifts
  (list : variable) (idx : value) (rnd : Num.number) (i : Z) :
  length (value_ list) < 2 ^ 31 -> Num.in_unit_interval rnd = true ->
  listIndex idx (length (value_ list)) rnd = i -> i <> -1 ->
  let list' := listDelete list idx rnd in
  length (value_ list') = length (value_ list) - 1
  /\ (forall j, 0 <= j < i -> get (value_ list') j = get (value_ list) j)
  /\ (forall j, i <= j -> get (value_ list') j = get (value_ list) (j + 1)).
Proof.
  intros B R E N list'.
  pose proof (length_nonneg (value_ list)) as L0.
  destruct (listIndex_range idx (length (value_ list)) rnd ltac:(lia) R)
    as [F | Rg]; [congruence | ]. rewrite E in Rg.
  assert (value_ list' = splice_delete (value_ list) i) as V.
  { unfold list', listDelete.
    rewrite (resolved_is_not_all idx (length (value_ list)) rnd)
      by (rewrite E; exact N).
    rewrite E.
    now replace (i =? -1) with false by (symmetry; apply Z.eqb_neq; lia). }
  rewrite V, length_splice_delete by lia.
  split; [reflexivity | split]; intros j J; rewrite get_splice_delete by lia.
  - now replace (j <? i) with true by (symmetry; apply Z.ltb_lt; lia).
  - now replace (j <? i) with false by (symmetry; apply Z.ltb_ge; lia).
Qed.

Lemma delete_shifts_witness :
  let list := mkVariable [VString "a"; VString "b"; VString "c"] true [] in
  length (value_ (listDelete list (VString "random") (Num.Fin false 1 (-1))))
  = 2.
Proof.
  intros list.
  apply (delete_shifts list (VString "random") (Num.Fin false 1 (-1)) 1);
    [reflexivity | reflexivity | reflexivity | discriminate].
Defined.

(** *** Searching *)

Lemma find_equal_some (a : list value) (item : value) :
  forall s k,
    find_equal a item s = Some k ->
    s <= k < s + length a
    /\ compareEqual (nth (Z.to_nat (k - s)) a VUndefined) item = true
    /\ forall j, (j < Z.to_nat (k - s))%nat ->
                 compareEqual (nth j a VUndefined) item = false.
Proof.
  induction a as [ | x a IH]; intros s k H; [discriminate | ].
  cbn [find_equal] in H. unfold length in *. cbn [List.length].
  destruct (compareEqual x item) eqn:C.
  - injection H as <-. rewrite Z.sub_diag. cbn.
    split; [lia | split; [exact C | intros j J; lia]].
  - destruct (IH _ _ H) as (R & E & F).
    replace (Z.to_nat (k - s)) with (S (Z.to_nat (k - (s + 1)))) by lia.
    split; [lia | split; [exact E | ]].
    intros [ | j] J; [exact C | ]. apply F. lia.
Qed.

Lemma find_equal_none (a : list value) (item : value) :
  forall s,
    find_equal a item s = None <->
    forall x, In x a -> compareEqual x item = false.
Proof.
  induction a as [ | x a IH]; intros s; cbn [find_equal].
  - split; [intros _ x [] | reflexivity].
  - destruct (compareEqual x item) eqn:C.
    + split; [discriminate | intros H].
      rewrite (H x (or_introl eq_refl)) in C. discriminate.
    + rewrite IH. split.
      * intros H y [<- | I]; auto.
      * intros H y I. apply H. now right.
Qed.

Lemma listIndex_of_Z (k bound : Z) (rnd : Num.number) :
  1 <= k <= bound -> bound < 2 ^ 31 ->
  listIndex (VNumber (Num.of_Z k)) bound rnd = k - 1.
Proof.
  intros K B. rewrite IndexFacts.listIndex_numeric by reflexivity.
  unfold index_number. cbn [is_number typeof toNumber].
  rewrite NumFacts.toInt32_of_Z by lia. unfold in_bounds.
  replace (1 <=? k) with true by (symmetry; apply Z.leb_le; lia).
  now replace (k <=? bound) with true by (symmetry; apply Z.leb_le; lia).
Qed.

(** X9. [listIndexOf] is the 1-based place of the first item that
    [compareEqual]s the one sought, and 0 exactly when no item does; the
    item that [listGet] returns at that place is such an item. *)
Theorem listIndexOf_first_match (list : variable) (item : value) :
  let k := listIndexOf list item in
  0 <= k <= length (value_ list)
  /\ (k = 0 <-> forall x, In x (value_ list) -> compareEqual x item = false)
  /\ (k <> 0 ->
      compareEqual (get (value_ list) (k - 1)) item = true
      /\ (forall j, 0 <= j < k - 1 ->
                    compareEqual (get (value_ list) j) item = false)
      /\ (length (value_ list) < 2 ^ 31 ->
          forall rnd,
            compareEqual (listGet (value_ list) (VNumber (Num.of_Z k)) rnd)
                         item = true)).
Proof.
  intros k. unfold k, listIndexOf.
  pose proof (length_nonneg (value_ list)) as L0.
  destruct (find_equal (value_ list) item 0) as [p | ] eqn:F.
  - destruct (find_equal_some _ _ _ _ F) as (R & E & B).
    rewrite Z.sub_0_r in E, B.
    assert (find_equal (value_ list) item 0 <> None) as NN by congruence.
    rewrite find_equal_none in NN.
    split; [lia | split; [split; [lia | intros H; contradiction] | ]].
    intros _. replace (p + 1 - 1) with p by lia.
    rewrite get_nth by lia.
    split; [exact E | split].
    + intros j J. rewrite get_nth by lia. apply B. lia.
    + intros Ln rnd. unfold listGet.
      rewrite listIndex_of_Z by lia.
      replace (p + 1 - 1) with p by lia.
      replace (p =? -1) with false by (symmetry; apply Z.eqb_neq; lia).
      rewrite get_nth by lia. exact E.
  - split; [lia | split; [ | intros H; contradiction]].
    rewrite <- (find_equal_none _ _ 0). tauto.
Qed.

Lemma listIndexOf_first_match_witness :
  let list :=
    mkVariable [VString "x"; VString "5.0"; VNumber (Num.of_Z 5)] true [] in
  compareEqual (get (value_ list) (listIndexOf list (VString "5") - 1))
               (VString "5") = true.
Proof.
  intros list.
  destruct (listIndexOf_first_match list (VString "5")) as (_ & _ & H).
  destruct H as [H _]; [vm_compute; discriminate | exact H].
Defined.

Lemma find_equal_member (a : list value) (x item : value) (s : Z) :
  In x a -> compareEqual x item = true -> find_equal a item s <> None.
Proof.
  intros I C F. rewrite find_equal_none in F.
  rewrite (F x I) in C. discriminate.
Qed.

Lemma listContains_member (list : variable) (x : value) :
  In x (value_ list) ->
  listContains list x = true /\ listIndexOf list x <> 0.
Proof.
  intros I.
  pose proof (find_equal_member _ x x 0 I (CompareFacts.compareEqual_refl x))
    as F.
  unfold listContains, listIndexOf.
  destruct (find_equal (value_ list) x 0) as [k | ] eqn:E; [ | contradiction].
  apply ListFacts.find_equal_from in E.
  split; [now destruct (negb _) | lia].
Qed.

(** X10. An item that was inserted or put in place of another is found:
    after [listInsert] or [listReplace] with an index that resolves,
    [listContains] holds of the item and [listIndexOf] is not 0. *)
Theorem inserted_item_is_found
  (list : variable) (idx v : value) (rnd : Num.number) :
  length (value_ list) + 1 < 2 ^ 31 -> Num.in_unit_interval rnd = true ->
  (listIndex idx (length (value_ list) + 1) rnd <> -1 ->
   listContains (listInsert list idx v rnd) v = true
   /\ listIndexOf (listInsert list idx v rnd) v <> 0)
  /\ (listIndex idx (length (value_ list)) rnd <> -1 ->
      listContains (listReplace list idx v rnd) v = true
      /\ listIndexOf (listReplace list idx v rnd) v <> 0).
Proof.
  intros B R. pose proof (length_nonneg (value_ list)) as L0.
  split; intros N; apply listContains_member.
  - unfold listInsert.
    replace (_ =? -1) with false by (symmetry; apply Z.eqb_neq; lia).
    cbn. unfold splice_insert. apply in_or_app. right. now left.
  - destruct (listIndex_range idx (length (value_ list)) rnd ltac:(lia) R)
      as [F | Rg]; [congruence | ].
    unfold listReplace.
    replace (_ =? -1) with false by (symmetry; apply Z.eqb_neq; lia).
    cbn [value_ set_value set_monitorUpToDate].
    destruct (set_inside (value_ list) _ v Rg) as [Ln G].
    specialize (G (listIndex idx (length (value_ list)) rnd)).
    rewrite Z.eqb_refl in G.
    pose proof (ListFacts.get_in_range
                  (set (value_ list)
                       (listIndex idx (length (value_ list)) rnd) v)
                  (listIndex idx (length (value_ list)) rnd)) as I.
    rewrite G in I. eapply nth_error_In. apply I. lia.
Qed.

Lemma inserted_item_is_found_witness :
  let list := mkVariable [VString "a"] true [] in
  listContains (listInsert list (VString "1") (VString "b") (Num.Zero false))
               (VString "b") = true.
Proof.
  intros list.
  destruct (inserted_item_is_found list (VString "1") (VString "b")
              (Num.Zero false)) as [I _]; [reflexivity | reflexivity | ].
  apply I. discriminate.
Defined.

(** *** The empty list and the two ends *)

Lemma listIndex_empty (idx : value) (rnd : Num.number) :
  listIndex idx 0 rnd = -1.
Proof.
  assert (forall i, (if (i <? 1) || (i >? 0) then -1 else i - 1) = -1) as N.
  { intros i. destruct (Z.ltb_spec i 1); [reflexivity | ].
    now replace (i >? 0) with true by (symmetry; apply Z.gtb_lt; lia). }
  unfold listIndex.
  destruct (negb (is_number idx)); [ | apply N].
  destruct (strict_equal idx (VString "last")); [reflexivity | ].
  destruct (strict_equal idx (VString "random") || strict_equal idx (VString "*"));
    [reflexivity | apply N].
Qed.

(** X11. On an empty list no index resolves, whatever it is: [listGet]
    gives the empty string, [listReplace] and [listDelete] give the list
    back as it was, flag included, nothing is found in it, and its
    contents are the empty string. *)
Theorem empty_list_ignores_index
  (list : variable) (idx v item : value) (rnd : Num.number) :
  value_ list = [] ->
  listGet (value_ list) idx rnd = VString ""
  /\ listReplace list idx v rnd = list
  /\ listDelete list idx rnd = list
  /\ listContains list item = false
  /\ listIndexOf list item = 0
  /\ listContents list = "".
Proof.
  intros E. destruct list as [a f p]. cbn [value_] in E. subst a.
  unfold listGet, listReplace, listDelete. cbn [value_].
  change (length []) with 0. rewrite listIndex_empty.
  split; [reflexivity | split; [reflexivity | split]].
  - now destruct (strict_equal idx (VString "all")).
  - split; [reflexivity | split; reflexivity].
Qed.

Lemma empty_list_ignores_index_witness :
  let list := listDelete (mkVariable [VString "a"] true []) (VString "all")
                         Num.NaN in
  listReplace list (VString "last") (VString "b") Num.NaN = list.
Proof.
  intros list.
  destruct (empty_list_ignores_index list (VString "last") (VString "b")
              VNull Num.NaN) as (_ & H & _); [reflexivity | exact H].
Defined.

Lemma nth_last (a : list value) (d d' : value) :
  a <> [] -> nth (List.length a - 1) a d = last a d'.
Proof.
  induction a as [ | x a IH]; [congruence | intros _].
  destruct a as [ | y a]; [reflexivity | ].
  change (last (x :: y :: a) d') with (last (y :: a) d').
  rewrite <- IH by discriminate.
  cbn [List.length Nat.sub]. now rewrite ?Nat.sub_0_r.
Qed.

Lemma listIndex_one (bound : Z) (rnd : Num.number) :
  listIndex (VNumber (Num.of_Z 1)) bound rnd = if bound >? 0 then 0 else -1.
Proof.
  unfold listIndex. cbn [is_number typeof negb toNumber].
  replace (Num.toInt32 (Num.of_Z 1)) with 1 by (vm_compute; reflexivity).
  cbn [Z.ltb Z.compare Pos.compare Pos.compare_cont orb].
  rewrite !Z.gtb_ltb.
  destruct (Z.ltb_spec bound 1), (Z.ltb_spec 0 bound); try reflexivity; lia.
Qed.

(** X12. The two ends of a list: inserting at ["last"] appends the item and
    inserting at 1 puts it in front, whatever the length; [listGet] at
    ["last"] and at 1 gives the last and the first item, and the empty
    string when there is none; deleting at ["last"] removes the last
    item. *)
Theorem ends_of_the_list (list : variable) (v : value) (rnd : Num.number) :
  listInsert list (VString "last") v rnd
  = mkVariable (value_ list ++ [v]) false (properties list)
  /\ listInsert list (VNumber (Num.of_Z 1)) v rnd
     = mkVariable (v :: value_ list) false (properties list)
  /\ listGet (value_ list) (VString "last") rnd
     = last (value_ list) (VString "")
  /\ listGet (value_ list) (VNumber (Num.of_Z 1)) rnd
     = hd (VString "") (value_ list)
  /\ value_ (listDelete list (VString "last") rnd)
     = removelast (value_ list).
Proof.
  pose proof (length_nonneg (value_ list)) as L0.
  assert ((length (value_ list) + 1 >? 0) = true) as P
    by (apply Z.gtb_lt; lia).
  split; [ | split; [ | split; [ | split]]].
  - unfold listInsert. rewrite IndexFacts.listIndex_last, P.
    replace (length (value_ list) + 1 - 1) with (length (value_ list)) by lia.
    replace (length (value_ list) =? -1) with false
      by (symmetry; apply Z.eqb_neq; lia).
    unfold set_monitorUpToDate, set_value, splice_insert, splice_start.
    cbn [value_ _monitorUpToDate properties].
    replace (length (value_ list) <? 0) with false
      by (symmetry; apply Z.ltb_ge; lia).
    rewrite Z.min_id. unfold length. rewrite Nat2Z.id.
    now rewrite firstn_all, skipn_all.
  - unfold listInsert. rewrite listIndex_one, P.
    unfold set_monitorUpToDate, set_value, splice_insert, splice_start.
    cbn [value_ _monitorUpToDate properties Z.eqb Z.ltb Z.compare].
    now rewrite Z.min_l by lia.
  - unfold listGet. rewrite IndexFacts.listIndex_last.
    destruct (value_ list) as [ | x a] eqn:E; [reflexivity | ].
    rewrite <- E in *.
    assert (length (value_ list) > 0) as Q
      by (rewrite E; unfold length; cbn [List.length]; lia).
    replace (length (value_ list) >? 0) with true
      by (symmetry; apply Z.gtb_lt; lia).
    replace (length (value_ list) - 1 =? -1) with false
      by (symmetry; apply Z.eqb_neq; lia).
    rewrite get_nth by lia.
    replace (Z.to_nat (length (value_ list) - 1))
      with (List.length (value_ list) - 1)%nat by (unfold length; lia).
    apply nth_last. rewrite E. discriminate.
  - unfold listGet. rewrite listIndex_one.
    destruct (value_ list) as [ | x a]; reflexivity.
  - unfold listDelete.
    change (strict_equal (VString "last") (VString "all")) with false.
    cbv iota. rewrite IndexFacts.listIndex_last.
    destruct (value_ list) as [ | x a] eqn:E; [exact E | ].
    rewrite <- E in *.
    assert (length (value_ list) > 0) as Q
      by (rewrite E; unfold length; cbn [List.length]; lia).
    replace (length (value_ list) >? 0) with true
      by (symmetry; apply Z.gtb_lt; lia).
    replace (length (value_ list) - 1 =? -1) with false
      by (symmetry; apply Z.eqb_neq; lia).
    unfold set_monitorUpToDate, set_value, splice_delete, splice_start.
    cbn [value_].
    replace (length (value_ list) - 1 <? 0) with false
      by (symmetry; apply Z.ltb_ge; lia).
    rewrite Z.min_l by lia.
    replace (S (Z.to_nat (length (value_ list) - 1)))
      with (List.length (value_ list)) by (unfold length in *; lia).
    replace (Z.to_nat (length (value_ list) - 1))
      with (pred (List.length (value_ list))) by (unfold length in *; lia).
    rewrite skipn_all, app_nil_r. symmetry. apply removelast_firstn_len.
Qed.

(** *** The contents of a list *)

Lemma join_letters (s : string) : join "" (letters s) = s.
Proof.
  induction s as [ | c s IH]; [reflexivity | ].
  cbn [letters]. destruct s as [ | c' s]; [reflexivity | ].
  change (join "" (VString (String c "") :: letters (String c' s)))
    with (String c (join "" (letters (String c' s)))).
  now rewrite IH.
Qed.

Lemma contents_from_letters (s : string) (all : list value) :
  contents_from (letters s) all = join "" all.
Proof. induction s as [ | c s IH]; [reflexivity | exact IH]. Qed.

(** X13. [listContents] of the letters of a string is the string: a list
    whose items are all one character long is joined with nothing in
    between. *)
Theorem listContents_of_letters
  (s : string) (flag : bool) (props : list (string * value)) :
  listContents (mkVariable (letters s) flag props) = s.
Proof.
  unfold listContents. cbn [value_].
  rewrite contents_from_letters. apply join_letters.
Qed.

Lemma contents_from_cases (items all : list value) :
  (forallb (fun x => Z.of_nat (String.length (toString x)) =? 1) items = true
   -> contents_from items all = join "" all)
  /\ (forallb (fun x => Z.of_nat (String.length (toString x)) =? 1) items
      = false -> contents_from items all = join " " all).
Proof.
  induction items as [ | x items [IH1 IH2]]; cbn [contents_from forallb].
  - split; [reflexivity | discriminate].
  - destruct (Z.of_nat (String.length (toString x)) =? 1); cbn [negb andb].
    + split; assumption.
    + split; [discriminate | reflexivity].
Qed.

(** X14. The separator of [listContents]: one item whose string form is not
    exactly one character long, wherever it stands, puts a space between
    all the items; without such an item they are joined with nothing in
    between. *)
Theorem listContents_separator (list : variable) :
  ((exists x, In x (value_ list) /\ String.length (toString x) <> 1%nat) ->
   listContents list = join " " (value_ list))
  /\ ((forall x, In x (value_ list) -> String.length (toString x) = 1%nat) ->
      listContents list = join "" (value_ list)).
Proof.
  unfold listContents.
  destruct (contents_from_cases (value_ list) (value_ list)) as [A B].
  split.
  - intros (x & I & L). apply B. apply not_true_is_false. intros F.
    rewrite forallb_forall in F. specialize (F x I).
    apply Z.eqb_eq in F. lia.
  - intros H. apply A. apply forallb_forall. intros x I.
    apply Z.eqb_eq. rewrite (H x I). reflexivity.
Qed.

Lemma listContents_separator_witness :
  listContents
    (mkVariable [VString "a"; VString "bc"; VString "d"] true [])
  = "a bc d".
Proof.
  destruct (listContents_separator
              (mkVariable [VString "a"; VString "bc"; VString "d"] true []))
    as [H _].
  apply H. exists (VString "bc"). split; [right; left; reflexivity | ].
  cbn. discriminate.
Defined.

End ListRuns.
(** ** Random numbers *)

Module RandomFacts.

Import Num NumSpec NumFacts More.
Local Open Scope Z_scope.

(** If [p / q <= b * (1 - 2^-53)] for an integer [b] up to [2^31], the
    double nearest to [p / q] is 0 or has a fraction part, and its integer
    part is below [b]. *)
Lemma round_ratio_floor_below (p q : positive) (b : Z) :
  0 < b <= 2 ^ 31 ->
  Zpos p * 2 ^ 53 <= b * (2 ^ 53 - 1) * Zpos q ->
  round_ratio false p q = Zero false
  \/ exists m k, round_ratio false p q = Fin false m (Zneg k)
                 /\ 0 <= Zpos m / 2 ^ Zpos k < b.
Proof.
  intros Hb H.
  assert (Zpos p < b * Zpos q) as Hlt by nia.
  pose proof (floor_log2_ratio_lower p q) as FL.
  set (fl := floor_log2_ratio p q) in *.
  assert (fl <= 30) as Hfl.
  { destruct (Z.le_gt_cases fl 30) as [ | G]; [assumption | exfalso].
    apply ge_pow2_mono with (k' := 31) in FL; [ | lia].
    unfold ge_pow2 in FL. cbn in FL. nia. }
  set (e := grid_exponent p q).
  assert (e = Z.max (fl - 52) (-1074)) as He by reflexivity.
  assert (e <= -22) as Hneg by lia.
  pose proof (pow2_pos (- e) ltac:(lia)) as P.
  assert (2 ^ 52 < b * 2 ^ (- e)) as Wide.
  { destruct (Z.max_spec (fl - 52) (-1074)) as [[_ E] | [_ E]]; rewrite E in He.
    - rewrite He. apply Z.lt_le_trans with (2 ^ 1074); [apply pow2_lt; lia | ].
      change (- -1074) with 1074. nia.
    - assert (- e = 52 - fl) as -> by lia.
      destruct (Z.le_gt_cases 0 fl) as [F | F].
      + unfold ge_pow2 in FL.
        rewrite (Z.max_r 0 fl), (Z.max_l 0 (- fl)), Z.pow_0_r in FL by lia.
        assert (2 ^ fl < b) by nia.
        assert (2 ^ 52 = 2 ^ fl * 2 ^ (52 - fl)) as ->
            by (rewrite <- pow2_add by lia; f_equal; lia).
        pose proof (pow2_pos (52 - fl) ltac:(lia)). nia.
      + apply Z.lt_le_trans with (2 ^ (52 - fl)); [apply pow2_lt; lia | ].
        pose proof (pow2_pos (52 - fl) ltac:(lia)). nia. }
  pose proof (nearest_even_cases p q e) as NE.
  pose proof (nearest_even_lower p q e) as [NL _].
  cbv zeta in NE, NL.
  rewrite (Z.max_r 0 (- e)), (Z.max_l 0 e), Z.pow_0_r, Z.mul_1_r in NE, NL by lia.
  set (num := Zpos p * 2 ^ (- e)) in *.
  set (m := nearest_even p q e) in *.
  pose proof (Z.div_mod num (Zpos q) ltac:(lia)) as DM.
  pose proof (Z.mod_pos_bound num (Zpos q) ltac:(lia)) as MB.
  assert (num / Zpos q < b * 2 ^ (- e)) as Q
      by (apply Z.div_lt_upper_bound; [lia | unfold num; nia]).
  assert (0 <= num / Zpos q) as Q0 by (apply Z.div_pos; unfold num; lia).
  assert (0 <= m < b * 2 ^ (- e)) as Hm.
  { split; [lia | ].
    destruct NE as [-> | [-> R]]; [exact Q | ].
    destruct (Z.eq_dec (num / Zpos q + 1) (b * 2 ^ (- e))) as [E | ]; [ | lia].
    exfalso.
    assert (Zpos q * (2 * (b * 2 ^ (- e)) - 1) <= 2 * num) as T by nia.
    assert (2 * num * 2 ^ 53 <= 2 * (b * 2 ^ (- e)) * (2 ^ 53 - 1) * Zpos q) as U
        by (unfold num; nia).
    nia. }
  unfold round_ratio. fold e m.
  destruct (m =? 2 ^ 53) eqn:Carry.
  - apply Z.eqb_eq in Carry.
    replace (971 <? e + 1) with false by (symmetry; apply Z.ltb_ge; lia).
    change (2 ^ 52) with (Zpos (2 ^ 52)). cbv iota.
    destruct (e + 1) as [ | k | k] eqn:E1; try lia.
    right. exists (2 ^ 52)%positive, k. split; [reflexivity | ].
    assert (2 ^ (- e) = 2 * 2 ^ Zpos k) as P2
        by (replace (- e) with (1 + Zpos k) by lia; rewrite pow2_add by lia;
            reflexivity).
    pose proof (pow2_pos (Zpos k) ltac:(lia)).
    split; [apply Z.div_pos; lia | ].
    apply Z.div_lt_upper_bound; [lia | ].
    change (Zpos (2 ^ 52)) with (2 ^ 52). nia.
  - replace (971 <? e) with false by (symmetry; apply Z.ltb_ge; lia).
    destruct m as [ | k | k] eqn:M; try lia; [now left | right].
    destruct e as [ | j | j] eqn:E1; try lia.
    exists k, j. split; [reflexivity | ].
    change (- Zneg j) with (Zpos j) in *.
    split; [apply Z.div_pos; lia | ].
    apply Z.div_lt_upper_bound; lia.
Qed.

(** [Math.floor(Math.random() * n)] is one of the integers [0 .. n - 1];
    the zero may be either of the two. *)
Lemma floor_random (rnd : number) (n : Z) :
  in_unit_interval rnd = true -> 0 < n <= 2 ^ 31 ->
  exists t, 0 <= t < n
            /\ (floor (mul rnd (of_Z n)) = of_Z t
                \/ (floor (mul rnd (of_Z n)) = Zero true /\ t = 0)).
Proof.
  intros U Hl. unfold in_unit_interval in U.
  apply andb_true_iff in U as [U Lt1]. apply andb_true_iff in U as [W Pos].
  assert (2 ^ 31 < 2 ^ 53) as P31 by (apply pow2_lt; lia).
  rewrite of_Z_canon by lia.
  replace (n <? 0) with false by (symmetry; apply Z.ltb_ge; lia).
  rewrite Z.abs_eq by lia.
  destruct rnd as [ | s | s | s m e]; try discriminate.
  - destruct s; discriminate.
  - exists 0. split; [lia | ]. destruct s; [right | left]; now split.
  - destruct s; [discriminate | clear Pos].
    assert (0 < n < 2 ^ 53) as Hl' by (split; [lia | ];
      apply Z.le_lt_trans with (2 ^ 31); [lia | apply pow2_lt; lia]).
    pose proof (log2_lt_53' n Hl') as Ll.
    destruct (canon_mantissa n Hl') as [El Cl].
    cbn [wf] in W. apply andb_true_iff in W as [W _].
    apply andb_true_iff in W as [Wm We].
    apply Z.ltb_lt in Wm. apply Z.leb_le in We.
    assert (e < 0 /\ Zpos m * 2 ^ 53 <= (2 ^ 53 - 1) * 2 ^ (- e)) as [Eneg Hr].
    { unfold ltb in Lt1. change (of_Z 1) with (Fin false (2 ^ 52) (-52)) in Lt1.
      cbn [compare] in Lt1. unfold aligned in Lt1.
      destruct (_ ?= _) eqn:C; try discriminate. clear Lt1.
      rewrite Z.compare_lt_iff in C. change (Zpos (2 ^ 52)) with (2 ^ 52) in C.
      destruct (Z.le_gt_cases (-52) e) as [G | G].
      - rewrite Z.min_r in C by lia.
        replace (-52 - -52) with 0 in C by lia. rewrite Z.pow_0_r in C.
        replace (e - -52) with (e + 52) in C by lia.
        assert (e < 0) as Eneg.
        { destruct (Z.le_gt_cases 0 e); [ | assumption].
          pose proof (pow2_le 52 (e + 52) ltac:(lia)). nia. }
        split; [assumption | ].
        assert (2 ^ 52 = 2 ^ (- e) * 2 ^ (e + 52)) as E52
            by (rewrite <- pow2_add by lia; f_equal; lia).
        pose proof (pow2_pos (e + 52) ltac:(lia)).
        pose proof (pow2_pos (- e) ltac:(lia)).
        assert (Zpos m < 2 ^ (- e)) by nia.
        pose proof (pow2_le (- e) 53 ltac:(lia)). nia.
      - split; [lia | ].
        pose proof (pow2_le 53 (- e) ltac:(lia)). nia. }
    unfold canon. cbn [mul xorb].
    set (ml := Z.to_pos (n * 2 ^ (52 - Z.log2 n))) in *.
    unfold round_dyadic.
    destruct (e + (Z.log2 n - 52)) as [ | k | k] eqn:K; try lia.
    destruct (round_ratio_floor_below (m * ml) (2 ^ k) n) as [-> | (m' & k' & -> & B)].
    + lia.
    + rewrite Pos2Z.inj_mul, Pos2Z.inj_pow, El.
      assert (2 ^ Zpos k = 2 ^ (- e) * 2 ^ (52 - Z.log2 n)) as ->
          by (rewrite <- pow2_add by lia; f_equal; lia).
      pose proof (pow2_pos (52 - Z.log2 n) ltac:(lia)).
      pose proof (pow2_pos (- e) ltac:(lia)). nia.
    + exists 0. split; [lia | now left].
    + exists (Zpos m' / 2 ^ Zpos k'). split; [exact B | now left].
Qed.

(** Sums and differences of integers that stay below [2^53] are exact. *)
Lemma add_of_Z (a b : Z) :
  Z.abs a < 2 ^ 53 -> Z.abs b < 2 ^ 53 -> Z.abs (a + b) < 2 ^ 53 ->
  add (of_Z a) (of_Z b) = of_Z (a + b).
Proof.
  intros Ha Hb Hs.
  destruct (Z.eq_dec a 0) as [-> | Na], (Z.eq_dec b 0) as [-> | Nb].
  - reflexivity.
  - cbn [of_Z Z.add]. rewrite of_Z_canon by lia. reflexivity.
  - rewrite Z.add_0_r. cbn [of_Z]. rewrite of_Z_canon by lia. reflexivity.
  - rewrite (of_Z_canon a), (of_Z_canon b) by lia.
    rewrite add_canon by
      (try lia; cbv zeta;
       destruct (Z.ltb_spec a 0), (Z.ltb_spec b 0); lia).
    f_equal. destruct (Z.ltb_spec a 0), (Z.ltb_spec b 0); lia.
Qed.

Lemma opp_of_Z (a : Z) :
  a <> 0 -> Z.abs a < 2 ^ 53 -> opp (of_Z a) = of_Z (- a).
Proof.
  intros Na Ha. rewrite (of_Z_canon a), (of_Z_canon (- a)) by lia.
  unfold canon. cbn [opp]. rewrite Z.abs_opp. f_equal.
  destruct (Z.ltb_spec a 0), (Z.ltb_spec (- a) 0); try reflexivity; lia.
Qed.

Lemma sub_of_Z (a b : Z) :
  Z.abs a < 2 ^ 53 -> Z.abs b < 2 ^ 53 -> Z.abs (a - b) < 2 ^ 53 ->
  sub (of_Z a) (of_Z b) = of_Z (a - b).
Proof.
  intros Ha Hb Hs. unfold sub.
  destruct (Z.eq_dec b 0) as [-> | Nb].
  - rewrite Z.sub_0_r. cbn [of_Z opp].
    destruct (Z.eq_dec a 0) as [-> | Na]; [reflexivity | ].
    rewrite of_Z_canon by lia. reflexivity.
  - rewrite opp_of_Z by lia. apply add_of_Z; lia.
Qed.

Lemma add_negative_zero (a : Z) : add (of_Z a) (Zero true) = of_Z a.
Proof.
  destruct a as [ | p | p]; [reflexivity | | ]; cbn [of_Z].
  - pose proof (round_ratio_sign false p 1) as [_ N].
    destruct (round_ratio false p 1) as [ | s | s | s m e];
      cbn [add]; rewrite ?andb_true_r; try reflexivity; discriminate N.
  - pose proof (round_ratio_sign true p 1) as [_ N].
    destruct (round_ratio true p 1) as [ | s | s | s m e];
      cbn [add]; rewrite ?andb_true_r; try reflexivity; discriminate N.
Qed.

Lemma add_floor_random (low : Z) (rnd : number) (n : Z) :
  in_unit_interval rnd = true -> 0 < n <= 2 ^ 31 -> Z.abs low + n < 2 ^ 53 ->
  exists t, 0 <= t < n
            /\ add (of_Z low) (floor (mul rnd (of_Z n))) = of_Z (low + t).
Proof.
  intros U N B.
  destruct (floor_random rnd n U N) as (t & T & [E | [E Et]]);
    exists t; (split; [exact T | rewrite E]).
  - apply add_of_Z; lia.
  - rewrite Et, Z.add_0_r. apply add_negative_zero.
Qed.

(** X15. [randomInt] on integer bounds [low <= high] returns an integer
    from [low] to [high], both included, for every value of
    [Math.random()]. *)
Theorem randomInt_in_range (low high : Z) (rnd : number) :
  - 2 ^ 30 <= low -> low <= high -> high < 2 ^ 30 ->
  in_unit_interval rnd = true ->
  exists k, randomInt (of_Z low) (of_Z high) rnd = of_Z k /\ low <= k <= high.
Proof.
  intros L LH H U. unfold randomInt.
  assert (2 ^ 30 < 2 ^ 53) as P by (apply pow2_lt; lia).
  assert (2 ^ 31 = 2 * 2 ^ 30) as P31 by reflexivity.
  rewrite add_of_Z by (try (change (Z.abs 1) with 1); lia).
  rewrite sub_of_Z by lia.
  destruct (add_floor_random low rnd (high + 1 - low) U ltac:(lia) ltac:(lia))
    as (t & T & ->).
  exists (low + t). split; [reflexivity | lia].
Qed.

Lemma randomInt_in_range_witness :
  exists k, randomInt (of_Z 1) (of_Z 6) (Fin false 3 (-2)) = of_Z k
            /\ 1 <= k <= 6.
Proof.
  apply (randomInt_in_range 1 6 (Fin false 3 (-2)));
    [vm_compute; discriminate | lia | reflexivity | reflexivity].
Defined.

(** X16. [randomInt] of a bound with itself is that bound, and [randomFloat]
    of an integer with itself is that integer: [Math.random()] has no say
    when the interval is a point. *)
Theorem random_of_a_point (a : Z) (rnd : number) :
  Z.abs a < 2 ^ 30 -> in_unit_interval rnd = true ->
  randomInt (of_Z a) (of_Z a) rnd = of_Z a
  /\ randomFloat (of_Z a) (of_Z a) rnd = of_Z a.
Proof.
  intros A U.
  assert (2 ^ 30 < 2 ^ 53) as P by (apply pow2_lt; lia).
  split.
  - unfold randomInt.
    rewrite add_of_Z by (try (change (Z.abs 1) with 1); lia).
    rewrite sub_of_Z by lia.
    destruct (add_floor_random a rnd (a + 1 - a) U ltac:(lia) ltac:(lia))
      as (t & T & ->).
    f_equal. lia.
  - unfold randomFloat. rewrite sub_of_Z by lia. rewrite Z.sub_diag.
    unfold in_unit_interval in U.
    apply andb_true_iff in U as [U Lt1]. apply andb_true_iff in U as [_ Pos].
    assert (exists s, mul rnd (of_Z 0) = Zero s) as [s ->].
    { destruct rnd as [ | s | s | s m e]; try discriminate;
        try (destruct s; discriminate); eexists; reflexivity. }
    destruct (Z.eq_dec a 0) as [-> | N]; [now destruct s | ].
    rewrite of_Z_canon by lia. reflexivity.
Qed.

Lemma random_of_a_point_witness :
  randomInt (of_Z 4) (of_Z 4) (Fin false 1 (-1)) = of_Z 4.
Proof.
  apply (random_of_a_point 4 (Fin false 1 (-1)));
    [vm_compute; reflexivity | reflexivity].
Defined.

End RandomFacts.
(** ** The modulo on the values that are no numbers *)

Module ModEdges.

Import Num NumSpec NumFacts Exec.
Local Open Scope Z_scope.

Lemma round_dyadic_not_nan (s : bool) (m : positive) (e : Z) :
  is_nan (round_dyadic s m e) = false.
Proof. apply ModFacts.round_dyadic_sign. Qed.

Lemma add_finite_not_nan (x y : number) :
  is_nan x = false -> is_finite y = true -> is_nan (add x y) = false.
Proof.
  destruct x as [ | sx | sx | sx mx ex], y as [ | sy | sy | sy my ey];
    try discriminate; try reflexivity; intros _ _; cbn [add].
  destruct (_ + _); [reflexivity | | ]; apply round_dyadic_not_nan.
Qed.

Lemma rem_not_nan (x y : number) :
  is_finite x = true -> is_nan y = false -> is_zero y = false ->
  is_nan (rem x y) = false.
Proof.
  destruct x as [ | sx | sx | sx mx ex], y as [ | sy | sy | sy my ey];
    try discriminate; try reflexivity; intros _ _ _; cbn [rem].
  destruct (_ mod _); [reflexivity | | reflexivity].
  apply round_dyadic_not_nan.
Qed.

(** X17. [mod] gives [NaN] exactly when the dividend is [NaN] or infinite
    or the modulus is [NaN] or zero; an infinite modulus gives no [NaN]. *)
Theorem mod_nan_cases (n modulus : number) :
  is_nan (mod_ n modulus)
  = negb (is_finite n) || is_nan modulus || is_zero modulus.
Proof.
  unfold mod_.
  destruct (is_finite n) eqn:Fn; cbn [negb orb].
  - destruct (is_nan modulus) eqn:Nm; cbn [orb].
    { destruct modulus; try discriminate. now destruct n. }
    destruct (is_zero modulus) eqn:Zm.
    { destruct modulus; try discriminate. now destruct n. }
    pose proof (rem_not_nan n modulus Fn Nm Zm) as R.
    destruct (ltb _ _); [ | exact R].
    destruct modulus as [ | sy | sy | sy my ey]; try discriminate.
    + destruct n; try discriminate; reflexivity.
    + now apply add_finite_not_nan.
  - destruct n; try discriminate; destruct modulus; reflexivity.
Qed.

(** A zero dividend comes back as it is. *)
Lemma mod_zero_dividend (s : bool) (m : Z) :
  m <> 0 -> Z.abs m < 2 ^ 53 -> mod_ (Zero s) (of_Z m) = Zero s.
Proof.
  intros N B. rewrite of_Z_canon by lia. unfold canon, mod_.
  cbn [rem div]. reflexivity.
Qed.

(** X18. On integers below [2^53] in magnitude, [mod] by the same modulus a
    second time changes nothing, and adding the modulus to the dividend
    changes the result at most from one zero to the other; [mod] by 1 of
    an integer is zero. *)
Theorem mod_is_periodic (n m : Z) :
  Z.abs n < 2 ^ 52 -> Z.abs m < 2 ^ 52 -> m <> 0 ->
  mod_ (mod_ (of_Z n) (of_Z m)) (of_Z m) = mod_ (of_Z n) (of_Z m)
  /\ Num.eqb (mod_ (of_Z (n + m)) (of_Z m)) (mod_ (of_Z n) (of_Z m)) = true
  /\ is_zero (mod_ (of_Z n) (of_Z 1)) = true.
Proof.
  intros Hn Hm M0.
  assert (2 ^ 53 = 2 * 2 ^ 52) as P by reflexivity.
  assert (Z.abs (n mod m) < Z.abs m) as Bm.
  { destruct (Z.lt_ge_cases 0 m) as [G | G].
    - pose proof (Z.mod_pos_bound n m G). lia.
    - pose proof (Z.mod_neg_bound n m ltac:(lia)). lia. }
  split; [ | split].
  - destruct (mod_of_Z n m ltac:(lia) ltac:(lia) M0) as [[N ->] | [Z0 ->]].
    + destruct (mod_of_Z (n mod m) m ltac:(lia) ltac:(lia) M0)
        as [[_ ->] | [Z1 _]].
      * now rewrite Z.mod_mod.
      * rewrite Z.mod_mod in Z1 by exact M0. contradiction.
    + apply mod_zero_dividend; lia.
  - assert ((n + m) mod m = n mod m) as E.
    { replace (n + m) with (n + 1 * m) by lia. now apply Z.mod_add. }
    destruct (mod_of_Z n m ltac:(lia) ltac:(lia) M0) as [[N ->] | [Z0 ->]];
      destruct (mod_of_Z (n + m) m ltac:(lia) ltac:(lia) M0)
        as [[N' ->] | [Z1 ->]]; rewrite E in *; try contradiction.
    + apply eqb_refl. apply CompareFacts.eqb_not_nan with (y := of_Z (n mod m)).
      destruct (Z.eq_dec (n mod m) 0); [contradiction | ].
      rewrite of_Z_canon by lia. unfold canon, Num.eqb. cbn [compare].
      now rewrite Z.compare_refl.
    + reflexivity.
  - destruct (mod_of_Z n 1 ltac:(lia) ltac:(change (Z.abs 1) with 1; lia)
                ltac:(lia)) as [[N _] | [_ ->]]; [ | reflexivity].
    rewrite Z.mod_1_r in N. contradiction.
Qed.

Lemma mod_is_periodic_witness :
  Num.eqb (mod_ (of_Z (-3 + 3)) (of_Z 3)) (mod_ (of_Z (-3)) (of_Z 3)) = true.
Proof.
  destruct (mod_is_periodic (-3) 3) as (_ & H & _);
    [reflexivity | reflexivity | discriminate | exact H].
Defined.

End ModEdges.
(** ** Whole runs of the compatibility layer *)

Module RunFacts.

Import Val Thread Compat Runs.
Local Open Scope Z_scope.

Section Bridge.

Variable World : Type.
Variable reuse : bool -> World -> World.
Variable timeElapsed : World -> Num.number.
Variable blockFunction : env World -> result * env World.

Local Abbreviation step := (step World reuse timeElapsed blockFunction).
Local Abbreviation next := (next World reuse timeElapsed blockFunction).
Local Abbreviation run := (run World reuse timeElapsed blockFunction).
Local Abbreviation after_next := (after_next World).
Local Abbreviation isStuck := (isStuck World timeElapsed).
Local Abbreviation isStuck_times := (isStuck_times World timeElapsed).
Local Abbreviation env := (env World).

(** X19. The counter of [isStuck] stays from 0 to 9, and ten calls in a
    row bring it back to where it was, look at the clock once, and report
    stuck once if more than 500 ms have elapsed and never otherwise. *)
Theorem isStuck_period (e : env) :
  0 <= stuckCounter _ e < 10 ->
  0 <= stuckCounter _ (snd (isStuck e)) < 10
  /\ isStuck_times 10 e
     = ((if Num.gtb (timeElapsed (world _ e)) (Num.of_Z 500)
         then 1 else 0)%nat, e).
Proof.
  intros H. split.
  - unfold Compat.isStuck.
    destruct (Z.eqb_spec (stuckCounter _ e + 1) 10); cbn; lia.
  - destruct e as [sh w c wd]. cbn [stuckCounter world] in *.
    assert (c = 0 \/ c = 1 \/ c = 2 \/ c = 3 \/ c = 4 \/ c = 5 \/ c = 6
            \/ c = 7 \/ c = 8 \/ c = 9) as C by lia.
    repeat (destruct C as [-> | C]); try subst c; reflexivity.
Qed.

Lemma next_more_fuel (fuel k : nat) (pt : point) (e : env) r :
  next fuel pt e = Some r -> next (fuel + k) pt e = Some r.
Proof.
  revert pt e. induction fuel as [ | fuel IH]; intros pt e; [discriminate | ].
  cbn [Compat.next Nat.add].
  destruct (step pt e) as [[pt' e'] [ | | v | ]]; auto.
Qed.

Lemma next_le_fuel (fuel fuel' : nat) (pt : point) (e : env) r :
  (fuel <= fuel')%nat -> next fuel pt e = Some r -> next fuel' pt e = Some r.
Proof.
  intros L H. replace fuel' with (fuel + (fuel' - fuel))%nat by lia.
  now apply next_more_fuel.
Qed.

(** Inside a warp region, with a primitive that stays there, a clock that
    never passes 500 ms keeps the loop from yielding. *)
Lemma warp_run_from (fuel : nat) :
  stays_in_warp World blockFunction ->
  (forall w, Num.gtb (timeElapsed w) (Num.of_Z 500) = false) ->
  forall (pt : point) (e : env),
    warp _ e <> 0 ->
    match pt with
    | Entry | Reinvoke => True
    | LoopTest _ => status_ _ e <> STATUS_YIELD_TICK
    | _ => False
    end ->
    next fuel pt e = None
    \/ exists e' v, next fuel pt e = Some (Finished, e', Returned v).
Proof.
  intros Stay Clock.
  induction fuel as [ | fuel IH]; intros pt e W I; [now left | ].
  cbn [Compat.next].
  assert (forall e0 : env, warp _ e0 <> 0 ->
            exists v e1, Compat.executeBlock World blockFunction e0
                         = (LoopTest v, e1, Continue)
                         /\ warp _ e1 <> 0
                         /\ status_ _ e1 <> STATUS_YIELD_TICK) as Block.
  { intros e0 W0. destruct (Stay e0 W0) as (W1 & S1 & v & V).
    unfold Compat.executeBlock.
    destruct (blockFunction e0) as [r e1]. cbn [fst snd] in *. subst r.
    now exists v, e1. }
  destruct pt as [ | rv | | | ]; try contradiction.
  - cbn [Compat.step].
    destruct (Block (mkEnv _ (shared _ e) (warp _ e) (stuckCounter _ e)
                           (reuse (warp _ e >? 0) (world _ e))) W)
      as (v & e1 & -> & W1 & S1).
    now apply IH.
  - cbn [Compat.step].
    destruct (status_ _ e) eqn:Hs; try contradiction;
      try (right; eexists; eexists; reflexivity).
    replace (warp _ (set_status _ e STATUS_RUNNING) =? 0) with false
      by (symmetry; now apply Z.eqb_neq).
    pose proof (CompatFacts.isStuck_spec World timeElapsed blockFunction
                  (set_status _ e STATUS_RUNNING)) as St.
    pose proof (CompatFacts.isStuck_keeps_thread World timeElapsed
                  (set_status _ e STATUS_RUNNING)) as (_ & K & _).
    destruct (isStuck (set_status _ e STATUS_RUNNING)) as [stuck e1].
    cbn [fst snd] in St, K.
    destruct stuck.
    + destruct St as [St _]. destruct (St eq_refl) as [_ L].
      rewrite Clock in L. discriminate.
    + apply IH; [rewrite K; exact W | exact Logic.I].
  - cbn [Compat.step].
    destruct (Block e W) as (v & e1 & -> & W1 & S1).
    now apply IH.
Qed.

(** X20. Inside a warp region, as long as the clock read by [isStuck] does
    not pass 500 ms, the generator never yields: with a primitive that
    stays in the region, keeps from asking for a tick and returns no
    promise, a call of [next()] either returns or is still running when
    the steps run out, whatever their number. *)
Theorem warp_run_never_yields (fuel : nat) (e : env) :
  stays_in_warp World blockFunction ->
  (forall w, Num.gtb (timeElapsed w) (Num.of_Z 500) = false) ->
  warp _ e <> 0 ->
  forall pt e', next fuel Entry e <> Some (pt, e', Suspended).
Proof.
  intros Stay Clock W pt e' H.
  destruct (warp_run_from fuel Stay Clock Entry e W Logic.I)
    as [N | (e1 & v & N)]; rewrite N in H; discriminate.
Qed.

(** A primitive that yields for ever is stopped by the tenth call of
    [isStuck], when the clock has passed 500 ms. *)
Lemma stuck_run_from (n : nat) :
  always_yields World blockFunction ->
  (forall w, Num.gtb (timeElapsed w) (Num.of_Z 500) = true) ->
  forall (rv : value) (e : env),
    warp _ e <> 0 -> status_ _ e = STATUS_YIELD ->
    stuckCounter _ e = 9 - Z.of_nat n ->
    exists e',
      next (2 * n + 1) (LoopTest rv) e = Some (Reinvoke, e', Suspended)
      /\ stuckCounter _ e' = 0
      /\ status_ _ e' = STATUS_RUNNING
      /\ warp _ e' = warp _ e.
Proof.
  intros Yield Clock.
  induction n as [ | n IH]; intros rv e W Hs C.
  - cbn [Nat.mul Nat.add Compat.next Compat.step]. rewrite Hs.
    replace (warp _ (set_status _ e STATUS_RUNNING) =? 0) with false
      by (symmetry; now apply Z.eqb_neq).
    unfold Compat.isStuck. cbn [set_status stuckCounter world warp shared].
    replace (stuckCounter _ e + 1 =? 10) with true
      by (symmetry; apply Z.eqb_eq; lia).
    rewrite Clock. eexists. split; [reflexivity | ]. now cbn.
  - replace (2 * S n + 1)%nat with (S (S (2 * n + 1))) by lia.
    cbn [Compat.next Compat.step]. rewrite Hs.
    replace (warp _ (set_status _ e STATUS_RUNNING) =? 0) with false
      by (symmetry; now apply Z.eqb_neq).
    unfold Compat.isStuck. cbn [set_status stuckCounter world warp shared].
    replace (stuckCounter _ e + 1 =? 10) with false
      by (symmetry; apply Z.eqb_neq; lia).
    set (e1 := mkEnv _ _ _ _ _).
    destruct (Yield e1) as (W1 & C1 & Hs1 & v & V).
    cbn [Compat.step]. unfold Compat.executeBlock.
    destruct (blockFunction e1) as [r e2]. cbn [fst snd] in *. subst r.
    cbv beta iota.
    destruct (IH v e2) as (e' & N & C' & S' & W').
    + rewrite W1. exact W.
    + exact Hs1.
    + rewrite C1. unfold e1. cbn [stuckCounter]. lia.
    + exists e'. rewrite N. split; [reflexivity | ].
      split; [exact C' | split; [exact S' | ]].
      rewrite W', W1. reflexivity.
Qed.

(** X21. Inside a warp region, when the clock has passed 500 ms, a
    primitive that yields for ever is stopped: the generator yields after
    at most nine more invocations, on the call of [isStuck] that brings
    the counter back to 0, with the status set to [STATUS_RUNNING]. *)
Theorem stuck_run_yields (fuel : nat) (rv : value) (e : env) :
  always_yields World blockFunction ->
  (forall w, Num.gtb (timeElapsed w) (Num.of_Z 500) = true) ->
  warp _ e <> 0 -> status_ _ e = STATUS_YIELD ->
  0 <= stuckCounter _ e < 10 -> (19 <= fuel)%nat ->
  exists e',
    next fuel (LoopTest rv) e = Some (Reinvoke, e', Suspended)
    /\ stuckCounter _ e' = 0
    /\ status_ _ e' = STATUS_RUNNING
    /\ warp _ e' = warp _ e.
Proof.
  intros Yield Clock W Hs C F.
  destruct (stuck_run_from (Z.to_nat (9 - stuckCounter _ e)) Yield Clock
              rv e W Hs ltac:(lia)) as (e' & N & R).
  exists e'. split; [ | exact R].
  eapply next_le_fuel; [ | exact N]. lia.
Qed.

(** X22. A primitive that returns a promise: the first call of [next()]
    yields with the status [STATUS_PROMISE_WAIT]; once the promise has
    settled, the next call returns the value it was fulfilled with, or
    [undefined] if it was rejected, with the status [STATUS_RUNNING]; and
    the generator has then ended. *)
Theorem bridge_awaits_promise
  (e e1 : env) (p : nat) (s : WaitPromise.settlement) (fuel : nat) :
  blockFunction (mkEnv _ (shared _ e) (warp _ e) (stuckCounter _ e)
                       (reuse (warp _ e >? 0) (world _ e)))
  = (Promise p, e1) ->
  exists e2,
    next (S fuel) Entry e = Some (InWaitPromise, e2, Suspended)
    /\ status_ _ e2 = STATUS_PROMISE_WAIT
    /\ world _ e2 = world _ e1
    /\ let e3 := fst (on_shared _ (WaitPromise.settle s) e2) in
       next (S fuel) InWaitPromise e3
       = Some (Finished, e3,
               Returned match s with
                        | WaitPromise.Fulfilled v => v
                        | WaitPromise.Rejected _ => VUndefined
                        end)
       /\ status_ _ e3 = STATUS_RUNNING
       /\ next (S fuel) Finished e3 = Some (Finished, e3, Returned VUndefined).
Proof.
  intros B. cbn [Compat.next Compat.step]. unfold Compat.executeBlock.
  rewrite B. unfold on_shared. cbn [WaitPromise.start event_of].
  eexists. split; [reflexivity | ].
  split; [reflexivity | split; [reflexivity | ]].
  destruct s; cbn; repeat split.
Qed.

Lemma run_more (calls calls' fuel fuel' : nat) (pt : point) (e : env)
  (n : nat) (v : value) :
  (calls <= calls')%nat -> (fuel <= fuel')%nat ->
  run calls fuel pt e = (n, Some v) -> run calls' fuel' pt e = (n, Some v).
Proof.
  intros Lc Lf. revert calls' Lc pt e n v.
  induction calls as [ | calls IH]; intros calls' Lc pt e n v H;
    [discriminate | ].
  destruct calls' as [ | calls']; [lia | ].
  cbn [Runs.run] in *.
  destruct (next fuel pt e) as [[[pt1 e1] o] | ] eqn:N; [ | discriminate].
  rewrite (next_le_fuel fuel fuel' pt e _ Lf N).
  destruct o as [ | r]; cbn [Runs.after_next] in *; [ | exact H].
  destruct (run calls fuel pt1 (on_resume _ e1)) as [n1 [v1 | ]] eqn:R;
    [ | discriminate].
  rewrite (IH calls' ltac:(lia) pt1 (on_resume _ e1) n1 v1 R). exact H.
Qed.

Lemma on_resume_spec (e : env) :
  world _ (on_resume _ e) = world _ e
  /\ warp _ (on_resume _ e) = warp _ e
  /\ status_ _ (on_resume _ e) <> STATUS_YIELD
  /\ status_ _ (on_resume _ e) <> STATUS_YIELD_TICK.
Proof.
  unfold on_resume.
  destruct (status_ _ e) eqn:E; cbn; rewrite ?E; repeat split; discriminate.
Qed.

Lemma run_is_some (calls fuel : nat) (pt : point) (e : env)
  (n : nat) (v : value) :
  run (S calls) fuel pt e = (n, Some v) -> next fuel pt e <> None.
Proof. cbn [Runs.run]. now destruct (next fuel pt e). Qed.

(** The run from the point where the primitive is invoked. *)
Lemma run_from_Reinvoke (remaining : World -> nat) :
  finishes_after World reuse blockFunction remaining ->
  forall (r : nat) (e : env),
    remaining (world _ e) = r ->
    status_ _ e <> STATUS_YIELD -> status_ _ e <> STATUS_YIELD_TICK ->
    exists n v,
      run (S r) (2 * r + 2) Reinvoke e = (n, Some v)
      /\ (n <= r)%nat
      /\ (warp _ e = 0 -> n = r).
Proof.
  intros [_ Fin]. induction r as [ | r IH]; intros e R N1 N2.
  - destruct (Fin e) as (W1 & (v & V) & F). rewrite R in F.
    exists O, v. split; [ | split; [lia | reflexivity]].
    cbn [Runs.run Nat.mul Nat.add Compat.next Compat.step].
    unfold Compat.executeBlock.
    destruct (blockFunction e) as [res e1]. cbn [fst snd] in *. subst res.
    cbn [Compat.next Compat.step]. rewrite F.
    destruct (status_ _ e); try contradiction; reflexivity.
  - destruct (Fin e) as (W1 & (v & V) & F). rewrite R in F.
    destruct F as [R1 F].
    replace (2 * S r + 2)%nat with (S (S (2 * r + 2))) by lia.
    set (fuel := S (S (2 * r + 2))).
    assert (run (S (S r)) fuel Reinvoke e
            = after_next (run (S r) fuel) (next fuel Reinvoke e)) as U
      by reflexivity.
    rewrite U. unfold fuel at 2. cbn [Compat.next Compat.step].
    unfold Compat.executeBlock.
    destruct (blockFunction e) as [res e1]. cbn [fst snd] in *. subst res.
    cbn [Compat.next Compat.step].
    assert (forall e2 : env,
              world _ e2 = world _ e1 -> warp _ e2 = warp _ e1 ->
              exists n v0,
                after_next (run (S r) fuel)
                           (Some (Reinvoke, e2, Suspended)) = (n, Some v0)
                /\ (n <= S r)%nat /\ (warp _ e = 0 -> n = S r)) as Susp.
    { intros e2 Wd Wp.
      destruct (on_resume_spec e2) as (Ow & Op & O1 & O2).
      destruct (IH (on_resume _ e2) ltac:(now rewrite Ow, Wd) O1 O2)
        as (n & v0 & Rn & Ln & En).
      exists (S n), v0. cbn [Runs.after_next].
      rewrite (run_more (S r) (S r) (2 * r + 2) fuel Reinvoke
                 (on_resume _ e2) n v0 ltac:(lia) ltac:(unfold fuel; lia) Rn).
      split; [reflexivity | split; [lia | ]].
      intros W0. f_equal. apply En. now rewrite Op, Wp, W1. }
    destruct F as [Hs | Hs]; rewrite Hs.
    + destruct (Z.eqb_spec (warp _ (set_status _ e1 STATUS_RUNNING)) 0)
        as [W0 | W0].
      * apply Susp; reflexivity.
      * pose proof (CompatFacts.isStuck_keeps_thread World timeElapsed
                      (set_status _ e1 STATUS_RUNNING)) as (Ks & K & Kw).
        destruct (isStuck (set_status _ e1 STATUS_RUNNING)) as [stuck e2].
        cbn [fst snd] in Ks, K, Kw.
        destruct stuck; [apply Susp; assumption | ].
        destruct (IH e2 ltac:(now rewrite Kw))
          as (n & v0 & Rn & Ln & En);
          [rewrite Ks; discriminate | rewrite Ks; discriminate | ].
        exists n, v0.
        split; [ | split; [lia | ]].
        -- pose proof (run_is_some _ _ _ _ _ _ Rn) as NN.
           destruct (next (2 * r + 2) Reinvoke e2) as [res | ] eqn:N;
             [ | contradiction].
           pose proof (run_more (S r) (S (S r)) (2 * r + 2) fuel Reinvoke e2
                         n v0 ltac:(lia) ltac:(unfold fuel; lia) Rn) as Rn'.
           cbn [Runs.run] in Rn'.
           rewrite (next_le_fuel (2 * r + 2) fuel Reinvoke e2 res
                      ltac:(unfold fuel; lia) N) in Rn'.
           exact Rn'.
        -- intros W. exfalso. apply W0. cbn [set_status warp].
           now rewrite W1.
    + apply Susp; reflexivity.
Qed.

(** X23. The generator comes to an end when the primitive does.  The
    thread enters with a status that is no request to yield, and its
    caller sets such a request back to [STATUS_RUNNING] when it resumes
    the thread.  If the primitive asks to be invoked again [r] more times,
    by [STATUS_YIELD] or by [STATUS_YIELD_TICK], and then leaves the
    status alone, the generator returns after at most [r] yields, and
    after exactly [r] outside a warp region, where each such request costs
    one yield. *)
Theorem bridge_finishes
  (remaining : World -> nat) (e : env) (calls fuel : nat) :
  finishes_after World reuse blockFunction remaining ->
  status_ _ e <> STATUS_YIELD -> status_ _ e <> STATUS_YIELD_TICK ->
  (remaining (world _ e) < calls)%nat ->
  (2 * remaining (world _ e) + 2 <= fuel)%nat ->
  exists n v,
    run calls fuel Entry e = (n, Some v)
    /\ (n <= remaining (world _ e))%nat
    /\ (warp _ e = 0 -> n = remaining (world _ e)).
Proof.
  intros Fin N1 N2 Lc Lf.
  set (e0 := mkEnv _ (shared _ e) (warp _ e) (stuckCounter _ e)
                   (reuse (warp _ e >? 0) (world _ e))).
  assert (remaining (world _ e0) = remaining (world _ e)) as R0
    by (destruct Fin as [Re _]; apply Re).
  destruct (run_from_Reinvoke remaining Fin (remaining (world _ e)) e0 R0
              N1 N2) as (n & v & Rn & Ln & En).
  exists n, v. split; [ | split; [exact Ln | exact En]].
  apply (run_more (S (remaining (world _ e))) calls
                  (2 * remaining (world _ e) + 2) fuel Entry e n v
                  ltac:(lia) Lf).
  replace (2 * remaining (world _ e) + 2)%nat
    with (S (2 * remaining (world _ e) + 1)) in * by lia.
  cbn [Runs.run Compat.next Compat.step] in *. exact Rn.
Qed.

End Bridge.

Lemma warp_run_never_yields_witness :
  let blockFunction (e : env nat) :=
    match world _ e with
    | O => (Value (VString "done"), set_status _ e STATUS_RUNNING)
    | S n => (Value VUndefined,
              mkEnv _ (shared _ (set_status _ e STATUS_YIELD)) (warp _ e)
                    (stuckCounter _ e) n)
    end in
  let e := mkEnv nat (WaitPromise.mkState STATUS_RUNNING VUndefined [])
                 1 0 15%nat in
  next nat (fun _ w => w) (fun _ => Num.of_Z 20) blockFunction 40 Entry e
  <> Some (Reinvoke, e, Suspended).
Proof.
  intros blockFunction e.
  apply (warp_run_never_yields nat (fun _ w => w) (fun _ => Num.of_Z 20)
           blockFunction 40 e).
  - intros e0 W. unfold blockFunction. destruct (world _ e0); cbn.
    + split; [exact W | split; [discriminate | now eexists]].
    + split; [exact W | split; [discriminate | now eexists]].
  - intros w. reflexivity.
  - discriminate.
Defined.

Lemma stuck_run_yields_witness :
  let blockFunction (e : env unit) :=
    (Value VUndefined, set_status _ e STATUS_YIELD) in
  let e := mkEnv unit (WaitPromise.mkState STATUS_YIELD VUndefined [])
                 1 0 tt in
  exists e',
    next unit (fun _ w => w) (fun _ => Num.of_Z 501) blockFunction 30
         (LoopTest VUndefined) e = Some (Reinvoke, e', Suspended)
    /\ stuckCounter _ e' = 0
    /\ status_ _ e' = STATUS_RUNNING
    /\ warp _ e' = warp _ e.
Proof.
  intros blockFunction e.
  apply (stuck_run_yields unit (fun _ w => w) (fun _ => Num.of_Z 501)
           blockFunction 30 VUndefined e).
  - intros e0. cbn. repeat split. now eexists.
  - intros w. reflexivity.
  - discriminate.
  - reflexivity.
  - cbn. lia.
  - lia.
Defined.

Lemma isStuck_period_witness :
  let e := mkEnv unit (WaitPromise.mkState STATUS_RUNNING VUndefined [])
                 1 3 tt in
  isStuck_times unit (fun _ => Num.of_Z 501) 10 e = (1%nat, e).
Proof.
  intros e.
  destruct (isStuck_period unit (fun _ => Num.of_Z 501) e) as [_ H];
    [cbn; lia | exact H].
Defined.

Lemma bridge_awaits_promise_witness :
  let blockFunction (e : env unit) := (Promise 0, e) in
  let e := mkEnv unit (WaitPromise.mkState STATUS_RUNNING VUndefined [])
                 0 0 tt in
  exists e2,
    next unit (fun _ w => w) (fun _ => Num.of_Z 0) blockFunction 1 Entry e
    = Some (InWaitPromise, e2, Suspended)
    /\ status_ _ e2 = STATUS_PROMISE_WAIT.
Proof.
  intros blockFunction e.
  destruct (bridge_awaits_promise unit (fun _ w => w) (fun _ => Num.of_Z 0)
              blockFunction e e 0%nat
              (WaitPromise.Fulfilled (VString "ok")) 0 eq_refl)
    as (e2 & N & S & _).
  exists e2. split; [exact N | exact S].
Defined.

Lemma bridge_finishes_witness :
  let blockFunction (e : env nat) :=
    match world _ e with
    | O => (Value (VString "done"), e)
    | S n => (Value VUndefined,
              mkEnv _ (shared _ (set_status _ e
                                   (if Nat.even n then STATUS_YIELD_TICK
                                    else STATUS_YIELD)))
                    (warp _ e) (stuckCounter _ e) n)
    end in
  let e := mkEnv nat (WaitPromise.mkState STATUS_RUNNING VUndefined [])
                 0 0 3%nat in
  exists n v,
    run nat (fun _ w => w) (fun _ => Num.of_Z 0) blockFunction 4 8 Entry e
    = (n, Some v)
    /\ (n <= 3)%nat
    /\ (warp _ e = 0 -> n = 3%nat).
Proof.
  intros blockFunction e.
  apply (bridge_finishes nat (fun _ w => w) (fun _ => Num.of_Z 0)
           blockFunction (fun w => w) e 4 8).
  - split; [reflexivity | ].
    intros e0. unfold blockFunction. destruct (world _ e0) as [ | n]; cbn.
    + split; [reflexivity | split; [now eexists | reflexivity]].
    + split; [reflexivity | split; [now eexists | split; [reflexivity | ]]].
      destruct (Nat.even n); [now right | now left].
  - discriminate.
  - discriminate.
  - cbn. lia.
  - cbn. lia.
Defined.

End RunFacts.
(** ** What [waitThreads] leaves alone *)

Module WaitFacts.

Import Thread WaitThreads.

Section Generator.

Variable isWaitingThread : runtime -> thread_ref -> bool.

Local Abbreviation anyRunning := WaitThreads.anyRunning.
Local Abbreviation allWaiting := (WaitThreads.allWaiting isWaitingThread).
Local Abbreviation resume := (WaitThreads.resume isWaitingThread).

(** X24. A call of [next()] on [waitThreads] never touches the active set
    and writes no status but the current thread's, which it leaves alone
    or sets to [STATUS_YIELD_TICK], and that only when it yields; waiting
    for no thread at all returns at once. *)
Theorem waitThreads_frame
  (thread : thread_ref) (ts : list thread_ref) (rt : runtime) :
  threads (fst (resume thread ts rt)) = threads rt
  /\ (forall u,
        status_of (fst (resume thread ts rt)) u = status_of rt u
        \/ (u = thread
            /\ status_of (fst (resume thread ts rt)) u = STATUS_YIELD_TICK
            /\ snd (resume thread ts rt) = Suspended))
  /\ resume thread [] rt = (rt, Returned tt).
Proof.
  unfold WaitThreads.resume.
  split; [ | split; [ | reflexivity]].
  - destruct (anyRunning rt ts); cbn [negb fst]; [ | reflexivity].
    now destruct (allWaiting rt ts).
  - intros u.
    destruct (anyRunning rt ts); cbn [negb fst snd]; [ | now left].
    destruct (allWaiting rt ts); [ | now left].
    cbn [set_status status_of].
    destruct (Nat.eqb_spec u thread) as [E | N]; [right | now left].
    now split.
Qed.

(** X25. The answer of [waitThreads] depends on which threads are waited
    for, not on their order in the list nor on how often each one is
    there. *)
Theorem waitThreads_same_threads
  (thread : thread_ref) (ts ts' : list thread_ref) (rt : runtime) :
  (forall t, In t ts <-> In t ts') ->
  resume thread ts rt = resume thread ts' rt.
Proof.
  intros Same. unfold WaitThreads.resume.
  assert (anyRunning rt ts = anyRunning rt ts') as ->.
  { apply Bool.eq_true_iff_eq.
    rewrite !WaitThreadsFacts.anyRunning_spec.
    split; intros (t & I & A); exists t; (split; [now apply Same | exact A]). }
  assert (allWaiting rt ts = allWaiting rt ts') as ->.
  { apply Bool.eq_true_iff_eq.
    rewrite !WaitThreadsFacts.allWaiting_spec.
    split; intros H t I; apply H; now apply Same. }
  reflexivity.
Qed.

End Generator.

Lemma waitThreads_same_threads_witness :
  let waiting (rt : runtime) (t : thread_ref) :=
    status_eqb (status_of rt t) STATUS_PROMISE_WAIT in
  let rt := mkRuntime [1; 2]%nat (fun _ => STATUS_RUNNING) in
  WaitThreads.resume waiting 1%nat [2; 3; 2]%nat rt
  = WaitThreads.resume waiting 1%nat [3; 2]%nat rt.
Proof.
  intros waiting rt.
  apply (waitThreads_same_threads waiting 1%nat [2; 3; 2]%nat [3; 2]%nat rt).
  intros t. cbn. tauto.
Defined.

End WaitFacts.
